(** * The property-dispatch engine of the script host (dispex)

    A shallow embedding of the [DispatchEx] part of
    [src/dlls/gdi32/dibdrv/graphics.c]: property slots, the growable slot
    table, the binary search over a class's built-in descriptors, prototype
    resolution, get / put, enumeration, the call path and the
    reference-counted lifetime; and of the helpers of the DIB driver in
    the first half of the file.

    Host objects live in a store indexed by their address, so that a
    prototype shared by several children is one object.  Every operation is
    a state transformer that either returns, hits undefined behaviour of the
    C program ([Fault]: a NULL dereference, an access outside the slot
    array, a signed overflow) or exhausts the recursion budget of the model
    ([Timeout]). *)

From Stdlib Require Import ZArith Lia List Bool String Ascii.
From stdpp Require Import base option list gmap.

Local Open Scope Z_scope.

(** ** Machine integers *)

(** A value stored in a 32-bit unsigned object ([DWORD]). *)
Definition as_DWORD (z : Z) : Z := z mod 2 ^ 32.

(** A value stored in a 32-bit signed object ([LONG], [int], [DISPID],
    [HRESULT]); two's complement. *)
Definition as_LONG (z : Z) : Z := (z + 2 ^ 31) mod 2 ^ 32 - 2 ^ 31.

Definition INT_MAX : Z := 2 ^ 31 - 1.

(** ** Results of the Windows API *)

Definition HRESULT := Z.

Definition S_OK : HRESULT := 0.
Definition S_FALSE : HRESULT := 1.
Definition E_NOTIMPL : HRESULT := as_LONG 0x80004001.
Definition E_FAIL : HRESULT := as_LONG 0x80004005.
Definition E_OUTOFMEMORY : HRESULT := as_LONG 0x8007000E.
Definition E_INVALIDARG : HRESULT := as_LONG 0x80070057.
Definition DISP_E_MEMBERNOTFOUND : HRESULT := as_LONG 0x80020003.
Definition DISP_E_UNKNOWNNAME : HRESULT := as_LONG 0x80020006.
Definition DISP_E_PARAMNOTOPTIONAL : HRESULT := as_LONG 0x8002000F.

Definition FAILED (hres : HRESULT) : bool := hres <? 0.

Definition DISPID := Z.
Definition DISPID_VALUE : DISPID := 0.
Definition DISPID_STARTENUM : DISPID := -1.
Definition DISPID_PROPERTYPUT : DISPID := -3.

Definition DISPATCH_METHOD : Z := 0x1.
Definition DISPATCH_PROPERTYGET : Z := 0x2.
Definition DISPATCH_PROPERTYPUT : Z := 0x4.
Definition DISPATCH_CONSTRUCT : Z := 0x4000.

(** ** Wide strings *)

(** A [WCHAR] string is a sequence of code units that ends at the first
    NUL; its contents are therefore non-zero units. *)
Definition WCHAR := positive.
Definition wstring := list WCHAR.

(** Literals: the code units of an ASCII string. *)
Fixpoint wstr (s : string) : wstring :=
  match s with
  | EmptyString => []
  | String c r => Pos.of_nat (nat_of_ascii c) :: wstr r
  end.

(** Modelled from the spec: [strcmpW] of [wine/unicode.h], which is not
    under src/.  Names are compared unit by unit, the result is the
    difference of the first two units that differ (the terminator counts as
    0), so that "sorted by name ascending" is the lexicographic order. *)
Fixpoint strcmpW (str1 str2 : wstring) : Z :=
  match str1, str2 with
  | [], [] => 0
  | [], c2 :: _ => 0 - Z.pos c2
  | c1 :: _, [] => Z.pos c1
  | c1 :: r1, c2 :: r2 =>
      if Pos.eqb c1 c2 then strcmpW r1 r2 else Z.pos c1 - Z.pos c2
  end.

(** ** Outcomes *)

(** What a call does: it returns ([Ret]); it runs into undefined behaviour of
    the C code, such as a NULL or dangling pointer that is dereferenced or a
    write past an array ([Fault]); or the fuel that bounds a recursion of the
    model is used up ([Timeout]). *)
Inductive result (A : Type) : Type :=
| Ret (a : A)
| Fault
| Timeout.
Arguments Ret {A} a.
Arguments Fault {A}.
Arguments Timeout {A}.

(** [strcmpW] applied to two pointers: a NULL argument is dereferenced. *)
Definition strcmpW_ptr (str1 str2 : option wstring) : result Z :=
  match str1, str2 with
  | Some a, Some b => Ret (strcmpW a b)
  | _, _ => Fault
  end.

(** ** Data model *)

(** The address of a host object. *)
Abbreviation ptr := nat (only parsing).

Inductive prop_type_t := PROP_VARIANT | PROP_BUILTIN | PROP_PROTREF | PROP_DELETED.

Global Instance prop_type_eq_dec : EqDecision prop_type_t.
Proof. solve_decision. Defined.

(** The variants the engine distinguishes: only an object reference
    ([VT_DISPATCH]) and a string ([VT_BSTR]) own a resource.  Every
    [IDispatch] is a host object of the store: a reference to an address that
    holds no object is dangling, and a call through it is a [Fault]. *)
Inductive VARIANT :=
| VT_EMPTY
| VT_I4 (lVal : Z)
| VT_BSTR (bstrVal : wstring)
| VT_DISPATCH (pdispVal : ptr).

(** A built-in descriptor: [invoke] is a code pointer, named by a number. *)
Record builtin_prop_t := {
  b_name : option wstring;
  b_invoke : option nat;
  b_flags : Z
}.

Record builtin_info_t := {
  value_prop : builtin_prop_t;
  bi_props : list builtin_prop_t;     (* props, props_cnt = its length *)
  destructor : option nat;
  on_put : option nat
}.

Definition props_cnt (info : builtin_info_t) : Z := Z.of_nat (length (bi_props info)).

(** The union [u] of a slot: the member written last ([u_undef] before the
    first write).  Reading another member than the one written last is a
    [Fault]. *)
Inductive prop_u :=
| u_undef
| u_var (var : VARIANT)
| u_p (p : builtin_prop_t)
| u_ref (ref : Z).

Record dispex_prop_t := {
  name : option wstring;
  type : prop_type_t;
  flags : Z;
  u : prop_u
}.

(** ** Binary search over the built-in descriptors *)

(** The loop of [find_builtin_prop]; [n] bounds the number of iterations.
    The result is the index [i] of [props + i]. *)
Fixpoint find_builtin_prop_loop (n : nat) (props : list builtin_prop_t)
    (name : option wstring) (min max : Z) : result (option Z) :=
  if max <? min then Ret None
  else match n with
       | O => Timeout
       | S n' =>
           if INT_MAX <? min + max then Fault
           else
             let i := Z.quot (min + max) 2 in
             if i <? 0 then Fault
             else match props !! Z.to_nat i with
                  | None => Fault
                  | Some d =>
                      match strcmpW_ptr name (b_name d) with
                      | Ret r =>
                          if r =? 0 then Ret (Some i)
                          else if r <? 0
                               then find_builtin_prop_loop n' props name min (i - 1)
                               else find_builtin_prop_loop n' props name (i + 1) max
                      | Fault => Fault
                      | Timeout => Timeout
                      end
                  end
       end.

Definition find_builtin_prop (info : builtin_info_t) (name : option wstring)
  : result (option builtin_prop_t) :=
  match find_builtin_prop_loop (length (bi_props info)) (bi_props info) name
          0 (as_LONG (props_cnt info - 1)) with
  | Ret (Some i) =>
      match bi_props info !! Z.to_nat i with
      | Some d => Ret (Some d)
      | None => Fault
      end
  | Ret None => Ret None
  | Fault => Fault
  | Timeout => Timeout
  end.

(** ** Host objects and the store *)

(** [props] holds the [prop_cnt] slots in use, in table order; [props_cap]
    is the number of slots the block [props] points to can hold (it is not
    a field of the C structure: it is what [heap_alloc] / [heap_realloc]
    last granted, and [buf_size] is the engine's own record of it). *)
Record DispatchEx := {
  ref : Z;
  buf_size : Z;
  props_cap : Z;
  props : list dispex_prop_t;
  prototype : option ptr;
  builtin_info : builtin_info_t;
  ctx : option nat
}.

Definition prop_cnt (This : DispatchEx) : Z := Z.of_nat (length (props This)).

Definition set_ref (This : DispatchEx) (r : Z) : DispatchEx :=
  {| ref := r; buf_size := buf_size This; props_cap := props_cap This;
     props := props This; prototype := prototype This;
     builtin_info := builtin_info This; ctx := ctx This |}.

Definition set_buf_size (This : DispatchEx) (n : Z) : DispatchEx :=
  {| ref := ref This; buf_size := n; props_cap := props_cap This;
     props := props This; prototype := prototype This;
     builtin_info := builtin_info This; ctx := ctx This |}.

Definition set_props_cap (This : DispatchEx) (n : Z) : DispatchEx :=
  {| ref := ref This; buf_size := buf_size This; props_cap := n;
     props := props This; prototype := prototype This;
     builtin_info := builtin_info This; ctx := ctx This |}.

Definition set_props (This : DispatchEx) (ps : list dispex_prop_t) : DispatchEx :=
  {| ref := ref This; buf_size := buf_size This; props_cap := props_cap This;
     props := ps; prototype := prototype This;
     builtin_info := builtin_info This; ctx := ctx This |}.

Definition set_ctx (This : DispatchEx) (c : option nat) : DispatchEx :=
  {| ref := ref This; buf_size := buf_size This; props_cap := props_cap This;
     props := props This; prototype := prototype This;
     builtin_info := builtin_info This; ctx := c |}.

Definition set_type (t : prop_type_t) (prop : dispex_prop_t) : dispex_prop_t :=
  {| name := name prop; type := t; flags := flags prop; u := u prop |}.

Definition set_flags (f : Z) (prop : dispex_prop_t) : dispex_prop_t :=
  {| name := name prop; type := type prop; flags := f; u := u prop |}.

Definition set_u (x : prop_u) (prop : dispex_prop_t) : dispex_prop_t :=
  {| name := name prop; type := type prop; flags := flags prop; u := x |}.

(** What the engine asks of the C heap and of the script context, in the
    order it asks. *)
Inductive event :=
| heap_free_name (this : ptr) (n : option wstring)
| heap_free_props (this : ptr)
| heap_free_This (this : ptr)
| script_addref (c : option nat)
| script_release (c : option nat).

(** [objs]: the live host objects by address; [brk]: the next address the
    allocator hands out; [allocs]: the outcomes of the coming allocation
    requests ([true]: granted), every request beyond the list is granted;
    [log]: the events so far, oldest first. *)
Record state := {
  objs : gmap ptr DispatchEx;
  brk : ptr;
  allocs : list bool;
  log : list event
}.

Definition set_objs (st : state) (m : gmap ptr DispatchEx) : state :=
  {| objs := m; brk := brk st; allocs := allocs st; log := log st |}.

(** ** The monad of the engine *)

Definition M (A : Type) : Type := state -> result (A * state).

Definition ret {A} (a : A) : M A := fun st => Ret (a, st).

Definition bind {A B} (m : M A) (k : A -> M B) : M B :=
  fun st =>
    match m st with
    | Ret (a, st') => k a st'
    | Fault => Fault
    | Timeout => Timeout
    end.

Definition fault {A} : M A := fun _ => Fault.
Definition timeout {A} : M A := fun _ => Timeout.

Declare Scope engine_scope.
Delimit Scope engine_scope with M.
Notation "x <- m ;; k" := (bind m (fun x => k))
  (at level 100, m at next level, right associativity) : engine_scope.
Notation "m ;;; k" := (bind m (fun _ => k))
  (at level 100, right associativity) : engine_scope.
Local Open Scope engine_scope.

(** Lift a pure outcome. *)
Definition lift {A} (r : result A) : M A :=
  fun st => match r with Ret a => Ret (a, st) | Fault => Fault | Timeout => Timeout end.

(** Dereference of an object pointer. *)
Definition obj (this : ptr) : M DispatchEx :=
  fun st => match objs st !! this with Some o => Ret (o, st) | None => Fault end.

(** A block enters the store, or is overwritten as a whole. *)
Definition put_obj (this : ptr) (o : DispatchEx) : M unit :=
  fun st => Ret (tt, set_objs st (<[this := o]> (objs st))).

(** Assignment to fields of [*this]. *)
Definition upd_obj (this : ptr) (f : DispatchEx -> DispatchEx) : M unit :=
  fun st =>
    match objs st !! this with
    | Some o => Ret (tt, set_objs st (<[this := f o]> (objs st)))
    | None => Fault
    end.

Definition free_obj (this : ptr) : M unit :=
  fun st => Ret (tt, set_objs st (delete this (objs st))).

(** [This->props + i], read. *)
Definition slot (this : ptr) (i : nat) : M dispex_prop_t :=
  fun st =>
    match objs st !! this with
    | Some o => match props o !! i with Some prop => Ret (prop, st) | None => Fault end
    | None => Fault
    end.

(** [This->props[i]], updated in place. *)
Definition upd_slot (this : ptr) (i : nat) (f : dispex_prop_t -> dispex_prop_t) : M unit :=
  fun st =>
    match objs st !! this with
    | Some o =>
        match props o !! i with
        | Some prop =>
            Ret (tt, set_objs st (<[this := set_props o (<[i := f prop]> (props o))]> (objs st)))
        | None => Fault
        end
    | None => Fault
    end.

Definition emit (e : event) : M unit :=
  fun st => Ret (tt, {| objs := objs st; brk := brk st; allocs := allocs st;
                        log := log st ++ [e] |}).

(** One allocation request: [true] when it is granted. *)
Definition heap_alloc : M bool :=
  fun st => match allocs st with
            | [] => Ret (true, st)
            | b :: rest => Ret (b, {| objs := objs st; brk := brk st;
                                      allocs := rest; log := log st |})
            end.

(** Modelled from the spec: [heap_strdupW] of [jscript.h], which is not
    under src/: a copy of the name, or NULL when the name is NULL or the
    allocation of the copy fails. *)
Definition heap_strdupW (str : option wstring) : M (option wstring) :=
  match str with
  | None => ret None
  | Some s => ok <- heap_alloc ;; ret (if ok : bool then Some s else None)
  end.

Record DISPPARAMS := {
  rgvarg : list VARIANT;            (* cArgs = its length *)
  rgdispidNamedArgs : list DISPID   (* cNamedArgs = its length *)
}.

(** The collaborators the engine calls through code pointers: a built-in
    descriptor's [invoke], a class's [on_put] and [destructor], and the call
    path of the engine ([invoke_prop_func] with [set_this] and [disp_call]),
    which this development does not enter. *)
Class Host := {
  builtin_invoke : nat -> ptr -> Z -> DISPPARAMS -> option VARIANT ->
                   M (HRESULT * option VARIANT);
  on_put_hook : nat -> ptr -> option wstring -> M unit;
  destructor_hook : nat -> ptr -> M unit;
  invoke_prop_func : ptr -> ptr -> nat -> Z -> DISPPARAMS -> option VARIANT ->
                     M (HRESULT * option VARIANT)
}.

(** Modelled from the spec: the flag bits of [jscript.h], which is not under
    src/; the spec names them Enumerable and MethodLike. *)
Definition PROPF_METHOD : Z := 0x0100.
Definition PROPF_ENUM : Z := 0x0200.

Definition fdexNameCaseSensitive : Z := 0x1.
Definition fdexNameEnsure : Z := 0x2.
Definition fdexNameImplicit : Z := 0x4.

(** ** The property table *)

Section Engine.
Context `{Host}.

(** [get_prop]: the slot of an identifier, as an index into [props]; [None]
    is the NULL result. *)
Definition get_prop (This : DispatchEx) (id : DISPID) : option nat :=
  if (id <? 0) || (prop_cnt This <=? id) then None
  else match props This !! Z.to_nat id with
       | Some prop =>
           if decide (type prop = PROP_DELETED) then None else Some (Z.to_nat id)
       | None => None
       end.

(** [prop_to_id]: the identifier of a slot is its index (a table never
    holds so many slots that the index would not fit a [DISPID]). *)
Definition prop_to_id (i : nat) : DISPID := Z.of_nat i.

(** [get_flags This prop], with [prop = This->props + i]. *)
Fixpoint get_flags (fuel : nat) (this : ptr) (i : nat) : M Z :=
  match fuel with
  | O => timeout
  | S fuel' =>
      prop <- slot this i ;;
      if decide (type prop = PROP_PROTREF) then
        o <- obj this ;;
        match prototype o, u prop with
        | Some p, u_ref r =>
            po <- obj p ;;
            match get_prop po (as_LONG r) with
            | None => upd_slot this i (set_type PROP_DELETED) ;;; ret 0
            | Some j => get_flags fuel' p j
            end
        | _, _ => fault
        end
      else ret (flags prop)
  end.

(** [alloc_prop]: the result is the index of the new slot, [None] for NULL.
    [buf_size] is doubled while the argument of [heap_realloc] is evaluated,
    before the outcome of the request is known; the byte count is taken not
    to wrap.  The new slot is written at [props + prop_cnt], which must lie
    inside the block. *)
Definition alloc_prop (this : ptr) (nm : option wstring) (ty : prop_type_t) (fl : Z)
  : M (option nat) :=
  o <- obj this ;;
  grown <- (if buf_size o =? prop_cnt o then
              upd_obj this (fun o => set_buf_size o (as_DWORD (Z.shiftl (buf_size o) 1))) ;;;
              tmp <- heap_alloc ;;
              if tmp : bool
              then upd_obj this (fun o => set_props_cap o (buf_size o)) ;;; ret true
              else ret false
            else ret true) ;;
  if grown : bool then
    o <- obj this ;;
    if props_cap o <=? prop_cnt o then fault
    else
      copy <- heap_strdupW nm ;;
      upd_obj this (fun o => set_props o (props o ++
         [ {| name := copy; type := ty; flags := fl; u := u_undef |} ])) ;;;
      ret (match copy with Some _ => Some (length (props o)) | None => None end)
  else ret None.

Definition alloc_protref (this : ptr) (nm : option wstring) (r : Z) : M (option nat) :=
  prop <- alloc_prop this nm PROP_PROTREF 0 ;;
  match prop with
  | None => ret None
  | Some i => upd_slot this i (set_u (u_ref r)) ;;; ret (Some i)
  end.

(** The linear scan of [find_prop_name] from slot [i] on. *)
Fixpoint find_prop_name_scan (ps : list dispex_prop_t) (nm : option wstring) (i : nat)
  : result (option nat) :=
  match ps with
  | [] => Ret None
  | prop :: rest =>
      match name prop with
      | None => find_prop_name_scan rest nm (S i)
      | Some _ =>
          match strcmpW_ptr (name prop) nm with
          | Ret r => if r =? 0 then Ret (Some i) else find_prop_name_scan rest nm (S i)
          | Fault => Fault
          | Timeout => Timeout
          end
      end
  end.

(** [find_prop_name]: the [HRESULT] and the slot left in [*ret]. *)
Definition find_prop_name (this : ptr) (nm : option wstring) : M (HRESULT * option nat) :=
  o <- obj this ;;
  found <- lift (find_prop_name_scan (props o) nm 0) ;;
  match found with
  | Some i => ret (S_OK, Some i)
  | None =>
      builtin <- lift (find_builtin_prop (builtin_info o) nm) ;;
      match builtin with
      | Some b =>
          prop <- alloc_prop this nm PROP_BUILTIN (b_flags b) ;;
          match prop with
          | None => ret (E_OUTOFMEMORY, None)
          | Some i => upd_slot this i (set_u (u_p b)) ;;; ret (S_OK, Some i)
          end
      | None => ret (S_OK, None)
      end
  end.

(** ** The prototype resolver *)

Fixpoint find_prop_name_prot (fuel : nat) (this : ptr) (nm : option wstring) (alloc : bool)
  : M (HRESULT * option nat) :=
  match fuel with
  | O => timeout
  | S fuel' =>
      r <- find_prop_name this nm ;;
      if FAILED (fst r) then ret (fst r, None)
      else match snd r with
      | Some i => ret (S_OK, Some i)
      | None =>
          o <- obj this ;;
          inherited <-
            match prototype o with
            | Some p =>
                r' <- find_prop_name_prot fuel' p nm false ;;
                if FAILED (fst r') then ret (Some (fst r', None))
                else match snd r' with
                     | Some j =>
                         parent <- slot p j ;;
                         prop <- alloc_protref this (name parent) (as_DWORD (Z.of_nat j)) ;;
                         match prop with
                         | None => ret (Some (E_OUTOFMEMORY, None))
                         | Some i => ret (Some (S_OK, Some i))
                         end
                     | None => ret None
                     end
            | None => ret None
            end ;;
          match inherited with
          | Some res => ret res
          | None =>
              if alloc then
                prop <- alloc_prop this nm PROP_VARIANT PROPF_ENUM ;;
                match prop with
                | None => ret (E_OUTOFMEMORY, None)
                | Some i => upd_slot this i (set_u (u_var VT_EMPTY)) ;;; ret (S_OK, Some i)
                end
              else ret (S_OK, None)
          end
      end
  end.

(** [fill_protrefs]: the loop over the prototype's slots from [j] on; [n]
    bounds the number of iterations, [None] is a completed loop. *)
Fixpoint fill_protrefs_loop (n : nat) (this p : ptr) (j : nat) : M (option HRESULT) :=
  po <- obj p ;;
  if prop_cnt po <=? Z.of_nat j then ret None
  else match n with
       | O => timeout
       | S n' =>
           iter <- slot p j ;;
           r <- find_prop_name this (name iter) ;;
           if FAILED (fst r) then ret (Some (fst r))
           else match snd r with
                | Some _ => fill_protrefs_loop n' this p (S j)
                | None =>
                    prop <- alloc_protref this (name iter) (as_DWORD (Z.of_nat j)) ;;
                    match prop with
                    | None => ret (Some E_OUTOFMEMORY)
                    | Some _ => fill_protrefs_loop n' this p (S j)
                    end
                end
       end.

Fixpoint fill_protrefs (fuel : nat) (this : ptr) : M HRESULT :=
  match fuel with
  | O => timeout
  | S fuel' =>
      o <- obj this ;;
      match prototype o with
      | None => ret S_OK
      | Some p =>
          fill_protrefs fuel' p ;;;
          po <- obj p ;;
          r <- fill_protrefs_loop (length (props po)) this p 0 ;;
          match r with
          | Some hres => ret hres
          | None => ret S_OK
          end
      end
  end.

(** ** Values and reference counts *)

Definition DispatchEx_AddRef (this : ptr) : M Z :=
  upd_obj this (fun o => set_ref o (as_LONG (ref o + 1))) ;;;
  o <- obj this ;;
  ret (ref o).

(** Modelled from the spec: [VariantClear] of the Windows API, which is not
    under src/: the payload is released (an object reference gives up its
    count through [release]) and the variant becomes empty. *)
Definition VariantClear (release : ptr -> M Z) (v : VARIANT) : M unit :=
  match v with
  | VT_DISPATCH p => release p ;;; ret tt
  | _ => ret tt
  end.

(** [VariantClear (&prop->u.var)] on slot [i] of [this]. *)
Definition VariantClear_slot (release : ptr -> M Z) (this : ptr) (i : nat) : M unit :=
  prop <- slot this i ;;
  match u prop with
  | u_var v => VariantClear release v ;;; upd_slot this i (set_u (u_var VT_EMPTY))
  | _ => fault
  end.

(** Modelled from the spec: [VariantCopy] of the Windows API, which is not
    under src/: the destination is cleared, then receives a copy of the
    source; the copy of a string is allocated, the copy of an object
    reference takes a count.  [None] is a NULL destination. *)
Definition VariantCopy (release : ptr -> M Z) (dest : option VARIANT) (src : VARIANT)
  : M (HRESULT * option VARIANT) :=
  match dest with
  | None => fault
  | Some d =>
      VariantClear release d ;;;
      match src with
      | VT_BSTR s =>
          ok <- heap_alloc ;;
          if ok : bool then ret (S_OK, Some (VT_BSTR s))
          else ret (E_OUTOFMEMORY, Some VT_EMPTY)
      | VT_DISPATCH p => DispatchEx_AddRef p ;;; ret (S_OK, Some src)
      | _ => ret (S_OK, Some src)
      end
  end.

(** The loop of [DispatchEx_Release] over the slots from [i] on; [n] bounds
    the number of iterations. *)
Fixpoint release_props_loop (release : ptr -> M Z) (n : nat) (this : ptr) (i : nat) : M unit :=
  o <- obj this ;;
  if prop_cnt o <=? Z.of_nat i then ret tt
  else match n with
       | O => timeout
       | S n' =>
           prop <- slot this i ;;
           (if decide (type prop = PROP_VARIANT)
            then VariantClear_slot release this i
            else ret tt) ;;;
           prop' <- slot this i ;;
           emit (heap_free_name this (name prop')) ;;;
           release_props_loop release n' this (S i)
       end.

Fixpoint DispatchEx_Release (fuel : nat) (this : ptr) : M Z :=
  match fuel with
  | O => timeout
  | S fuel' =>
      upd_obj this (fun o => set_ref o (as_LONG (ref o - 1))) ;;;
      o <- obj this ;;
      (if ref o =? 0 then
         release_props_loop (DispatchEx_Release fuel') (length (props o)) this 0 ;;;
         emit (heap_free_props this) ;;;
         o' <- obj this ;;
         emit (script_release (ctx o')) ;;;
         match destructor (builtin_info o') with
         | Some d => destructor_hook d this
         | None => emit (heap_free_This this) ;;; free_obj this
         end
       else ret tt) ;;;
      ret (ref o)
  end.

(** ** The dispatch core *)

Fixpoint prop_get (fuel : nat) (this : ptr) (i : nat) (dp : DISPPARAMS)
    (retv : option VARIANT) : M (HRESULT * option VARIANT) :=
  match fuel with
  | O => timeout
  | S fuel' =>
      o <- obj this ;;
      prop <- slot this i ;;
      match type prop with
      | PROP_BUILTIN =>
          match u prop with
          | u_p b =>
              if negb (Z.land (b_flags b) PROPF_METHOD =? 0) then ret (E_NOTIMPL, retv)
              else match b_invoke b with
                   | Some f => builtin_invoke f this DISPATCH_PROPERTYGET dp retv
                   | None => fault
                   end
          | _ => fault
          end
      | PROP_PROTREF =>
          match prototype o, u prop with
          | Some p, u_ref r => prop_get fuel' p (Z.to_nat r) dp retv
          | _, _ => fault
          end
      | PROP_VARIANT =>
          match u prop with
          | u_var v => VariantCopy (DispatchEx_Release fuel') retv v
          | _ => fault
          end
      | PROP_DELETED => ret (E_FAIL, retv)
      end
  end.

(** The search of [prop_put] for the named argument [DISPID_PROPERTYPUT]:
    the value of [i] when the loop ends. *)
Fixpoint find_named_arg (ids : list DISPID) (id : DISPID) (i : nat) : nat :=
  match ids with
  | [] => i
  | x :: rest => if x =? id then i else find_named_arg rest id (S i)
  end.

(** The [switch] of [prop_put] on the kind of the slot; [Some hres] when
    [prop_put] returns [hres] from inside it. *)
Definition prop_put_switch (fuel : nat) (this : ptr) (i : nat) (prop : dispex_prop_t)
    (dp : DISPPARAMS) : M (option HRESULT) :=
  match type prop with
  | PROP_BUILTIN =>
      if Z.land (flags prop) PROPF_METHOD =? 0 then
        match u prop with
        | u_p b =>
            match b_invoke b with
            | Some f =>
                r <- builtin_invoke f this DISPATCH_PROPERTYPUT dp None ;;
                ret (Some (fst r))
            | None => fault
            end
        | _ => fault
        end
      else
        upd_slot this i (fun q => set_u (u_var VT_EMPTY)
                                    (set_flags PROPF_ENUM (set_type PROP_VARIANT q))) ;;;
        ret None
  | PROP_PROTREF =>
      upd_slot this i (fun q => set_u (u_var VT_EMPTY)
                                  (set_flags PROPF_ENUM (set_type PROP_VARIANT q))) ;;;
      ret None
  | PROP_VARIANT =>
      VariantClear_slot (DispatchEx_Release fuel) this i ;;; ret None
  | PROP_DELETED => ret (Some E_FAIL)
  end.

(** [prop_put] past the [switch]: the search for the value argument and the
    assignment. *)
Definition prop_put_assign (fuel : nat) (this : ptr) (i : nat) (dp : DISPPARAMS)
  : M HRESULT :=
  let k := find_named_arg (rgdispidNamedArgs dp) DISPID_PROPERTYPUT 0 in
  if (k =? length (rgdispidNamedArgs dp))%nat then ret DISP_E_PARAMNOTOPTIONAL
  else
    match rgvarg dp !! k with
    | None => fault
    | Some src =>
        prop <- slot this i ;;
        match u prop with
        | u_var d =>
            r <- VariantCopy (DispatchEx_Release fuel) (Some d) src ;;
            upd_slot this i (set_u (match snd r with
                                    | Some v => u_var v
                                    | None => u_undef
                                    end)) ;;;
            if FAILED (fst r) then ret (fst r)
            else
              o <- obj this ;;
              prop' <- slot this i ;;
              match on_put (builtin_info o) with
              | Some h => on_put_hook h this (name prop') ;;; ret S_OK
              | None => ret S_OK
              end
        | _ => fault
        end
    end.

Definition prop_put (fuel : nat) (this : ptr) (i : nat) (dp : DISPPARAMS) : M HRESULT :=
  prop <- slot this i ;;
  early <- prop_put_switch fuel this i prop dp ;;
  match early with
  | Some hres => ret hres
  | None => prop_put_assign fuel this i dp
  end.

(** ** The interface of the host object *)

(** [DispatchEx_GetDispID]: the [HRESULT] and the identifier stored in
    [*pid], if any. *)
Definition DispatchEx_GetDispID (fuel : nat) (this : ptr) (bstrName : option wstring)
    (grfdex : Z) : M (HRESULT * option DISPID) :=
  if negb (Z.land grfdex
             (Z.lnot (Z.lor fdexNameCaseSensitive (Z.lor fdexNameEnsure fdexNameImplicit)))
           =? 0)
  then ret (E_NOTIMPL, None)
  else
    r <- find_prop_name_prot fuel this bstrName
           (negb (Z.land grfdex fdexNameEnsure =? 0)) ;;
    if FAILED (fst r) then ret (fst r, None)
    else match snd r with
         | Some i => ret (S_OK, Some (prop_to_id i))
         | None => ret (DISP_E_UNKNOWNNAME, None)
         end.

(** [DispatchEx_InvokeEx]; [pvarRes] is [None] for a NULL result pointer. *)
Definition DispatchEx_InvokeEx (fuel : nat) (this : ptr) (id : DISPID) (wFlags : Z)
    (pdp : DISPPARAMS) (pvarRes : option VARIANT) : M (HRESULT * option VARIANT) :=
  let pvarRes := match pvarRes with Some _ => Some VT_EMPTY | None => None end in
  o <- obj this ;;
  match get_prop o id with
  | None => ret (DISP_E_MEMBERNOTFOUND, pvarRes)
  | Some i =>
      if (wFlags =? DISPATCH_METHOD) || (wFlags =? DISPATCH_CONSTRUCT) then
        invoke_prop_func this this i wFlags pdp pvarRes
      else if wFlags =? DISPATCH_PROPERTYGET then
        prop_get fuel this i pdp pvarRes
      else if wFlags =? DISPATCH_PROPERTYPUT then
        hres <- prop_put fuel this i pdp ;; ret (hres, pvarRes)
      else ret (E_INVALIDARG, pvarRes)
  end.

(** The scan of [DispatchEx_GetNextDispID] from slot [i] on; [n] bounds the
    number of iterations. *)
Fixpoint GetNextDispID_loop (fuel n : nat) (this : ptr) (i : nat) : M (HRESULT * DISPID) :=
  o <- obj this ;;
  if prop_cnt o <=? Z.of_nat i then ret (S_FALSE, DISPID_STARTENUM)
  else match n with
       | O => timeout
       | S n' =>
           iter <- slot this i ;;
           match name iter with
           | None => GetNextDispID_loop fuel n' this (S i)
           | Some _ =>
               fl <- get_flags fuel this i ;;
               if negb (Z.land fl PROPF_ENUM =? 0) then ret (S_OK, prop_to_id i)
               else GetNextDispID_loop fuel n' this (S i)
           end
       end.

(** [DispatchEx_GetNextDispID]: the [HRESULT] and the identifier stored in
    [*pid]; a failure of [fill_protrefs] leaves [*pid] as it was, here the
    cursor. *)
Definition DispatchEx_GetNextDispID (fuel : nat) (this : ptr) (grfdex : Z) (id : DISPID)
  : M (HRESULT * DISPID) :=
  hres <- (if id =? DISPID_STARTENUM then fill_protrefs fuel this else ret S_OK) ;;
  if FAILED hres then ret (hres, id)
  else if INT_MAX <? id + 1 then fault
  else
    o <- obj this ;;
    match get_prop o (id + 1) with
    | None => ret (S_FALSE, DISPID_STARTENUM)
    | Some i => GetNextDispID_loop fuel (length (props o)) this i
    end.

(** ** Construction *)

Definition jsdisp_set_prot_prop (dispex prototype0 : ptr) : M HRESULT :=
  prop <- slot dispex 1 ;;
  match name prop with
  | None => ret E_OUTOFMEMORY
  | Some _ =>
      upd_slot dispex 1 (fun q => set_u (u_var (VT_DISPATCH prototype0))
                                   (set_flags 0 (set_type PROP_VARIANT q))) ;;;
      ret S_OK
  end.

(** [init_dispex] on the zero-filled block at [dispex], which enters the
    store with the first fields written to it. *)
Definition init_dispex (fuel : nat) (dispex : ptr) (c : option nat)
    (info : builtin_info_t) (prototype0 : option ptr) : M HRESULT :=
  put_obj dispex {| ref := 1; buf_size := 4; props_cap := 0; props := [];
                    prototype := None; builtin_info := info; ctx := None |} ;;;
  granted <- heap_alloc ;;
  if negb granted then ret E_OUTOFMEMORY
  else
    match prototype0 with
    | Some p => DispatchEx_AddRef p ;;; ret tt
    | None => ret tt
    end ;;;
    prototypeW <- heap_strdupW (Some (wstr "prototype")) ;;
    upd_obj dispex (fun o =>
      {| ref := ref o; buf_size := 4; props_cap := 4;
         props :=
           [ {| name := None;
                type := match b_invoke (value_prop info) with
                        | Some _ => PROP_BUILTIN
                        | None => PROP_DELETED
                        end;
                flags := 0;
                u := match b_invoke (value_prop info) with
                     | Some _ => u_p (value_prop info)
                     | None => u_undef
                     end |};
             {| name := prototypeW; type := PROP_DELETED; flags := 0; u := u_undef |} ];
         prototype := prototype0; builtin_info := info; ctx := None |}) ;;;
    failed <-
      match prototype0 with
      | Some p =>
          hres <- jsdisp_set_prot_prop dispex p ;;
          if FAILED hres then DispatchEx_Release fuel dispex ;;; ret (Some hres)
          else ret None
      | None => ret None
      end ;;
    match failed with
    | Some hres => ret hres
    | None =>
        emit (script_addref c) ;;;
        upd_obj dispex (fun o => set_ctx o c) ;;;
        ret S_OK
    end.

Definition dispex_info : builtin_info_t :=
  {| value_prop := {| b_name := None; b_invoke := None; b_flags := 0 |};
     bi_props := []; destructor := None; on_put := None |}.

(** [heap_alloc_zero] for a host object: a granted request hands out the
    next address of the allocator; [None] is NULL. *)
Definition heap_alloc_zero : M (option ptr) :=
  granted <- heap_alloc ;;
  if granted : bool
  then fun st => Ret (Some (brk st), {| objs := objs st; brk := S (brk st);
                                        allocs := allocs st; log := log st |})
  else ret None.

(** [create_dispex]: the [HRESULT] and the object stored in [*dispex]. *)
Definition create_dispex (fuel : nat) (c : option nat) (info : option builtin_info_t)
    (prototype0 : option ptr) : M (HRESULT * option ptr) :=
  block <- heap_alloc_zero ;;
  match block with
  | None => ret (E_OUTOFMEMORY, None)
  | Some r =>
      hres <- init_dispex fuel r c (match info with Some b => b | None => dispex_info end)
                prototype0 ;;
      if FAILED hres then ret (hres, None) else ret (S_OK, Some r)
  end.

End Engine.

(** ** Notions used in the statements *)

(** The descriptor array is sorted by name, ascending, and no name is NULL. *)
Fixpoint names_ascending (props : list builtin_prop_t) : bool :=
  match props with
  | [] => true
  | d :: rest =>
      match b_name d, rest with
      | None, _ => false
      | Some _, [] => true
      | Some n, d' :: _ =>
          match b_name d' with
          | Some n' => (strcmpW n n' <? 0) && names_ascending rest
          | None => false
          end
      end
  end.

Definition name_lt (d d' : builtin_prop_t) : Prop :=
  exists n n', b_name d = Some n /\ b_name d' = Some n' /\ strcmpW n n' < 0.

(** The slot a [ProtoRef] points to is gone: its index is out of range or
    the slot is a tombstone. *)
Definition stale_ref (po : DispatchEx) (r : Z) : Prop :=
  prop_cnt po <= r \/
  exists parent, props po !! Z.to_nat r = Some parent /\ type parent = PROP_DELETED.

(** The kind transitions of a slot: none, to [Deleted], and the shadowing
    of a [Builtin] or [ProtoRef] slot by a [Value]. *)
Definition kind_step (k k' : prop_type_t) : Prop :=
  k' = k \/ (k <> PROP_DELETED /\ k' = PROP_DELETED) \/
  ((k = PROP_BUILTIN \/ k = PROP_PROTREF) /\ k' = PROP_VARIANT).

(** A slot keeps its name, its kind moves along [kind_step], and the flags
    of a [Value] slot or of a tombstone stay. *)
Definition slot_step (q q' : dispex_prop_t) : Prop :=
  name q' = name q /\ kind_step (type q) (type q') /\
  (type q = PROP_VARIANT \/ type q = PROP_DELETED -> flags q' = flags q).

(** Every slot of the table is still there, at its index. *)
Definition table_step (ps ps' : list dispex_prop_t) : Prop :=
  forall i q, ps !! i = Some q -> exists q', ps' !! i = Some q' /\ slot_step q q'.

(** What may happen to the objects at the addresses below [b]: a live
    object's table moves along [table_step] or the object is destroyed, and
    a freed address stays free. *)
Definition evolves_below (b : ptr) (st st' : state) : Prop :=
  forall p, (p < b)%nat ->
    match objs st !! p, objs st' !! p with
    | Some o, Some o' => table_step (props o) (props o')
    | Some _, None => True
    | None, Some _ => False
    | None, None => True
    end.

Definition evolves (st st' : state) : Prop :=
  (brk st <= brk st')%nat /\ evolves_below (brk st) st st'.

(** The collaborators respect the tables of the objects they are handed. *)
Definition host_evolves (H : Host) : Prop :=
  (forall f this fl dp retv st r st',
     builtin_invoke f this fl dp retv st = Ret (r, st') -> evolves st st') /\
  (forall h this nm st r st', on_put_hook h this nm st = Ret (r, st') -> evolves st st') /\
  (forall d this st r st', destructor_hook d this st = Ret (r, st') -> evolves st st') /\
  (forall this jsthis i fl dp retv st r st',
     invoke_prop_func this jsthis i fl dp retv st = Ret (r, st') -> evolves st st').

(** A computation that respects the objects below [b]. *)
Definition respects (b : ptr) {A} (m : M A) : Prop :=
  forall st a st', (b <= brk st)%nat -> m st = Ret (a, st') ->
                   (b <= brk st')%nat /\ evolves_below b st st'.

(** A slot that caches a built-in descriptor or an inherited member. *)
Definition cache_slot (q : dispex_prop_t) : Prop :=
  type q = PROP_BUILTIN \/ type q = PROP_PROTREF.

(** Every table keeps its slots and may grow at the end; on the objects
    outside [E] the new slots are cache slots. *)
Definition grows (E : ptr -> Prop) (st st' : state) : Prop :=
  forall p o, objs st !! p = Some o ->
    exists o' ext, objs st' !! p = Some o' /\ props o' = props o ++ ext /\
                   (~ E p -> Forall cache_slot ext).

(** Two objects that differ at most in their reference count. *)
Definition same_but_ref (o o' : DispatchEx) : Prop := set_ref o' 0 = set_ref o 0.

(** Two stores with the same objects, up to reference counts. *)
Definition refs_only (st st' : state) : Prop :=
  forall p, match objs st !! p, objs st' !! p with
            | Some o, Some o' => same_but_ref o o'
            | None, None => True
            | _, _ => False
            end.

(** Releasing the payload [v] does not bring any count to zero. *)
Definition release_keeps (st : state) (v : VARIANT) : Prop :=
  match v with
  | VT_DISPATCH q => exists oq, objs st !! q = Some oq /\ as_LONG (ref oq - 1) <> 0
  | _ => True
  end.

(** Copying [src] needs no resource that is refused: the allocation of a
    string copy is granted, an object reference points to a live object. *)
Definition copy_granted (st : state) (src : VARIANT) : Prop :=
  match src with
  | VT_BSTR _ => hd true (allocs st) = true
  | VT_DISPATCH p => is_Some (objs st !! p)
  | _ => True
  end.

(** The slot [prop_put] assigns to, once its switch has made it a [Value]:
    a [Value] slot keeps its flags, a shadowed slot becomes enumerable. *)
Definition normalized (prop : dispex_prop_t) : dispex_prop_t :=
  {| name := name prop; type := PROP_VARIANT;
     flags := if decide (type prop = PROP_VARIANT) then flags prop else PROPF_ENUM;
     u := u_var VT_EMPTY |}.

(** The slots [prop_put] turns into a [Value] itself: a [ProtoRef], a
    method-like [Builtin], and a [Value] whose old payload can be released
    without destroying an object. *)
Definition put_assigns (st : state) (prop : dispex_prop_t) : Prop :=
  match type prop with
  | PROP_PROTREF => True
  | PROP_BUILTIN => Z.land (flags prop) PROPF_METHOD <> 0
  | PROP_VARIANT => exists v, u prop = u_var v /\ release_keeps st v
  | PROP_DELETED => False
  end.

(** The store with slot [i] of [this] replaced by [q]. *)
Definition with_slot (st : state) (this : ptr) (o : DispatchEx) (i : nat)
    (q : dispex_prop_t) : state :=
  set_objs st (<[this := set_props o (<[i := q]> (props o))]> (objs st)).

(** A put that carries a value: the named argument [DISPID_PROPERTYPUT] is
    found at position [k], and the value is the argument at [k]. *)
Definition put_value (dp : DISPPARAMS) (src : VARIANT) : Prop :=
  let k := find_named_arg (rgdispidNamedArgs dp) DISPID_PROPERTYPUT 0 in
  (k < length (rgdispidNamedArgs dp))%nat /\ rgvarg dp !! k = Some src.

(** Slot [i] of [this] has become [q]; every other table is as it was. *)
Definition slot_becomes (this : ptr) (i : nat) (q : dispex_prop_t) (st st' : state) : Prop :=
  (exists o o', objs st !! this = Some o /\ objs st' !! this = Some o' /\
                props o' = <[i := q]> (props o)) /\
  forall p, p <> this -> props <$> (objs st' !! p) = props <$> (objs st !! p).

(** The object references a payload, a slot and a table hold. *)
Definition payload_hold (v : VARIANT) : list ptr :=
  match v with VT_DISPATCH q => [q] | _ => [] end.

Definition slot_holds (q : dispex_prop_t) : list ptr :=
  match type q, u q with
  | PROP_VARIANT, u_var v => payload_hold v
  | _, _ => []
  end.

Definition holds (ps : list dispex_prop_t) : list ptr := flat_map slot_holds ps.

(** One count of [q] given up. *)
Definition drop_ref (m : gmap ptr DispatchEx) (q : ptr) : gmap ptr DispatchEx :=
  alter (fun o => set_ref o (as_LONG (ref o - 1))) q m.

Definition drop_refs (qs : list ptr) (m : gmap ptr DispatchEx) : gmap ptr DispatchEx :=
  foldl drop_ref m qs.

(** Giving up the counts [qs] one after the other destroys nothing: each
    object is live, is not [this], and keeps a non-zero count. *)
Fixpoint can_drop (this : ptr) (qs : list ptr) (m : gmap ptr DispatchEx) : Prop :=
  match qs with
  | [] => True
  | q :: rest =>
      q <> this /\
      (exists oq, m !! q = Some oq /\ as_LONG (ref oq - 1) <> 0) /\
      can_drop this rest (drop_ref m q)
  end.

(** Every [Value] slot has a variant as its payload. *)
Definition payloads_ok (ps : list dispex_prop_t) : Prop :=
  Forall (fun q => type q = PROP_VARIANT -> exists v, u q = u_var v) ps.

(** A slot after [VariantClear]. *)
Definition cleared (q : dispex_prop_t) : dispex_prop_t :=
  if decide (type q = PROP_VARIANT) then set_u (u_var VT_EMPTY) q else q.

Definition free_names (this : ptr) (ps : list dispex_prop_t) : list event :=
  map (fun q => heap_free_name this (name q)) ps.

(** The calls a host makes on the engine. *)
Inductive call :=
| GetDispID (fuel : nat) (this : ptr) (bstrName : option wstring) (grfdex : Z)
| InvokeEx (fuel : nat) (this : ptr) (id : DISPID) (wFlags : Z) (pdp : DISPPARAMS)
    (pvarRes : option VARIANT)
| GetNextDispID (fuel : nat) (this : ptr) (grfdex : Z) (id : DISPID)
| AddRef (this : ptr)
| Release (fuel : nat) (this : ptr)
| create (fuel : nat) (c : option nat) (info : option builtin_info_t)
    (prototype0 : option ptr).

Definition run_call `{Host} (c : call) : M unit :=
  match c with
  | GetDispID fuel this bstrName grfdex =>
      DispatchEx_GetDispID fuel this bstrName grfdex ;;; ret tt
  | InvokeEx fuel this id wFlags pdp pvarRes =>
      DispatchEx_InvokeEx fuel this id wFlags pdp pvarRes ;;; ret tt
  | GetNextDispID fuel this grfdex id =>
      DispatchEx_GetNextDispID fuel this grfdex id ;;; ret tt
  | AddRef this => DispatchEx_AddRef this ;;; ret tt
  | Release fuel this => DispatchEx_Release fuel this ;;; ret tt
  | create fuel c info prototype0 => create_dispex fuel c info prototype0 ;;; ret tt
  end.

Fixpoint run_calls `{Host} (cs : list call) : M unit :=
  match cs with
  | [] => ret tt
  | c :: rest => run_call c ;;; run_calls rest
  end.

(** The reserved slot 1 of [this] carries no flag and is a [Value] slot or
    a tombstone, for as long as [this] lives. *)
Definition proto_slot_quiet (st : state) (this : ptr) : Prop :=
  (this < brk st)%nat /\
  forall o, objs st !! this = Some o ->
    exists q, props o !! 1%nat = Some q /\ flags q = 0 /\
              (type q = PROP_VARIANT \/ type q = PROP_DELETED).

(** ** Sample hosts, classes and stores *)

(** A host whose built-ins and hooks succeed without touching the store,
    and whose destructor frees the object. *)
Definition quiet_host : Host :=
  {| builtin_invoke := fun _ _ _ _ retv => ret (S_OK, retv);
     on_put_hook := fun _ _ _ => ret tt;
     destructor_hook := fun _ this => free_obj this;
     invoke_prop_func := fun _ _ _ _ _ retv => ret (E_FAIL, retv) |}.

Definition no_args : DISPPARAMS := {| rgvarg := []; rgdispidNamedArgs := [] |}.

Definition put_args (v : VARIANT) : DISPPARAMS :=
  {| rgvarg := [v]; rgdispidNamedArgs := [DISPID_PROPERTYPUT] |}.

Definition greet_prop : builtin_prop_t :=
  {| b_name := Some (wstr "greet"); b_invoke := Some 0%nat; b_flags := PROPF_METHOD |}.

Definition length_prop : builtin_prop_t :=
  {| b_name := Some (wstr "length"); b_invoke := Some 1%nat; b_flags := 0 |}.

Definition trim_prop : builtin_prop_t :=
  {| b_name := Some (wstr "trim"); b_invoke := Some 2%nat; b_flags := PROPF_METHOD |}.

(** A class with two methods and one accessor, sorted by name. *)
Definition greeter_info : builtin_info_t :=
  {| value_prop := {| b_name := None; b_invoke := None; b_flags := 0 |};
     bi_props := [greet_prop; length_prop; trim_prop];
     destructor := None; on_put := None |}.

Definition empty_state : state := {| objs := ∅; brk := 1%nat; allocs := []; log := [] |}.

(** The two reserved slots as [init_dispex] leaves them. *)
Definition reserved_slots (info : builtin_info_t) (prototype0 : option ptr)
  : list dispex_prop_t :=
  [ {| name := None;
       type := match b_invoke (value_prop info) with
               | Some _ => PROP_BUILTIN
               | None => PROP_DELETED
               end;
       flags := 0;
       u := match b_invoke (value_prop info) with
            | Some _ => u_p (value_prop info)
            | None => u_undef
            end |};
    {| name := Some (wstr "prototype");
       type := match prototype0 with Some _ => PROP_VARIANT | None => PROP_DELETED end;
       flags := 0;
       u := match prototype0 with
            | Some p => u_var (VT_DISPATCH p)
            | None => u_undef
            end |} ].

(** A host object with [count] holders, its reserved slots and the slots
    [own] appended since. *)
Definition sample_object (count : Z) (info : builtin_info_t) (prototype0 : option ptr)
    (own : list dispex_prop_t) : DispatchEx :=
  {| ref := count; buf_size := 4; props_cap := 4;
     props := reserved_slots info prototype0 ++ own;
     prototype := prototype0; builtin_info := info; ctx := None |}.

Definition own_value (nm : string) (v : VARIANT) : dispex_prop_t :=
  {| name := Some (wstr nm); type := PROP_VARIANT; flags := PROPF_ENUM; u := u_var v |}.

Definition sample_state (m : gmap ptr DispatchEx) (next : ptr) (bs : list bool) : state :=
  {| objs := m; brk := next; allocs := bs; log := [] |}.

(** One object of the default class with an own property [x = 5]. *)
Definition st_own_x : state :=
  sample_state {[ 1%nat := sample_object 1 dispex_info None [own_value "x" (VT_I4 5)] ]}
               2%nat [].

(** One object of the default class whose slot array is full. *)
Definition st_full (bs : list bool) : state :=
  sample_state {[ 1%nat := sample_object 1 dispex_info None
                             [own_value "x" (VT_I4 5); own_value "y" (VT_I4 6)] ]}
               2%nat bs.

(** A prototype of class [greeter_info] at 1, held by its creator and by
    its child of the default class at 2. *)
Definition st_pair : state :=
  sample_state {[ 1%nat := sample_object 2 greeter_info None [];
                  2%nat := sample_object 1 dispex_info (Some 1%nat) [] ]}
               3%nat [].

(** The same pair after the creator of the prototype has released it. *)
Definition st_pair_sole : state :=
  sample_state {[ 1%nat := sample_object 1 greeter_info None [];
                  2%nat := sample_object 1 dispex_info (Some 1%nat) [] ]}
               3%nat [].

(** A prototype held by its creator and by two children. *)
Definition st_family : state :=
  sample_state {[ 1%nat := sample_object 3 greeter_info None [];
                  2%nat := sample_object 1 dispex_info (Some 1%nat) [own_value "x" (VT_I4 7)];
                  3%nat := sample_object 1 dispex_info (Some 1%nat) [] ]}
               4%nat [].

(** A child whose slot 1 was assigned to: its prototype field names the
    prototype, its slot 1 holds a number. *)
Definition overwritten_child : DispatchEx :=
  {| ref := 1; buf_size := 4; props_cap := 4;
     props := [ {| name := None; type := PROP_DELETED; flags := 0; u := u_undef |};
                {| name := Some (wstr "prototype"); type := PROP_VARIANT; flags := 0;
                   u := u_var (VT_I4 5) |} ];
     prototype := Some 1%nat; builtin_info := dispex_info; ctx := None |}.

Definition st_overwritten : state :=
  sample_state {[ 1%nat := sample_object 1 greeter_info None [];
                  2%nat := overwritten_child ]}
               3%nat [].

(** The child has cached the inherited [x]; the prototype's slot for [x]
    has become a tombstone since. *)
Definition st_stale : state :=
  sample_state
    {[ 1%nat := sample_object 2 dispex_info None
                  [ {| name := Some (wstr "x"); type := PROP_DELETED; flags := PROPF_ENUM;
                       u := u_var VT_EMPTY |} ];
       2%nat := sample_object 1 dispex_info (Some 1%nat)
                  [ {| name := Some (wstr "x"); type := PROP_PROTREF; flags := 0;
                       u := u_ref 2 |} ] ]}
    3%nat [].

(** Prototype and child both define [x]. *)
Definition st_both_x : state :=
  sample_state {[ 1%nat := sample_object 2 dispex_info None [own_value "x" (VT_I4 5)];
                  2%nat := sample_object 1 dispex_info (Some 1%nat) [own_value "x" (VT_I4 7)] ]}
               3%nat [].

(** An object of class [greeter_info] that has materialized its accessor
    [length]. *)
Definition st_accessor : state :=
  sample_state {[ 1%nat := sample_object 1 greeter_info None
                             [ {| name := Some (wstr "length"); type := PROP_BUILTIN;
                                  flags := 0; u := u_p length_prop |} ] ]}
               2%nat [].

(** A child under construction, as [init_dispex] hands it to
    [jsdisp_set_prot_prop]. *)
Definition st_under_construction : state :=
  sample_state {[ 1%nat := sample_object 2 greeter_info None [];
                  2%nat := {| ref := 1; buf_size := 4; props_cap := 4;
                              props := reserved_slots dispex_info None;
                              prototype := Some 1%nat; builtin_info := dispex_info;
                              ctx := None |} ]}
               3%nat [].

(** ** Well-formed tables, classes and prototype chains *)

(** The bookkeeping of a slot table is sound: the block [props] points to
    holds [buf_size] slots, [prop_cnt] of them are in use, and doubling
    [buf_size] does not wrap. *)
Definition table_ok (o : DispatchEx) : Prop :=
  props_cap o = buf_size o /\ 0 < buf_size o <= 2 ^ 30 /\ prop_cnt o <= buf_size o.

(** A class whose descriptors all carry a name, and whose descriptor count
    leaves room for [min + max] in an [int]. *)
Definition class_ok (info : builtin_info_t) : Prop :=
  props_cnt info <= 2 ^ 30 /\ Forall (fun d => is_Some (b_name d)) (bi_props info).

(** [l] is the prototype chain of [this]: [this] first, then its prototype,
    up to the object that has none; every object of the chain is live and
    none occurs twice. *)
Inductive chain (st : state) : ptr -> list ptr -> Prop :=
| chain_root this o :
    objs st !! this = Some o -> prototype o = None -> chain st this [this]
| chain_step this o p l :
    objs st !! this = Some o -> prototype o = Some p -> this ∉ l ->
    chain st p l -> chain st this (this :: l).

(** The name [nm] is known neither to the table of [p] nor to its class. *)
Definition unknown_to (st : state) (nm : wstring) (p : ptr) : Prop :=
  exists o, objs st !! p = Some o /\
    (forall q, q ∈ props o -> name q <> Some nm) /\
    (forall d, d ∈ bi_props (builtin_info o) -> b_name d <> Some nm).

(** Every object of the chain [l] has a well-formed class. *)
Definition classes_ok (st : state) (l : list ptr) : Prop :=
  forall p o, p ∈ l -> objs st !! p = Some o -> class_ok (builtin_info o).

Definition tables_ok (st : state) (l : list ptr) : Prop :=
  forall p o, p ∈ l -> objs st !! p = Some o -> table_ok o.

(** The flag word of [DispatchEx_GetDispID] has no bit the engine does not
    know. *)
Definition grfdex_ok (grfdex : Z) : Prop :=
  Z.land grfdex (Z.lnot (Z.lor fdexNameCaseSensitive (Z.lor fdexNameEnsure fdexNameImplicit)))
  = 0.

(** The object [o] with the slot [q] appended by [alloc_prop]: a full
    table has been doubled first. *)
Definition appended (o : DispatchEx) (q : dispex_prop_t) : DispatchEx :=
  let size := if buf_size o =? prop_cnt o then 2 * buf_size o else buf_size o in
  {| ref := ref o; buf_size := size; props_cap := size; props := props o ++ [q];
     prototype := prototype o; builtin_info := builtin_info o; ctx := ctx o |}.

(** One count of [q] taken. *)
Definition take_ref (m : gmap ptr DispatchEx) (q : ptr) : gmap ptr DispatchEx :=
  alter (fun o => set_ref o (as_LONG (ref o + 1))) q m.

(** The object [init_dispex] builds for class [info] and prototype
    [prototype0]. *)
Definition fresh_object (c : option nat) (info : builtin_info_t) (prototype0 : option ptr)
  : DispatchEx :=
  {| ref := 1; buf_size := 4; props_cap := 4; props := reserved_slots info prototype0;
     prototype := prototype0; builtin_info := info; ctx := c |}.

(** The block of a host object before [init_dispex] has allocated its slot
    array. *)
Definition blank_object (info : builtin_info_t) : DispatchEx :=
  {| ref := 1; buf_size := 4; props_cap := 0; props := [];
     prototype := None; builtin_info := info; ctx := None |}.

(** The prototype a child is created with is a live object, if there is
    one. *)
Definition prototype_live (st : state) (prototype0 : option ptr) : Prop :=
  match prototype0 with
  | Some p => is_Some (objs st !! p)
  | None => True
  end.

(** The prototype a child is created with is live and has room for one
    more holder. *)
Definition prototype_holdable (st : state) (prototype0 : option ptr) : Prop :=
  match prototype0 with
  | Some p => exists op, objs st !! p = Some op /\ 0 < ref op < INT_MAX
  | None => True
  end.

(** The two reserved slots are where [init_dispex] puts them: slot 0 has
    no name, slot 1 has one. *)
Definition reserved_named (o : DispatchEx) : Prop :=
  exists q0 q1 rest, props o = q0 :: q1 :: rest /\ name q0 = None /\ is_Some (name q1).

(** [DispatchEx_GetIDsOfNames]: the [HRESULT] and the array [rgDispId],
    [None] for an entry that is not written. *)
Fixpoint DispatchEx_GetIDsOfNames (fuel : nat) (this : ptr) (rgszNames : list (option wstring))
  : M (HRESULT * list (option DISPID)) :=
  match rgszNames with
  | [] => ret (S_OK, [])
  | nm :: rest =>
      r <- DispatchEx_GetDispID fuel this nm 0 ;;
      if FAILED (fst r) then ret (fst r, snd r :: ((fun _ => None) <$> rest))
      else
        r' <- DispatchEx_GetIDsOfNames fuel this rest ;;
        ret (fst r', snd r :: snd r')
  end.

(** ** The call path *)

Definition DISPID_THIS : DISPID := -613.
Definition E_NOINTERFACE : HRESULT := as_LONG 0x80004002.

(** The interface identifiers [DispatchEx_QueryInterface] tells apart. *)
Inductive IID :=
| IID_IUnknown
| IID_IDispatch
| IID_IDispatchEx
| IID_IDispatchJS
| IID_other (n : nat).

(** An [IDispatch] pointer handed to [disp_call]: a host object of the
    engine, or an object of another implementation, which does not answer
    to [IID_IDispatchJS]. *)
Inductive IDispatch :=
| jsdisp_object (p : ptr)
| foreign_object (n : nat).

(** The objects of other implementations, as far as [disp_call] uses them:
    whether [QueryInterface] gives an [IDispatchEx], and their [InvokeEx]
    and [Invoke]. *)
Class Foreign := {
  foreign_IDispatchEx : nat -> bool;
  foreign_InvokeEx : nat -> DISPID -> Z -> DISPPARAMS -> option VARIANT ->
                     M (HRESULT * option VARIANT);
  foreign_Release : nat -> M unit;
  foreign_Invoke : nat -> DISPID -> Z -> DISPPARAMS -> option VARIANT ->
                   M (HRESULT * option VARIANT)
}.

Module CallPath.
Section CallPath.
Context `{Host} `{Foreign}.

(** [set_this]: the [HRESULT] and the parameters left in [*dp]; [None] when
    the structure is left half-written, which no caller reads.  The frees
    of the argument arrays do not show in the store. *)
Definition set_this (olddp : DISPPARAMS) (jsthis : ptr) : M (HRESULT * option DISPPARAMS) :=
  if existsb (Z.eqb DISPID_THIS) (rgdispidNamedArgs olddp) then ret (S_OK, Some olddp)
  else
    args <- heap_alloc ;;
    if negb args then ret (E_OUTOFMEMORY, None)
    else
      match rgdispidNamedArgs olddp with
      | [] =>
          ret (S_OK, Some {| rgvarg := VT_DISPATCH jsthis :: rgvarg olddp;
                             rgdispidNamedArgs := [DISPID_THIS] |})
      | old =>
          ids <- heap_alloc ;;
          if negb ids then ret (E_OUTOFMEMORY, None)
          else ret (S_OK, Some {| rgvarg := VT_DISPATCH jsthis :: rgvarg olddp;
                                  rgdispidNamedArgs := DISPID_THIS :: old |})
      end.

Definition DispatchEx_QueryInterface (this : ptr) (riid : IID) : M (HRESULT * option ptr) :=
  match riid with
  | IID_other _ => ret (E_NOINTERFACE, None)
  | _ => DispatchEx_AddRef this ;;; ret (S_OK, Some this)
  end.

(** [iface_to_jsdisp]: the object with one count more, or NULL. *)
Definition iface_to_jsdisp (iface : IDispatch) : M (option ptr) :=
  match iface with
  | jsdisp_object p =>
      r <- DispatchEx_QueryInterface p IID_IDispatchJS ;;
      if FAILED (fst r) then ret None else ret (snd r)
  | foreign_object _ => ret None
  end.

Local Abbreviation invoker :=
  (ptr -> ptr -> nat -> Z -> DISPPARAMS -> option VARIANT -> M (HRESULT * option VARIANT)).

(** [jsdisp_call] and [disp_call] over the [invoke_prop_func] they call. *)
Definition jsdisp_call_with (invoke : invoker) (disp : ptr) (id : DISPID) (fl : Z)
    (dp : DISPPARAMS) (retv : option VARIANT) : M (HRESULT * option VARIANT) :=
  let retv := match retv with Some _ => Some VT_EMPTY | None => None end in
  o <- obj disp ;;
  match get_prop o id with
  | None => ret (DISP_E_MEMBERNOTFOUND, retv)
  | Some i => invoke disp disp i fl dp retv
  end.

Definition disp_call_with (invoke : invoker) (release : ptr -> M Z) (disp : IDispatch)
    (id : DISPID) (fl : Z) (dp : DISPPARAMS) (retv : option VARIANT)
  : M (HRESULT * option VARIANT) :=
  jsdisp <- iface_to_jsdisp disp ;;
  match jsdisp with
  | Some p =>
      r <- jsdisp_call_with invoke p id fl dp retv ;;
      release p ;;;
      ret r
  | None =>
      let retv := match retv with Some _ => Some VT_EMPTY | None => None end in
      match disp with
      | foreign_object n =>
          if foreign_IDispatchEx n then
            r <- foreign_InvokeEx n id fl dp retv ;;
            foreign_Release n ;;;
            ret r
          else foreign_Invoke n id fl dp retv
      | jsdisp_object _ => fault
      end
  end.

(** [invoke_prop_func This jsthis prop], with [prop = This->props + i]. *)
Fixpoint invoke_prop_func (fuel : nat) (this jsthis : ptr) (i : nat) (fl : Z)
    (dp : DISPPARAMS) (retv : option VARIANT) : M (HRESULT * option VARIANT) :=
  match fuel with
  | O => timeout
  | S fuel' =>
      prop <- slot this i ;;
      match type prop with
      | PROP_BUILTIN =>
          if (fl =? DISPATCH_CONSTRUCT) && negb (Z.land (flags prop) DISPATCH_METHOD =? 0)
          then ret (E_INVALIDARG, retv)
          else match u prop with
               | u_p b =>
                   match b_invoke b with
                   | Some f => builtin_invoke f jsthis fl dp retv
                   | None => fault
                   end
               | _ => fault
               end
      | PROP_PROTREF =>
          o <- obj this ;;
          match prototype o, u prop with
          | Some p, u_ref r => invoke_prop_func fuel' p jsthis (Z.to_nat r) fl dp retv
          | _, _ => fault
          end
      | PROP_VARIANT =>
          match u prop with
          | u_var (VT_DISPATCH d) =>
              r <- set_this dp jsthis ;;
              if FAILED (fst r) then ret (fst r, retv)
              else match snd r with
                   | Some new_dp =>
                       disp_call_with (invoke_prop_func fuel') (DispatchEx_Release fuel')
                         (jsdisp_object d) DISPID_VALUE fl new_dp retv
                   | None => fault
                   end
          | u_var _ => ret (E_FAIL, retv)
          | _ => fault
          end
      | PROP_DELETED => ret (E_FAIL, retv)
      end
  end.

Definition jsdisp_call (fuel : nat) : ptr -> DISPID -> Z -> DISPPARAMS -> option VARIANT ->
                                      M (HRESULT * option VARIANT) :=
  jsdisp_call_with (invoke_prop_func fuel).

Definition disp_call (fuel : nat) : IDispatch -> DISPID -> Z -> DISPPARAMS ->
                                    option VARIANT -> M (HRESULT * option VARIANT) :=
  disp_call_with (invoke_prop_func fuel) (DispatchEx_Release fuel).

End CallPath.
End CallPath.

(** The host whose call path is the engine's own. *)
Definition engine_host (H : Host) (F : Foreign) (fuel : nat) : Host :=
  {| builtin_invoke := builtin_invoke;
     on_put_hook := on_put_hook;
     destructor_hook := destructor_hook;
     invoke_prop_func := CallPath.invoke_prop_func fuel |}.

(** The objects of other implementations respect the tables of the
    engine's objects. *)
Definition foreign_evolves (F : Foreign) : Prop :=
  (forall n id fl dp retv st r st',
     foreign_InvokeEx n id fl dp retv st = Ret (r, st') -> evolves st st') /\
  (forall n st r st', foreign_Release n st = Ret (r, st') -> evolves st st') /\
  (forall n id fl dp retv st r st',
     foreign_Invoke n id fl dp retv st = Ret (r, st') -> evolves st st').

(** ** Samples of the call path *)

(** Foreign objects that only speak [IDispatch] and refuse every call. *)
Definition quiet_foreign : Foreign :=
  {| foreign_IDispatchEx := fun _ => false;
     foreign_InvokeEx := fun _ _ _ _ retv => ret (E_FAIL, retv);
     foreign_Release := fun _ => ret tt;
     foreign_Invoke := fun _ _ _ _ retv => ret (E_FAIL, retv) |}.


(** The pair after the child has looked up [greet]: the prototype has
    materialized the built-in, the child refers to it. *)
Definition st_inherits_greet : state :=
  sample_state
    {[ 1%nat := sample_object 2 greeter_info None
                  [ {| name := Some (wstr "greet"); type := PROP_BUILTIN;
                       flags := PROPF_METHOD; u := u_p greet_prop |} ];
       2%nat := sample_object 1 dispex_info (Some 1%nat)
                  [ {| name := Some (wstr "greet"); type := PROP_PROTREF; flags := 0;
                       u := u_ref 2 |} ] ]}
    3%nat [].

(** * The DIB driver: helpers of the graphics operations

    The first half of [src/dlls/gdi32/dibdrv/graphics.c].  The helpers that
    compute are embedded; the device context and the glyph rasterizer
    behind them are parameters. *)

Module Dib.

(** A value stored in a [BYTE]. *)
Definition as_BYTE (z : Z) : Z := z mod 2 ^ 8.

(** A value stored in a 16-bit unsigned object ([WORD]). *)
Definition as_WORD (z : Z) : Z := z mod 2 ^ 16.

Record POINT := { x : Z; y : Z }.

Record RECT := { left : Z; top : Z; right : Z; bottom : Z }.

Definition LAYOUT_RTL : Z := 0x1.

(** [get_device_rect]; [layout] is what [GetLayout (hdc)] returns, [LPtoDP]
    what [LPtoDP (hdc, _, 2)] makes of the two corners of the rectangle.
    The decrement of a [LONG] that holds the least value is an overflow. *)
Definition get_device_rect (layout : Z) (LPtoDP : RECT -> RECT)
    (left0 top0 right0 bottom0 : Z) (rtl_correction : bool) : result RECT :=
  let rect := {| left := left0; top := top0; right := right0; bottom := bottom0 |} in
  match
    (if rtl_correction && negb (Z.land layout LAYOUT_RTL =? 0) then
       if (left rect - 1 <? - 2 ^ 31) || (right rect - 1 <? - 2 ^ 31) then Fault
       else Ret {| left := left rect - 1; top := top rect;
                   right := right rect - 1; bottom := bottom rect |}
     else Ret rect)
  with
  | Ret rect =>
      let rect := LPtoDP rect in
      let rect := if right rect <? left rect
                  then {| left := right rect; top := top rect;
                          right := left rect; bottom := bottom rect |}
                  else rect in
      let rect := if bottom rect <? top rect
                  then {| left := left rect; top := bottom rect;
                          right := right rect; bottom := top rect |}
                  else rect in
      Ret rect
  | Fault => Fault
  | Timeout => Timeout
  end.

(** Intensities of the 17 glyph levels when drawn with a text component of
    0xff on a black background. *)
Definition ramp : list Z :=
  [ 0;    0x4d; 0x68; 0x7c;
    0x8c; 0x9a; 0xa7; 0xb2;
    0xbd; 0xc7; 0xd0; 0xd9;
    0xe1; 0xe9; 0xf0; 0xf8;
    0xff ].

(** [ramp[i]] for an [int] index: a read outside the array is undefined. *)
Definition ramp_at (i : Z) : result Z :=
  if i <? 0 then Fault
  else match ramp !! Z.to_nat i with
       | Some v => Ret v
       | None => Fault
       end.

(** [get_range]: the values stored in [*min_comp] and [*max_comp].  The
    products are formed in [DWORD] arithmetic, the results are cut to a
    [BYTE]. *)
Definition get_range (aa : Z) (text_comp : Z) : result (Z * Z) :=
  match ramp_at aa, ramp_at (16 - aa) with
  | Ret lo, Ret hi =>
      Ret (as_BYTE (as_DWORD (lo * text_comp) / 0xff),
           as_BYTE (as_DWORD (hi + as_DWORD ((0xff - hi) * text_comp) / 0xff)))
  | _, _ => Fault
  end.

(** Modelled from the spec: the colour macros of the Windows headers, which
    are not under src/: the low three bytes of a [COLORREF] are its red,
    green and blue components. *)
Definition GetRValue (rgb : Z) : Z := as_BYTE rgb.
Definition GetGValue (rgb : Z) : Z := as_BYTE (Z.shiftr (as_WORD rgb) 8).
Definition GetBValue (rgb : Z) : Z := as_BYTE (Z.shiftr rgb 16).

(** Modelled from the spec: [struct intensity_range] of [dibdrv.h], which is
    not under src/; the fields are the six [get_aa_ranges] writes. *)
Record intensity_range := {
  r_min : Z; r_max : Z;
  g_min : Z; g_max : Z;
  b_min : Z; b_max : Z
}.

(** The loop of [get_aa_ranges] from level [i] on, [n] levels to go. *)
Fixpoint get_aa_ranges_loop (n : nat) (i : Z) (col : Z) : result (list intensity_range) :=
  match n with
  | O => Ret []
  | S n' =>
      match get_range i (GetRValue col), get_range i (GetGValue col),
            get_range i (GetBValue col) with
      | Ret r, Ret g, Ret b =>
          match get_aa_ranges_loop n' (i + 1) col with
          | Ret rest =>
              Ret ({| r_min := fst r; r_max := snd r; g_min := fst g; g_max := snd g;
                      b_min := fst b; b_max := snd b |} :: rest)
          | Fault => Fault
          | Timeout => Timeout
          end
      | _, _, _ => Fault
      end
  end.

(** [get_aa_ranges]: the array [intensities[17]]. *)
Definition get_aa_ranges (col : Z) : result (list intensity_range) :=
  get_aa_ranges_loop 17 0 col.

(** [get_rop2_from_rop] on an [INT]; a right shift of a negative value
    keeps the sign. *)
Definition get_rop2_from_rop (rop : Z) : Z :=
  Z.lor (Z.land (Z.shiftr rop 18) 0x0c) (Z.land (Z.shiftr rop 16) 0x03) + 1.

End Dib.

(** ** Notions used in the statements about the ranges *)

(** The check of a property of [get_range] on every glyph level and every
    component value. *)
Definition levels : list Z := seqZ 0 17.
Definition components : list Z := seqZ 0 256.

(** The bounds of a range, its ends and its narrowing from a level to the
    next, as checks. *)
Definition brackets (aa t : Z) : bool :=
  match Dib.get_range aa t with
  | Ret (lo, hi) =>
      (0 <=? lo) && (lo <=? t) && (t <=? hi) && (hi <=? 255) &&
      (if aa =? 0 then (lo =? 0) && (hi =? 255) else true) &&
      (if aa =? 16 then (lo =? t) && (hi =? t) else true)
  | _ => false
  end.

Definition narrows (aa t : Z) : bool :=
  match Dib.get_range aa t, Dib.get_range (aa + 1) t with
  | Ret (lo, hi), Ret (lo', hi') => (lo <=? lo') && (hi' <=? hi)
  | Ret _, _ => 16 <=? aa
  | _, _ => false
  end.

(** What [get_range] makes of a component [t] at a level: a range of bytes
    around [t]. *)
Definition around (lo hi t : Z) : Prop := 0 <= lo <= t /\ t <= hi <= 255.

(** ** The glyph bitmap *)

Module Glyph.

Definition masks : list Z := [0x80; 0x40; 0x20; 0x10; 0x08; 0x04; 0x02; 0x01].
Definition padding : list Z := [0; 3; 2; 1].

Definition GDI_ERROR : Z := 0xFFFFFFFF.
Definition ERROR_SUCCESS : Z := 0.
Definition ERROR_OUTOFMEMORY : Z := 14.
Definition ERROR_NOT_FOUND : Z := 1168.
Definition GGO_BITMAP : Z := 1.
Definition GGO_GLYPH_INDEX : Z := 0x0080.

(** Modelled from the spec: [GLYPHMETRICS] of the Windows headers, which
    are not under src/; the fields are the ones the code reads. *)
Record GLYPHMETRICS := {
  gmBlackBoxX : Z;
  gmBlackBoxY : Z;
  gmptGlyphOrigin : Dib.POINT;
  gmCellIncX : Z;
  gmCellIncY : Z
}.

(** A byte of the block [buf], read and written through a pointer: an
    access outside the block is undefined. *)
Definition peek (buf : list Z) (i : Z) : result Z :=
  if i <? 0 then Fault
  else match buf !! Z.to_nat i with
       | Some v => Ret v
       | None => Fault
       end.

Definition poke (buf : list Z) (i : Z) (v : Z) : result (list Z) :=
  if (i <? 0) || (Z.of_nat (length buf) <=? i) then Fault
  else Ret (<[Z.to_nat i := v]> buf).

(** [memset (buf + start, 0, n)]. *)
Fixpoint memset_zero (n : nat) (start : Z) (buf : list Z) : result (list Z) :=
  match n with
  | O => Ret buf
  | S n' =>
      match poke buf start 0 with
      | Ret buf' => memset_zero n' (start + 1) buf'
      | Fault => Fault
      | Timeout => Timeout
      end
  end.

(** The product of two [int]s: an overflow is undefined. *)
Definition int_mul (a b : Z) : result Z :=
  if (a * b <? - 2 ^ 31) || (INT_MAX <? a * b) then Fault else Ret (a * b).

(** [buf + off]: a pointer into the block or one past its end; forming any
    other pointer is undefined. *)
Definition ptr_add (buf : list Z) (off : Z) : result Z :=
  if (off <? 0) || (Z.of_nat (length buf) <? off) then Fault else Ret off.

Definition and_then {A B : Type} (r : result A) (k : A -> result B) : result B :=
  match r with
  | Ret a => k a
  | Fault => Fault
  | Timeout => Timeout
  end.

(** The inner loop of the conversion: the columns [n - 1] down to 0 of the
    row whose bits start at [src] and whose levels start at [dst]. *)
Fixpoint expand_row (n : nat) (src dst : Z) (buf : list Z) : result (list Z) :=
  match n with
  | O => Ret buf
  | S n' =>
      let x := Z.of_nat n' in
      match peek buf (src + x / 8), peek masks (x mod 8) with
      | Ret byte, Ret mask =>
          match poke buf (dst + x) (if Z.land byte mask =? 0 then 0 else 0x10) with
          | Ret buf' => expand_row n' src dst buf'
          | Fault => Fault
          | Timeout => Timeout
          end
      | _, _ => Fault
      end
  end.

Section GetGlyphBitmap.

(** The rasterizer: the result of [GetGlyphOutlineW] for a glyph, a format
    and a buffer size, the metrics it stores, and the block of that size as
    it leaves it.  [get_dib_stride] of [dibdrv.h], whose result is an [int],
    and whether the heap grants a block of a size. *)
Variable GetGlyphOutlineW : Z -> Z -> Z -> Z * GLYPHMETRICS * list Z.
Variable get_dib_stride : Z -> Z -> Z.
Variable HeapAlloc : Z -> bool.

(** The outer loop of the conversion: the rows [n - 1] down to 0.  The row
    offsets [y * get_dib_stride (width, 1)] and [y * stride] are products of
    two [int]s, and [src] and [dst] are pointers formed from them.  The
    column counter is an [int] that starts at [width - 1]. *)
Fixpoint expand_rows (n : nat) (width pad stride : Z) (buf : list Z) : result (list Z) :=
  match n with
  | O => Ret buf
  | S n' =>
      let y := Z.of_nat n' in
      and_then (int_mul y (as_LONG (get_dib_stride width 1))) (fun src_off =>
      and_then (ptr_add buf src_off) (fun src =>
      and_then (int_mul y stride) (fun dst_off =>
      and_then (ptr_add buf dst_off) (fun dst =>
      and_then (if pad =? 0 then Ret buf
                else memset_zero (Z.to_nat pad) (dst + width) buf) (fun buf1 =>
      and_then (expand_row (Z.to_nat (as_LONG (width - 1) + 1)) src dst buf1) (fun buf2 =>
      expand_rows n' width pad stride buf2))))))
  end.

(** The loop that clears the padding of an anti-aliased bitmap: the rows
    from [y] on, [n] rows to go, [dst] the start of row [y].  The row
    counter is an [int], and [dst] moves on by [stride] after each row. *)
Fixpoint clear_padding (n : nat) (y dst : Z) (width pad stride : Z) (buf : list Z)
  : result (list Z) :=
  match n with
  | O => Ret buf
  | S n' =>
      and_then (memset_zero (Z.to_nat pad) (dst + width) buf) (fun buf' =>
      if INT_MAX <? y + 1 then Fault
      else and_then (ptr_add buf' (dst + stride)) (fun dst' =>
           clear_padding n' (y + 1) dst' width pad stride buf'))
  end.

(** The first of the glyphs [indices] the rasterizer knows. *)
Fixpoint first_glyph (indices : list Z) (ggo_flags : Z) : option (Z * Z * GLYPHMETRICS) :=
  match indices with
  | [] => None
  | index :: rest =>
      let '(ret, metrics, _) := GetGlyphOutlineW index ggo_flags 0 in
      if ret =? GDI_ERROR then first_glyph rest ggo_flags
      else Some (index, ret, metrics)
  end.

(** [get_glyph_bitmap]: the error code, the metrics and [image->ptr], [None]
    for NULL. *)
Definition get_glyph_bitmap (index aa_flags : Z)
  : result (Z * option GLYPHMETRICS * option (list Z)) :=
  let ggo_flags := Z.lor aa_flags GGO_GLYPH_INDEX in
  match first_glyph [index; 0; 0x20] ggo_flags with
  | None => Ret (ERROR_NOT_FOUND, None, None)
  | Some (index, ret, metrics) =>
      if ret =? 0 then Ret (ERROR_SUCCESS, Some metrics, None)
      else
        match peek padding (gmBlackBoxX metrics mod 4) with
        | Ret pad =>
            let stride := as_LONG (get_dib_stride (gmBlackBoxX metrics) 8) in
            let size := as_DWORD (gmBlackBoxY metrics * stride) in
            if negb (HeapAlloc size) then Ret (ERROR_OUTOFMEMORY, Some metrics, None)
            else
              let '(ret, metrics, buf) := GetGlyphOutlineW index ggo_flags size in
              if ret =? GDI_ERROR then Ret (ERROR_NOT_FOUND, Some metrics, None)
              else
                match
                  (if aa_flags =? GGO_BITMAP then
                     expand_rows (Z.to_nat (as_LONG (gmBlackBoxY metrics - 1) + 1))
                       (gmBlackBoxX metrics) pad stride buf
                   else if pad =? 0 then Ret buf
                   else clear_padding (Z.to_nat (gmBlackBoxY metrics)) 0 0
                          (gmBlackBoxX metrics) pad stride buf)
                with
                | Ret bits => Ret (ERROR_SUCCESS, Some metrics, Some bits)
                | Fault => Fault
                | Timeout => Timeout
                end
        | _ => Fault
        end
  end.

End GetGlyphBitmap.

End Glyph.

(** The level of a pixel: 16 when its bit is set, the leftmost pixel of a
    byte being its most significant bit. *)
Definition pixel_level (byte x : Z) : Z := if Z.testbit byte (7 - x mod 8) then 0x10 else 0.

(** A glyph of three by two pixels: a rasterizer that knows glyph 65 only,
    the stride of a bitmap row (a multiple of four bytes), and the bitmap
    of the glyph, one bit a pixel. *)
Definition sample_metrics : Glyph.GLYPHMETRICS :=
  {| Glyph.gmBlackBoxX := 3; Glyph.gmBlackBoxY := 2;
     Glyph.gmptGlyphOrigin := {| Dib.x := 0; Dib.y := 2 |};
     Glyph.gmCellIncX := 4; Glyph.gmCellIncY := 0 |}.

Definition sample_bits : list Z := [0xa0; 0; 0; 0; 0x40; 0; 0; 0].

Definition sample_rasterizer (index ggo_flags size : Z) : Z * Glyph.GLYPHMETRICS * list Z :=
  if index =? 65 then (8, sample_metrics, if size =? 0 then [] else sample_bits)
  else (Glyph.GDI_ERROR, sample_metrics, []).

Definition sample_stride (width bpp : Z) : Z :=
  Z.land (Z.shiftr (width * bpp + 31) 3) (Z.lnot 3).

(** * Proofs *)

(** ** Running and inverting the monad *)

(** *** Running the monad forwards *)

Lemma bind_run {A B} (m : M A) (k : A -> M B) st a st1 :
  m st = Ret (a, st1) -> (x <- m ;; k x) st = k a st1.
Proof. unfold bind. by intros ->. Qed.

Lemma ret_run {A} (a : A) st : ret a st = Ret (a, st).
Proof. done. Qed.

Lemma obj_run this st o : objs st !! this = Some o -> obj this st = Ret (o, st).
Proof. unfold obj. by intros ->. Qed.

Lemma slot_run this i st o prop :
  objs st !! this = Some o -> props o !! i = Some prop -> slot this i st = Ret (prop, st).
Proof. unfold slot. by intros -> ->. Qed.

Lemma upd_obj_run this f st o :
  objs st !! this = Some o ->
  upd_obj this f st = Ret (tt, set_objs st (<[this := f o]> (objs st))).
Proof. unfold upd_obj. by intros ->. Qed.

Lemma upd_slot_run this i f st o prop :
  objs st !! this = Some o -> props o !! i = Some prop ->
  upd_slot this i f st
  = Ret (tt, set_objs st (<[this := set_props o (<[i := f prop]> (props o))]> (objs st))).
Proof. unfold upd_slot. by intros -> ->. Qed.

(** *** Inverting a run *)

Lemma bind_inv {A B} (m : M A) (k : A -> M B) st b st' :
  (x <- m ;; k x) st = Ret (b, st') ->
  exists a st1, m st = Ret (a, st1) /\ k a st1 = Ret (b, st').
Proof. unfold bind. destruct (m st) as [[a st1]| |]; [eauto|done|done]. Qed.

Lemma ret_inv {A} (a b : A) st st' : ret a st = Ret (b, st') -> b = a /\ st' = st.
Proof. unfold ret. by intros [= -> ->]. Qed.

Lemma obj_inv this st o st' :
  obj this st = Ret (o, st') -> st' = st /\ objs st !! this = Some o.
Proof. unfold obj. destruct (objs st !! this); [|done]. by intros [= -> ->]. Qed.

Lemma slot_inv this i st prop st' :
  slot this i st = Ret (prop, st') ->
  st' = st /\ exists o, objs st !! this = Some o /\ props o !! i = Some prop.
Proof.
  unfold slot. destruct (objs st !! this) as [o|]; [|done].
  destruct (props o !! i) eqn:E; [|done]. intros [= -> ->]. eauto.
Qed.

Lemma upd_obj_inv this f st x st' :
  upd_obj this f st = Ret (x, st') ->
  exists o, objs st !! this = Some o /\ st' = set_objs st (<[this := f o]> (objs st)).
Proof. unfold upd_obj. destruct (objs st !! this) as [o|]; [|done]. intros [= _ <-]. eauto. Qed.

Lemma upd_slot_inv this i f st x st' :
  upd_slot this i f st = Ret (x, st') ->
  exists o prop, objs st !! this = Some o /\ props o !! i = Some prop /\
    st' = set_objs st (<[this := set_props o (<[i := f prop]> (props o))]> (objs st)).
Proof.
  unfold upd_slot. destruct (objs st !! this) as [o|]; [|done].
  destruct (props o !! i) as [prop|] eqn:E; [|done]. intros [= _ <-]. eauto.
Qed.

Lemma heap_alloc_inv st b st' :
  heap_alloc st = Ret (b, st') -> objs st' = objs st /\ brk st' = brk st /\ log st' = log st.
Proof. unfold heap_alloc. destruct (allocs st); by intros [= _ <-]. Qed.

Lemma heap_strdupW_inv str st r st' :
  heap_strdupW str st = Ret (r, st') ->
  (r = None \/ r = str) /\ objs st' = objs st /\ brk st' = brk st /\ log st' = log st.
Proof.
  unfold heap_strdupW. destruct str as [s|].
  - intros (b & st1 & Hb & Hr)%bind_inv. apply heap_alloc_inv in Hb.
    apply ret_inv in Hr as [-> ->]. destruct b; auto.
  - intros [-> ->]%ret_inv. auto.
Qed.

Lemma heap_alloc_zero_inv st r st' :
  heap_alloc_zero st = Ret (r, st') ->
  objs st' = objs st /\
  ((r = None /\ brk st' = brk st) \/ (r = Some (brk st) /\ brk st' = S (brk st))).
Proof.
  unfold heap_alloc_zero. intros (granted & st1 & Hal & Hrun)%bind_inv.
  apply heap_alloc_inv in Hal as (Hobjs & Hbrk & _). destruct granted.
  - injection Hrun as <- <-. simpl. rewrite Hbrk. auto.
  - apply ret_inv in Hrun as [-> ->]. auto.
Qed.

Lemma emit_inv e st x st' :
  emit e st = Ret (x, st') -> objs st' = objs st /\ brk st' = brk st /\ log st' = log st ++ [e].
Proof. unfold emit. by intros [= _ <-]. Qed.

Lemma lift_inv {A} (r : result A) st a st' :
  lift r st = Ret (a, st') -> r = Ret a /\ st' = st.
Proof. unfold lift. destruct r; [|done|done]. by intros [= -> ->]. Qed.

Lemma fault_inv {A} st (r : A * state) : fault st = Ret r -> False.
Proof. done. Qed.

Lemma timeout_inv {A} st (r : A * state) : timeout st = Ret r -> False.
Proof. done. Qed.

(** Decompose a hypothesis [m st = Ret _] along the binds and the
    primitives of the store. *)
Ltac minv1 :=
  match goal with
  | H : bind _ _ _ = Ret (_, _) |- _ =>
      let a := fresh "a" in let st1 := fresh "st" in let Hm := fresh "Hm" in
      apply bind_inv in H as (a & st1 & Hm & H)
  | H : ret _ _ = Ret (_, _) |- _ =>
      apply ret_inv in H as [? ?]; subst
  | H : obj _ _ = Ret (_, _) |- _ =>
      let E := fresh "Hobj" in apply obj_inv in H as [? E]; subst
  | H : slot _ _ _ = Ret (_, _) |- _ =>
      let o := fresh "o" in let E := fresh "Hobj" in let E' := fresh "Hslot" in
      apply slot_inv in H as [? (o & E & E')]; subst
  | H : lift _ _ = Ret (_, _) |- _ =>
      let E := fresh "Hlift" in apply lift_inv in H as [E ?]; subst
  | H : fault _ = Ret _ |- _ => destruct (fault_inv _ _ H)
  | H : timeout _ = Ret _ |- _ => destruct (timeout_inv _ _ H)
  | H : Fault = Ret _ |- _ => discriminate H
  | H : Timeout = Ret _ |- _ => discriminate H
  | H : Ret _ = Ret _ |- _ => injection H as ? ?; subst
  end.
Ltac minv := repeat minv1.

(** ** Names and the binary search *)

Lemma strcmpW_refl a : strcmpW a a = 0.
Proof. induction a as [|c a IH]; simpl; [done|]. by rewrite Pos.eqb_refl. Qed.

Lemma strcmpW_eq a b : strcmpW a b = 0 -> a = b.
Proof.
  revert b; induction a as [|c a IH]; intros [|d b]; simpl; try done; try lia.
  destruct (Pos.eqb_spec c d) as [->|Hne]; intros E.
  - f_equal. by apply IH.
  - exfalso. apply Hne. lia.
Qed.

Lemma strcmpW_lt_trans a b c :
  strcmpW a b < 0 -> strcmpW b c < 0 -> strcmpW a c < 0.
Proof.
  revert b c; induction a as [|x a IH]; intros [|y b] [|z c]; simpl; try lia.
  destruct (Pos.eqb_spec x y) as [->|Hxy], (Pos.eqb_spec y z) as [->|Hyz];
    try rewrite Pos.eqb_refl; intros H1 H2.
  - eauto.
  - destruct (Pos.eqb_spec y z); [done|lia].
  - destruct (Pos.eqb_spec x z); [done|lia].
  - destruct (Pos.eqb_spec x z) as [->|]; lia.
Qed.

Lemma strcmpW_antisym a b : strcmpW a b < 0 -> 0 < strcmpW b a.
Proof.
  revert b; induction a as [|x a IH]; intros [|y b]; simpl; try lia.
  destruct (Pos.eqb_spec x y) as [->|Hxy].
  - rewrite Pos.eqb_refl. auto.
  - destruct (Pos.eqb_spec y x) as [->|]; [done|lia].
Qed.

Lemma strcmpW_antisym' a b : 0 < strcmpW a b -> strcmpW b a < 0.
Proof.
  revert b; induction a as [|x a IH]; intros [|y b]; simpl; try lia.
  destruct (Pos.eqb_spec x y) as [->|Hxy].
  - rewrite Pos.eqb_refl. auto.
  - destruct (Pos.eqb_spec y x) as [->|]; [done|lia].
Qed.

Lemma names_ascending_cons d rest :
  names_ascending (d :: rest) = true ->
  is_Some (b_name d) /\ names_ascending rest = true /\
  forall j d', rest !! j = Some d' -> name_lt d d'.
Proof.
  revert d; induction rest as [|e rest IH]; intros d Hs.
  - simpl in Hs. destruct (b_name d); [|done]. split; [eauto|]. split; [done|].
    intros j d'. by rewrite lookup_nil.
  - assert (Hd : exists n n', b_name d = Some n /\ b_name e = Some n' /\
                strcmpW n n' < 0 /\ names_ascending (e :: rest) = true).
    { cbn [names_ascending] in Hs. destruct (b_name d) as [n|]; [|done].
      destruct (b_name e) as [n'|] eqn:En'; [|done].
      apply andb_prop in Hs as [Hlt Hrest]. apply Z.ltb_lt in Hlt.
      exists n, n'. repeat split; try done.
      cbn [names_ascending]. by rewrite En'. }
    destruct Hd as (n & n' & En & En' & Hlt & Hrest').
    split; [rewrite En; eauto|]. split; [done|].
    destruct (IH e Hrest') as (_ & _ & Hall).
    intros [|j] d' Hj; simpl in Hj.
    + injection Hj as <-. exists n, n'. auto.
    + destruct (Hall j d' Hj) as (m & m' & Hm & Hm' & Hlt').
      exists n, m'. split; [done|]. split; [done|].
      rewrite En' in Hm. injection Hm as <-. eapply strcmpW_lt_trans; eauto.
Qed.

Lemma names_ascending_lookup props i j di dj :
  names_ascending props = true ->
  props !! i = Some di -> props !! j = Some dj -> (i < j)%nat -> name_lt di dj.
Proof.
  revert i j; induction props as [|d rest IH]; intros i j Hs Hi Hj Hlt.
  - by rewrite lookup_nil in Hi.
  - destruct (names_ascending_cons _ _ Hs) as (_ & Hrest & Hall).
    destruct i as [|i], j as [|j]; simpl in *; try lia.
    + injection Hi as <-. eauto.
    + eapply IH; eauto. lia.
Qed.

Lemma names_ascending_named props i d :
  names_ascending props = true -> props !! i = Some d -> is_Some (b_name d).
Proof.
  revert i; induction props as [|e rest IH]; intros i Hs Hi.
  - by rewrite lookup_nil in Hi.
  - destruct (names_ascending_cons _ _ Hs) as (Hn & Hrest & _).
    destruct i; simpl in Hi; [by injection Hi as <-|eauto].
Qed.

Lemma find_builtin_prop_loop_spec props nm :
  names_ascending props = true ->
  Z.of_nat (length props) <= 2 ^ 30 ->
  forall n min max,
    0 <= min -> max < Z.of_nat (length props) -> max - min + 1 <= Z.of_nat n ->
    (forall i d, min <= Z.of_nat i <= max -> props !! i = Some d -> b_name d = Some nm ->
                 find_builtin_prop_loop n props (Some nm) min max = Ret (Some (Z.of_nat i))) /\
    ((forall i d, min <= Z.of_nat i <= max -> props !! i = Some d -> b_name d <> Some nm) ->
     find_builtin_prop_loop n props (Some nm) min max = Ret None).
Proof.
  intros Hs Hlen. induction n as [|n IH]; intros min max Hmin Hmax Hn.
  - simpl. assert (max < min) by lia.
    destruct (Z.ltb_spec max min); [|lia]. split; [intros; lia | done].
  - cbn [find_builtin_prop_loop].
    destruct (Z.ltb_spec max min) as [Hlt|Hge]; [split; [intros; lia | done]|].
    unfold INT_MAX. destruct (Z.ltb_spec (2 ^ 31 - 1) (min + max)); [lia|].
    pose proof (Z.quot_div_nonneg (min + max) 2 ltac:(lia) ltac:(lia)) as Hq.
    set (mid := (min + max) ÷ 2) in *.
    assert (Hmid : min <= mid <= max) by (rewrite Hq; split;
       [apply Z.div_le_lower_bound | apply Z.div_le_upper_bound]; lia).
    destruct (Z.ltb_spec mid 0); [lia|].
    destruct (lookup_lt_is_Some_2 props (Z.to_nat mid) ltac:(lia)) as [dm Hdm].
    rewrite Hdm.
    destruct (names_ascending_named _ _ _ Hs Hdm) as [nmid Hnmid].
    rewrite Hnmid. cbn [strcmpW_ptr].
    destruct (IH min (mid - 1) ltac:(lia) ltac:(lia) ltac:(lia)) as [IHl1 IHl2].
    destruct (IH (mid + 1) max ltac:(lia) ltac:(lia) ltac:(lia)) as [IHr1 IHr2].
    destruct (Z.eqb_spec (strcmpW nm nmid) 0) as [E0|Hne].
    + apply strcmpW_eq in E0. subst nmid. split.
      * intros i d Hi Hd Hname.
        destruct (Nat.lt_trichotomy i (Z.to_nat mid)) as [Hc|[Hc|Hc]].
        -- destruct (names_ascending_lookup _ _ _ _ _ Hs Hd Hdm Hc)
             as (a & b & Ha & Hb & Hab).
           rewrite Hname in Ha. rewrite Hnmid in Hb. injection Ha as <-. injection Hb as <-.
           rewrite strcmpW_refl in Hab. lia.
        -- do 2 f_equal. lia.
        -- destruct (names_ascending_lookup _ _ _ _ _ Hs Hdm Hd Hc)
             as (a & b & Ha & Hb & Hab).
           rewrite Hname in Hb. rewrite Hnmid in Ha. injection Ha as <-. injection Hb as <-.
           rewrite strcmpW_refl in Hab. lia.
      * intros Hnone. exfalso. eapply (Hnone (Z.to_nat mid)); eauto. lia.
    + destruct (Z.ltb_spec (strcmpW nm nmid) 0) as [Hneg|Hpos].
      * split.
        -- intros i d Hi Hd Hname. apply (IHl1 i d); [|done|done].
           destruct (Z.lt_ge_cases (Z.of_nat i) mid) as [|Hc]; [lia|]. exfalso.
           destruct (Z.eq_dec (Z.of_nat i) mid) as [E|Hneq].
           { replace (Z.to_nat mid) with i in Hdm by lia.
             assert (nmid = nm) as -> by congruence.
             rewrite strcmpW_refl in Hne. done. }
           destruct (names_ascending_lookup _ _ _ _ _ Hs Hdm Hd ltac:(lia))
             as (a & b & Ha & Hb & Hab).
           rewrite Hname in Hb. rewrite Hnmid in Ha. injection Ha as <-. injection Hb as <-.
           pose proof (strcmpW_antisym _ _ Hab). lia.
        -- intros Hnone. apply IHl2. intros i d Hi. apply Hnone. lia.
      * split.
        -- intros i d Hi Hd Hname. apply (IHr1 i d); [|done|done].
           destruct (Z.lt_ge_cases mid (Z.of_nat i)) as [|Hc]; [lia|]. exfalso.
           destruct (Z.eq_dec (Z.of_nat i) mid) as [E|Hneq].
           { replace (Z.to_nat mid) with i in Hdm by lia.
             assert (nmid = nm) as -> by congruence.
             rewrite strcmpW_refl in Hne. done. }
           destruct (names_ascending_lookup _ _ _ _ _ Hs Hd Hdm ltac:(lia))
             as (a & b & Ha & Hb & Hab).
           rewrite Hname in Ha. rewrite Hnmid in Hb. injection Ha as <-. injection Hb as <-.
           lia.
        -- intros Hnone. apply IHr2. intros i d Hi. apply Hnone. lia.
Qed.

Lemma as_LONG_small z : - 2 ^ 31 <= z < 2 ^ 31 -> as_LONG z = z.
Proof. intros Hz. unfold as_LONG. rewrite Z.mod_small; lia. Qed.

(** C6. A class descriptor array that is sorted ascending by name (and not
    too long for the index arithmetic of the search): the binary search
    returns the very descriptor that carries the queried name when the array
    has one, and absent when no descriptor carries it. *)
Theorem find_builtin_prop_sorted (info : builtin_info_t) (nm : wstring) :
  names_ascending (bi_props info) = true ->
  props_cnt info <= 2 ^ 30 ->
  (forall i d, bi_props info !! i = Some d -> b_name d = Some nm ->
               find_builtin_prop info (Some nm) = Ret (Some d)) /\
  ((forall d, d ∈ bi_props info -> b_name d <> Some nm) ->
   find_builtin_prop info (Some nm) = Ret None).
Proof.
  intros Hs Hlen. unfold props_cnt in Hlen. unfold find_builtin_prop, props_cnt.
  rewrite as_LONG_small by lia.
  destruct (find_builtin_prop_loop_spec (bi_props info) nm Hs Hlen
              (length (bi_props info)) 0 (Z.of_nat (length (bi_props info)) - 1))
    as [Hfound Habsent]; try lia.
  split.
  - intros i d Hd Hname. pose proof (lookup_lt_Some _ _ _ Hd).
    rewrite (Hfound i d); [|lia|done|done]. by rewrite Nat2Z.id, Hd.
  - intros Hnone. rewrite Habsent; [done|].
    intros i d _ Hd. apply Hnone. eapply list_elem_of_lookup_2; eauto.
Qed.

(** ** Stale references *)

Lemma as_LONG_range z : - 2 ^ 31 <= as_LONG z < 2 ^ 31.
Proof. unfold as_LONG. pose proof (Z.mod_pos_bound (z + 2 ^ 31) (2 ^ 32)). lia. Qed.

Lemma as_LONG_DWORD_nonneg r : 0 <= r < 2 ^ 32 -> 0 <= as_LONG r -> as_LONG r = r.
Proof.
  intros Hr Hn. destruct (Z.lt_ge_cases r (2 ^ 31)); [apply as_LONG_small; lia|].
  exfalso. unfold as_LONG in Hn.
  replace (r + 2 ^ 31) with ((r - 2 ^ 31) + 1 * 2 ^ 32) in Hn by lia.
  rewrite Z.mod_add in Hn by lia. rewrite Z.mod_small in Hn; lia.
Qed.

Lemma get_prop_stale po r :
  0 <= r < 2 ^ 32 -> stale_ref po r -> get_prop po (as_LONG r) = None.
Proof.
  intros Hr Hst. unfold get_prop.
  destruct (Z.ltb_spec (as_LONG r) 0) as [|Hn]; [done|]. simpl.
  rewrite (as_LONG_DWORD_nonneg r Hr Hn).
  destruct (Z.leb_spec (prop_cnt po) r) as [|Hlt]; [done|].
  destruct Hst as [Hge|(parent & Hp & Ht)]; [lia|].
  rewrite Hp. by rewrite decide_True.
Qed.

Lemma get_prop_deleted o i prop :
  props o !! i = Some prop -> type prop = PROP_DELETED -> get_prop o (Z.of_nat i) = None.
Proof.
  intros Hp Ht. unfold get_prop.
  destruct (Z.ltb_spec (Z.of_nat i) 0); [done|].
  destruct (Z.leb_spec (prop_cnt o) (Z.of_nat i)); [done|]. simpl.
  rewrite Nat2Z.id, Hp. by rewrite decide_True.
Qed.

(** C7. A local ProtoRef slot whose prototype slot is a tombstone or out
    of range: asking for its effective flags turns the local slot itself
    into a tombstone and reports empty flags, and the get by identifier that
    follows reports MemberNotFound. *)
Theorem get_flags_stale_protref `{Host} (fuel : nat) (st : state) (this p : ptr)
    (o po : DispatchEx) (i : nat) (prop : dispex_prop_t) (r : Z) :
  objs st !! this = Some o ->
  props o !! i = Some prop ->
  type prop = PROP_PROTREF -> u prop = u_ref r -> 0 <= r < 2 ^ 32 ->
  prototype o = Some p -> objs st !! p = Some po ->
  stale_ref po r ->
  let o' := set_props o (<[i := set_type PROP_DELETED prop]> (props o)) in
  let st' := set_objs st (<[this := o']> (objs st)) in
  get_flags (S fuel) this i st = Ret (0, st') /\
  forall fuel' dp res,
    DispatchEx_InvokeEx fuel' this (Z.of_nat i) DISPATCH_PROPERTYGET dp res st'
    = Ret ((DISP_E_MEMBERNOTFOUND,
            match res with Some _ => Some VT_EMPTY | None => None end), st').
Proof.
  intros Ho Hprop Hty Hu Hr Hproto Hpo Hstale o' st'. split.
  - cbn [get_flags].
    rewrite (bind_run _ _ _ _ _ (slot_run _ _ _ _ _ Ho Hprop)).
    rewrite decide_True by done.
    rewrite (bind_run _ _ _ _ _ (obj_run _ _ _ Ho)). rewrite Hproto, Hu.
    rewrite (bind_run _ _ _ _ _ (obj_run _ _ _ Hpo)).
    rewrite (get_prop_stale po r Hr Hstale).
    rewrite (bind_run _ _ _ _ _ (upd_slot_run _ _ _ _ _ _ Ho Hprop)). done.
  - intros fuel' dp res. unfold DispatchEx_InvokeEx.
    erewrite bind_run; [|apply obj_run; simpl; apply lookup_insert_eq].
    rewrite (get_prop_deleted o' i (set_type PROP_DELETED prop)); [done| |done].
    subst o'; simpl. apply list_lookup_insert_eq. by eapply lookup_lt_Some.
Qed.
(** ** Tables evolve slot by slot *)

Lemma kind_step_refl k : kind_step k k.
Proof. by left. Qed.

Lemma kind_step_trans k1 k2 k3 : kind_step k1 k2 -> kind_step k2 k3 -> kind_step k1 k3.
Proof.
  unfold kind_step. intros H1 H2.
  destruct k1, k2, k3; try (by left); try (right; left; split; [discriminate|done]);
    try (right; right; split; [auto|done]); exfalso;
    destruct H1 as [?|[[? ?]|[[?|?] ?]]]; try done;
    destruct H2 as [?|[[? ?]|[[?|?] ?]]]; done.
Qed.

Lemma slot_step_refl q : slot_step q q.
Proof. split; [done|]. split; [apply kind_step_refl|done]. Qed.

Lemma slot_step_trans q1 q2 q3 : slot_step q1 q2 -> slot_step q2 q3 -> slot_step q1 q3.
Proof.
  intros (Hn1 & Hk1 & Hf1) (Hn2 & Hk2 & Hf2). split; [congruence|].
  split; [eapply kind_step_trans; eauto|]. intros Hty.
  rewrite <- (Hf1 Hty). apply Hf2.
  destruct Hty as [Hty|Hty]; rewrite Hty in Hk1;
    destruct Hk1 as [?|[[? ?]|[[?|?] ?]]]; try done; auto; congruence.
Qed.

Lemma table_step_refl ps : table_step ps ps.
Proof. intros i q Hq. exists q. split; [done|apply slot_step_refl]. Qed.

Lemma table_step_trans ps1 ps2 ps3 :
  table_step ps1 ps2 -> table_step ps2 ps3 -> table_step ps1 ps3.
Proof.
  intros H1 H2 i q Hq. destruct (H1 i q Hq) as (q' & Hq' & Hs).
  destruct (H2 i q' Hq') as (q'' & Hq'' & Hs'). exists q''.
  split; [done|]. eapply slot_step_trans; eauto.
Qed.

Lemma table_step_app ps ext : table_step ps (ps ++ ext).
Proof.
  intros i q Hq. exists q. split; [|apply slot_step_refl].
  by apply lookup_app_l_Some.
Qed.

Lemma table_step_insert ps i q q' :
  ps !! i = Some q -> slot_step q q' -> table_step ps (<[i := q']> ps).
Proof.
  intros Hq Hs j x Hx. destruct (decide (i = j)) as [<-|Hne].
  - exists q'. split; [apply list_lookup_insert_eq; by eapply lookup_lt_Some|].
    congruence.
  - exists x. split; [by rewrite list_lookup_insert_ne|apply slot_step_refl].
Qed.

Lemma evolves_below_refl b st : evolves_below b st st.
Proof. intros p _. destruct (objs st !! p); [apply table_step_refl|done]. Qed.

Lemma evolves_below_trans b st1 st2 st3 :
  evolves_below b st1 st2 -> evolves_below b st2 st3 -> evolves_below b st1 st3.
Proof.
  intros H1 H2 p Hp. specialize (H1 p Hp). specialize (H2 p Hp).
  destruct (objs st1 !! p), (objs st2 !! p), (objs st3 !! p); try done.
  eapply table_step_trans; eauto.
Qed.

Lemma evolves_below_mono b b' st st' :
  (b <= b')%nat -> evolves_below b' st st' -> evolves_below b st st'.
Proof. intros Hb He p Hp. apply He. lia. Qed.

Lemma evolves_refl st : evolves st st.
Proof. split; [done|apply evolves_below_refl]. Qed.

Lemma evolves_trans st1 st2 st3 : evolves st1 st2 -> evolves st2 st3 -> evolves st1 st3.
Proof.
  intros [Hb1 H1] [Hb2 H2]. split; [lia|].
  eapply evolves_below_trans; [done|]. eapply evolves_below_mono; eauto.
Qed.

Lemma evolves_below_same_objs b st st' : objs st' = objs st -> evolves_below b st st'.
Proof. intros E p _. rewrite E. destruct (objs st !! p); [apply table_step_refl|done]. Qed.

Lemma evolves_below_insert b st this o o' :
  objs st !! this = Some o ->
  ((b <= this)%nat \/ table_step (props o) (props o')) ->
  evolves_below b st (set_objs st (<[this := o']> (objs st))).
Proof.
  intros Ho Hor p Hp. simpl. destruct (decide (this = p)) as [<-|Hne].
  - rewrite lookup_insert_eq, Ho. destruct Hor; [lia|done].
  - rewrite lookup_insert_ne by done. destruct (objs st !! p); [apply table_step_refl|done].
Qed.

Lemma evolves_below_delete b st this :
  evolves_below b st (set_objs st (delete this (objs st))).
Proof.
  intros p Hp. simpl. destruct (decide (this = p)) as [<-|Hne].
  - rewrite lookup_delete_eq. by repeat case_match.
  - rewrite lookup_delete_ne by done. destruct (objs st !! p); [apply table_step_refl|done].
Qed.

Section Below.
Context `{Host}.
Hypothesis Hhost : host_evolves H.
Variable b : ptr.

Local Abbreviation pres := (respects b).

Lemma pres_ret {A} (a : A) : pres (ret a).
Proof. intros st a' st' Hb [-> ->]%ret_inv. split; [done|apply evolves_below_refl]. Qed.

Lemma pres_bind {A B} (m : M A) (k : A -> M B) :
  pres m -> (forall a, pres (k a)) -> pres (x <- m ;; k x).
Proof.
  intros Hm Hk st c st' Hb (a & st1 & H1 & H2)%bind_inv.
  destruct (Hm _ _ _ Hb H1) as [Hb1 He1]. destruct (Hk a _ _ _ Hb1 H2) as [Hb2 He2].
  split; [done|]. eapply evolves_below_trans; eauto.
Qed.

Lemma pres_fault {A} : pres (@fault A).
Proof. intros st a st' _ Hf. destruct (fault_inv _ _ Hf). Qed.

Lemma pres_timeout {A} : pres (@timeout A).
Proof. intros st a st' _ Hf. destruct (timeout_inv _ _ Hf). Qed.

Lemma pres_obj this : pres (obj this).
Proof. intros st a st' Hb [-> _]%obj_inv. split; [done|apply evolves_below_refl]. Qed.

Lemma pres_slot this i : pres (slot this i).
Proof. intros st a st' Hb [-> _]%slot_inv. split; [done|apply evolves_below_refl]. Qed.

Lemma pres_lift {A} (r : result A) : pres (lift r).
Proof. intros st a st' Hb [_ ->]%lift_inv. split; [done|apply evolves_below_refl]. Qed.

Lemma pres_heap_alloc : pres heap_alloc.
Proof.
  intros st a st' Hb (Ho & Hbk & _)%heap_alloc_inv. split; [lia|].
  by apply evolves_below_same_objs.
Qed.

Lemma pres_heap_strdupW str : pres (heap_strdupW str).
Proof.
  intros st a st' Hb (_ & Ho & Hbk & _)%heap_strdupW_inv. split; [lia|].
  by apply evolves_below_same_objs.
Qed.

Lemma pres_emit e : pres (emit e).
Proof.
  intros st a st' Hb (Ho & Hbk & _)%emit_inv. split; [lia|].
  by apply evolves_below_same_objs.
Qed.

Lemma pres_free_obj this : pres (free_obj this).
Proof.
  intros st a st' Hb Hr. unfold free_obj in Hr. injection Hr as _ <-.
  split; [done|apply evolves_below_delete].
Qed.

Lemma pres_upd_obj this f :
  ((b <= this)%nat \/ forall o, table_step (props o) (props (f o))) ->
  pres (upd_obj this f).
Proof.
  intros Hor st a st' Hb (o & Ho & ->)%upd_obj_inv. split; [done|].
  eapply evolves_below_insert; [done|]. destruct Hor; auto.
Qed.

Lemma pres_upd_slot this i f :
  ((b <= this)%nat \/ forall q, slot_step q (f q)) ->
  pres (upd_slot this i f).
Proof.
  intros Hor st a st' Hb (o & prop & Ho & Hp & ->)%upd_slot_inv. split; [done|].
  eapply evolves_below_insert; [done|]. destruct Hor as [|Hf]; [auto|right]. simpl.
  eapply table_step_insert; eauto.
Qed.

Lemma pres_put_obj this o : (b <= this)%nat -> pres (put_obj this o).
Proof.
  intros Hle st a st' Hb Hr. unfold put_obj in Hr. injection Hr as _ <-.
  split; [done|]. intros p Hp. simpl. rewrite lookup_insert_ne by lia.
  destruct (objs st !! p); [apply table_step_refl|done].
Qed.

Lemma pres_evolves {A} (m : M A) :
  (forall st a st', m st = Ret (a, st') -> evolves st st') -> pres m.
Proof.
  intros Hm st a st' Hb Hr. destruct (Hm _ _ _ Hr) as [Hbk He]. split; [lia|].
  eapply evolves_below_mono; eauto.
Qed.

Lemma pres_builtin_invoke f this fl dp retv : pres (builtin_invoke f this fl dp retv).
Proof. apply pres_evolves. intros st [r v] st'. apply Hhost. Qed.

Lemma pres_on_put_hook h this nm : pres (on_put_hook h this nm).
Proof. apply pres_evolves. intros st [] st'. apply Hhost. Qed.

Lemma pres_destructor_hook d this : pres (destructor_hook d this).
Proof. apply pres_evolves. intros st [] st'. apply Hhost. Qed.

Lemma pres_invoke_prop_func this jsthis i fl dp retv :
  pres (invoke_prop_func this jsthis i fl dp retv).
Proof. apply pres_evolves. intros st [r v] st'. apply Hhost. Qed.

Ltac pres_known := fail.
Ltac pres_step :=
  first
    [ apply pres_ret | apply pres_fault | apply pres_timeout | apply pres_obj
    | apply pres_slot | apply pres_lift | apply pres_heap_alloc
    | apply pres_heap_strdupW | apply pres_emit | apply pres_free_obj
    | apply pres_builtin_invoke | apply pres_on_put_hook
    | apply pres_destructor_hook | apply pres_invoke_prop_func
    | assumption
    | pres_known
    | match goal with
      | |- pres (bind _ _) => apply pres_bind; [|intros ?]
      | |- pres (match ?x with _ => _ end) => destruct x
      end ].
Ltac pres_auto := repeat pres_step.

Lemma set_buf_size_step o n : table_step (props o) (props (set_buf_size o n)).
Proof. apply table_step_refl. Qed.

Lemma pres_alloc_prop this nm ty fl : pres (alloc_prop this nm ty fl).
Proof.
  unfold alloc_prop. pres_auto;
    try (apply pres_upd_obj; right; intros o; simpl;
         first [apply table_step_refl | apply table_step_app]).
Qed.

Lemma set_u_step x q : slot_step q (set_u x q).
Proof. split; [done|]. split; [apply kind_step_refl|done]. Qed.

Ltac pres_known ::= apply pres_alloc_prop.

Lemma pres_alloc_protref this nm r : pres (alloc_protref this nm r).
Proof.
  unfold alloc_protref. pres_auto.
  apply pres_upd_slot. right. apply set_u_step.
Qed.

Lemma pres_find_prop_name this nm : pres (find_prop_name this nm).
Proof.
  unfold find_prop_name. pres_auto.
  apply pres_upd_slot. right. apply set_u_step.
Qed.

Ltac pres_known ::=
  first [apply pres_alloc_prop | apply pres_alloc_protref | apply pres_find_prop_name].

Lemma pres_find_prop_name_prot fuel : forall this nm alloc,
  pres (find_prop_name_prot fuel this nm alloc).
Proof.
  induction fuel as [|fuel IH]; intros this nm alloc; cbn [find_prop_name_prot].
  - apply pres_timeout.
  - pres_auto; try apply IH.
    apply pres_upd_slot. right. apply set_u_step.
Qed.

Lemma pres_fill_protrefs_loop n : forall this p j, pres (fill_protrefs_loop n this p j).
Proof.
  induction n as [|n IH]; intros this p j; cbn [fill_protrefs_loop];
    pres_auto; try apply IH.
Qed.

Lemma pres_fill_protrefs fuel : forall this, pres (fill_protrefs fuel this).
Proof.
  induction fuel as [|fuel IH]; intros this; cbn [fill_protrefs].
  - apply pres_timeout.
  - pres_auto; try apply IH; try apply pres_fill_protrefs_loop.
Qed.

Lemma set_type_deleted_step q : slot_step q (set_type PROP_DELETED q).
Proof.
  split; [done|]. split; [|done]. simpl.
  destruct (decide (type q = PROP_DELETED)) as [->|Hne]; [by left|right; left; done].
Qed.

Lemma pres_get_flags fuel : forall this i, pres (get_flags fuel this i).
Proof.
  induction fuel as [|fuel IH]; intros this i; cbn [get_flags].
  - apply pres_timeout.
  - pres_auto; try apply IH.
    apply pres_upd_slot. right. apply set_type_deleted_step.
Qed.

Ltac pres_known ::=
  first [apply pres_alloc_prop | apply pres_alloc_protref | apply pres_find_prop_name
        | apply pres_find_prop_name_prot | apply pres_fill_protrefs | apply pres_get_flags].

Lemma set_ref_step o r : table_step (props o) (props (set_ref o r)).
Proof. apply table_step_refl. Qed.

Lemma pres_AddRef this : pres (DispatchEx_AddRef this).
Proof.
  unfold DispatchEx_AddRef. pres_auto. apply pres_upd_obj. right. intros o. apply set_ref_step.
Qed.

Lemma pres_VariantClear release v :
  (forall p, pres (release p)) -> pres (VariantClear release v).
Proof. intros Hrel. unfold VariantClear. destruct v; pres_auto. apply Hrel. Qed.

Lemma pres_VariantClear_slot release this i :
  (forall p, pres (release p)) -> pres (VariantClear_slot release this i).
Proof.
  intros Hrel. unfold VariantClear_slot. pres_auto.
  - by apply pres_VariantClear.
  - apply pres_upd_slot. right. apply set_u_step.
Qed.

Lemma pres_VariantCopy release dest src :
  (forall p, pres (release p)) -> pres (VariantCopy release dest src).
Proof.
  intros Hrel. unfold VariantCopy. destruct dest; [|apply pres_fault].
  apply pres_bind; [by apply pres_VariantClear|intros _].
  destruct src; pres_auto. apply pres_AddRef.
Qed.

Lemma pres_release_props_loop release n :
  (forall p, pres (release p)) ->
  forall this i, pres (release_props_loop release n this i).
Proof.
  intros Hrel. induction n as [|n IH]; intros this i; cbn [release_props_loop];
    pres_auto; try apply IH; by apply pres_VariantClear_slot.
Qed.

Lemma pres_Release fuel : forall this, pres (DispatchEx_Release fuel this).
Proof.
  induction fuel as [|fuel IH]; intros this; cbn [DispatchEx_Release].
  - apply pres_timeout.
  - pres_auto; try (by apply pres_release_props_loop).
    apply pres_upd_obj. right. intros o. apply set_ref_step.
Qed.

Ltac pres_known ::=
  first [apply pres_alloc_prop | apply pres_alloc_protref | apply pres_find_prop_name
        | apply pres_find_prop_name_prot | apply pres_fill_protrefs | apply pres_get_flags
        | apply pres_AddRef | apply pres_Release
        | apply pres_VariantClear_slot; intros ?; apply pres_Release
        | apply pres_VariantCopy; intros ?; apply pres_Release ].

Lemma pres_prop_get fuel : forall this i dp retv, pres (prop_get fuel this i dp retv).
Proof.
  induction fuel as [|fuel IH]; intros this i dp retv; cbn [prop_get].
  - apply pres_timeout.
  - pres_auto; apply IH.
Qed.

Lemma shadow_step q :
  type q = PROP_BUILTIN \/ type q = PROP_PROTREF ->
  slot_step q (set_u (u_var VT_EMPTY) (set_flags PROPF_ENUM (set_type PROP_VARIANT q))).
Proof.
  intros Hty. split; [done|]. split; simpl.
  - right; right. done.
  - intros [E|E]; destruct Hty; congruence.
Qed.

Lemma pres_shadow this i st prop x st' :
  slot this i st = Ret (prop, st) ->
  type prop = PROP_BUILTIN \/ type prop = PROP_PROTREF ->
  upd_slot this i (fun q => set_u (u_var VT_EMPTY)
                             (set_flags PROPF_ENUM (set_type PROP_VARIANT q))) st
  = Ret (x, st') ->
  evolves_below b st st'.
Proof.
  intros (_ & o & Ho & Hp)%slot_inv Hty (o' & prop' & Ho' & Hp' & ->)%upd_slot_inv.
  assert (o' = o) as -> by congruence. assert (prop' = prop) as -> by congruence.
  eapply evolves_below_insert; [done|]. right. simpl.
  eapply table_step_insert; [done|]. by apply shadow_step.
Qed.

Ltac by_pres Hb H :=
  match type of H with
  | ?m ?st = Ret _ =>
      let P := fresh in
      assert (P : pres m); [pres_auto | exact (P _ _ _ Hb H)]
  end.

Lemma pres_prop_put_assign fuel this i dp : pres (prop_put_assign fuel this i dp).
Proof.
  unfold prop_put_assign. pres_auto. apply pres_upd_slot. right. apply set_u_step.
Qed.

Lemma pres_prop_put fuel this i dp : pres (prop_put fuel this i dp).
Proof.
  intros st a st' Hb Hrun. unfold prop_put in Hrun.
  apply bind_inv in Hrun as (prop & st1 & Hslot & Hrun).
  pose proof Hslot as Hslot'. apply slot_inv in Hslot' as [-> _].
  apply bind_inv in Hrun as (early & st1 & Hearly & Hrun).
  assert (Hstep1 : (b <= brk st1)%nat /\ evolves_below b st st1).
  { unfold prop_put_switch in Hearly. destruct (type prop) eqn:Hty.
    - by_pres Hb Hearly.
    - destruct (Z.land (flags prop) PROPF_METHOD =? 0); [by_pres Hb Hearly|].
      apply bind_inv in Hearly as ([] & st2 & Hupd & [_ ->]%ret_inv).
      split; [by apply upd_slot_inv in Hupd as (? & ? & _ & _ & ->)|].
      eapply pres_shadow; eauto.
    - apply bind_inv in Hearly as ([] & st2 & Hupd & [_ ->]%ret_inv).
      split; [by apply upd_slot_inv in Hupd as (? & ? & _ & _ & ->)|].
      eapply pres_shadow; eauto.
    - by_pres Hb Hearly. }
  destruct Hstep1 as [Hb1 He1].
  assert (Hstep2 : (b <= brk st')%nat /\ evolves_below b st1 st').
  { destruct early; [by_pres Hb1 Hrun|].
    exact (pres_prop_put_assign _ _ _ _ _ _ _ Hb1 Hrun). }
  split; [tauto|]. eapply evolves_below_trans; [apply He1|apply Hstep2].
Qed.

Ltac pres_known ::=
  first [apply pres_alloc_prop | apply pres_alloc_protref | apply pres_find_prop_name
        | apply pres_find_prop_name_prot | apply pres_fill_protrefs | apply pres_get_flags
        | apply pres_AddRef | apply pres_Release
        | apply pres_VariantClear_slot; intros ?; apply pres_Release
        | apply pres_VariantCopy; intros ?; apply pres_Release
        | apply pres_prop_get | apply pres_prop_put ].

Lemma pres_GetDispID fuel this nm grfdex : pres (DispatchEx_GetDispID fuel this nm grfdex).
Proof. unfold DispatchEx_GetDispID. pres_auto. Qed.

Lemma pres_InvokeEx fuel this id wFlags pdp pvarRes :
  pres (DispatchEx_InvokeEx fuel this id wFlags pdp pvarRes).
Proof. unfold DispatchEx_InvokeEx. pres_auto. Qed.

Lemma pres_GetNextDispID_loop fuel n : forall this i,
  pres (GetNextDispID_loop fuel n this i).
Proof.
  induction n as [|n IH]; intros this i; cbn [GetNextDispID_loop]; pres_auto; apply IH.
Qed.

Lemma pres_GetNextDispID fuel this grfdex id :
  pres (DispatchEx_GetNextDispID fuel this grfdex id).
Proof. unfold DispatchEx_GetNextDispID. pres_auto. apply pres_GetNextDispID_loop. Qed.

Lemma pres_jsdisp_set_prot_prop dispex prototype0 :
  (b <= dispex)%nat -> pres (jsdisp_set_prot_prop dispex prototype0).
Proof. intros Hle. unfold jsdisp_set_prot_prop. pres_auto. apply pres_upd_slot. by left. Qed.

Lemma pres_init_dispex fuel dispex c info prototype0 :
  (b <= dispex)%nat -> pres (init_dispex fuel dispex c info prototype0).
Proof.
  intros Hle. unfold init_dispex.
  pres_auto; try (by apply pres_put_obj); try (by apply pres_jsdisp_set_prot_prop);
    apply pres_upd_obj; by left.
Qed.
End Below.

Section Interface.
Context `{Host}.
Hypothesis Hhost : host_evolves H.

Lemma pres_create_dispex fuel c info prototype0 st r st' :
  create_dispex fuel c info prototype0 st = Ret (r, st') -> evolves st st'.
Proof.
  intros Hrun. unfold create_dispex in Hrun.
  apply bind_inv in Hrun as (block & st1 & Hal & Hrun).
  apply heap_alloc_zero_inv in Hal as (Hobjs & Hblock).
  assert (He1 : evolves_below (brk st) st st1) by (by apply evolves_below_same_objs).
  destruct Hblock as [[-> Hbrk]|[-> Hbrk]].
  - apply ret_inv in Hrun as [_ ->]. split; [lia|done].
  - apply bind_inv in Hrun as (hres & st3 & Hinit & Hrun).
    assert (st' = st3) as ->.
    { destruct (FAILED hres); by apply ret_inv in Hrun as [_ ->]. }
    edestruct (pres_init_dispex Hhost (brk st) fuel (brk st) c
                 (match info with Some b => b | None => dispex_info end) prototype0
                 (Nat.le_refl _)) as [Hb3 He3]; [|exact Hinit|]; [lia|].
    split; [lia|]. eapply evolves_below_trans; [apply He1|apply He3].
Qed.

Lemma pres_to_evolves {A} (m : M A) :
  (forall b, respects b m) -> forall st a st', m st = Ret (a, st') -> evolves st st'.
Proof. intros Hm st a st' Hrun. by apply (Hm (brk st) st a st'). Qed.
End Interface.

(** ** Name resolution only appends cache slots to the chain *)

Lemma grows_refl E st : grows E st st.
Proof. intros p o Ho. exists o, []. by rewrite app_nil_r. Qed.

Lemma grows_trans E st1 st2 st3 : grows E st1 st2 -> grows E st2 st3 -> grows E st1 st3.
Proof.
  intros H1 H2 p o Ho. destruct (H1 p o Ho) as (o' & ext & Ho' & Hp & Hc).
  destruct (H2 p o' Ho') as (o'' & ext' & Ho'' & Hp' & Hc').
  exists o'', (ext ++ ext'). split; [done|]. split; [by rewrite Hp', Hp, app_assoc|].
  intros HE. apply Forall_app. auto.
Qed.

Lemma grows_mono (E E' : ptr -> Prop) st st' :
  (forall p, E p -> E' p) -> grows E st st' -> grows E' st st'.
Proof.
  intros HE Hg p o Ho. destruct (Hg p o Ho) as (o' & ext & Ho' & Hp & Hc).
  exists o', ext. split; [done|]. split; [done|]. intros Hn. apply Hc. auto.
Qed.

Lemma grows_same_objs E st st' : objs st' = objs st -> grows E st st'.
Proof. intros Eq p o Ho. exists o, []. rewrite Eq, app_nil_r. auto. Qed.

Lemma grows_insert E st this o o' ext :
  objs st !! this = Some o -> props o' = props o ++ ext ->
  (~ E this -> Forall cache_slot ext) ->
  grows E st (set_objs st (<[this := o']> (objs st))).
Proof.
  intros Ho Hp Hc p x Hx. simpl. destruct (decide (this = p)) as [<-|Hne].
  - rewrite lookup_insert_eq. exists o', ext. split; [done|]. split; [congruence|done].
  - rewrite lookup_insert_ne by done. exists x, []. by rewrite app_nil_r.
Qed.

(** What [alloc_prop] does to the store: the table of [this] is as it was,
    or has one more slot of the kind and flags asked for. *)
Lemma alloc_prop_inv this nm ty fl st r st' :
  alloc_prop this nm ty fl st = Ret (r, st') ->
  exists o o', objs st !! this = Some o /\ objs st' = <[this := o']> (objs st) /\
    brk st' = brk st /\ log st' = log st /\
    prototype o' = prototype o /\ builtin_info o' = builtin_info o /\ ref o' = ref o /\
    ((props o' = props o /\ r = None) \/
     exists copy, props o' = props o ++ [ {| name := copy; type := ty; flags := fl; u := u_undef |} ] /\
       (copy = None \/ copy = nm) /\
       r = match copy with Some _ => Some (length (props o)) | None => None end).
Proof.
  unfold alloc_prop. intros Hrun.
  apply bind_inv in Hrun as (o & st1 & Hobj & Hrun). apply obj_inv in Hobj as [-> Ho].
  apply bind_inv in Hrun as (grown & st1 & Hgrow & Hrun).
  assert (Hg : exists o1, objs st1 = <[this := o1]> (objs st) /\ brk st1 = brk st /\
            log st1 = log st /\ props o1 = props o /\ prototype o1 = prototype o /\
            builtin_info o1 = builtin_info o /\ ref o1 = ref o).
  { destruct (buf_size o =? prop_cnt o).
    - apply bind_inv in Hgrow as ([] & st2 & Hupd & Hgrow).
      apply upd_obj_inv in Hupd as (o0 & Ho0 & ->). assert (o0 = o) as -> by congruence.
      apply bind_inv in Hgrow as (tmp & st3 & Hal & Hgrow).
      apply heap_alloc_inv in Hal as (Hobjs & Hbrk & Hlog). simpl in *.
      destruct tmp.
      + apply bind_inv in Hgrow as ([] & st4 & Hupd & [_ ->]%ret_inv).
        apply upd_obj_inv in Hupd as (o1 & Ho1 & ->).
        rewrite Hobjs, lookup_insert_eq in Ho1. injection Ho1 as <-.
        eexists. simpl. rewrite Hobjs, insert_insert_eq. repeat split; try done.
      + apply ret_inv in Hgrow as [_ ->]. eexists. rewrite Hobjs. repeat split; done.
    - apply ret_inv in Hgrow as [_ ->]. exists o. rewrite insert_id by done. done. }
  destruct Hg as (o1 & Hobjs1 & Hbrk1 & Hlog1 & Hp1 & Hpr1 & Hbi1 & Hr1).
  destruct grown.
  - apply bind_inv in Hrun as (o2 & st2 & Hobj & Hrun). apply obj_inv in Hobj as [-> Ho2].
    rewrite Hobjs1, lookup_insert_eq in Ho2. injection Ho2 as <-.
    destruct (props_cap o1 <=? prop_cnt o1); [destruct (fault_inv _ _ Hrun)|].
    apply bind_inv in Hrun as (copy & st2 & Hdup & Hrun).
    apply heap_strdupW_inv in Hdup as (Hcopy & Hobjs2 & Hbrk2 & Hlog2).
    apply bind_inv in Hrun as ([] & st3 & Hupd & [-> ->]%ret_inv).
    apply upd_obj_inv in Hupd as (o3 & Ho3 & ->).
    rewrite Hobjs2, Hobjs1, lookup_insert_eq in Ho3. injection Ho3 as <-.
    eexists o, _. split; [done|]. simpl. rewrite Hobjs2, Hobjs1, insert_insert_eq.
    split; [done|]. do 5 (split; [simpl; congruence|]). right. exists copy.
    simpl. rewrite Hp1. split; [done|]. split; [done|]. done.
  - apply ret_inv in Hrun as [-> ->]. exists o, o1.
    do 7 (split; [done|]). by left.
Qed.

Lemma grows_alloc_prop E this nm ty fl st r st' :
  alloc_prop this nm ty fl st = Ret (r, st') ->
  (ty = PROP_BUILTIN \/ ty = PROP_PROTREF \/ E this) ->
  grows E st st'.
Proof.
  intros (o & o' & Ho & Hobjs & _ & _ & _ & _ & _ & Hcase)%alloc_prop_inv Hty.
  intros p x Hx. rewrite Hobjs. destruct (decide (this = p)) as [<-|Hne].
  - rewrite lookup_insert_eq. assert (x = o) as -> by congruence.
    destruct Hcase as [[Hp _]|(copy & Hp & _)].
    + exists o', []. by rewrite app_nil_r.
    + eexists o', _. split; [done|]. split; [done|]. intros HE.
      apply Forall_singleton. unfold cache_slot; simpl. tauto.
  - rewrite lookup_insert_ne by done. exists x, []. by rewrite app_nil_r.
Qed.

(** Setting the payload of the slot [alloc_prop] has just appended. *)
Lemma grows_alloc_then_set_u E this nm ty fl x st r st1 i st2 y :
  alloc_prop this nm ty fl st = Ret (r, st1) -> r = Some i ->
  upd_slot this i (set_u x) st1 = Ret (y, st2) ->
  (ty = PROP_BUILTIN \/ ty = PROP_PROTREF \/ E this) ->
  grows E st st2.
Proof.
  intros (o & o' & Ho & Hobjs & _ & _ & _ & _ & _ & Hcase)%alloc_prop_inv -> Hupd Hty.
  apply upd_slot_inv in Hupd as (o1 & prop & Ho1 & Hprop & ->).
  rewrite Hobjs, lookup_insert_eq in Ho1. injection Ho1 as <-.
  destruct Hcase as [[_ ?]|(copy & Hp & _ & Hr)]; [done|].
  destruct copy; [|done]. injection Hr as ->.
  rewrite Hp, list_lookup_middle in Hprop by done. injection Hprop as <-.
  intros p z Hz. simpl. rewrite Hobjs, insert_insert_eq.
  destruct (decide (this = p)) as [<-|Hne].
  - rewrite lookup_insert_eq. assert (z = o) as -> by congruence.
    eexists _, _. split; [done|]. simpl. rewrite Hp.
    rewrite insert_app_r_alt by done. rewrite Nat.sub_diag. simpl. split; [done|].
    intros HE. apply Forall_singleton. unfold cache_slot; simpl. tauto.
  - rewrite lookup_insert_ne by done. exists z, []. by rewrite app_nil_r.
Qed.

Lemma grows_alloc_protref E this nm r0 st r st' :
  alloc_protref this nm r0 st = Ret (r, st') -> grows E st st'.
Proof.
  unfold alloc_protref. intros Hrun.
  apply bind_inv in Hrun as (prop & st1 & Halloc & Hrun). destruct prop as [i|].
  - apply bind_inv in Hrun as ([] & st2 & Hupd & [_ ->]%ret_inv).
    eapply grows_alloc_then_set_u; eauto.
  - apply ret_inv in Hrun as [_ ->]. eapply grows_alloc_prop; eauto.
Qed.

Lemma grows_find_prop_name E this nm st r st' :
  find_prop_name this nm st = Ret (r, st') -> grows E st st'.
Proof.
  unfold find_prop_name. intros Hrun.
  apply bind_inv in Hrun as (o & st1 & Hobj & Hrun). apply obj_inv in Hobj as [-> Ho].
  apply bind_inv in Hrun as (found & st1 & Hlift & Hrun). apply lift_inv in Hlift as [_ ->].
  destruct found.
  - apply ret_inv in Hrun as [_ ->]. apply grows_refl.
  - apply bind_inv in Hrun as (builtin & st1 & Hlift & Hrun).
    apply lift_inv in Hlift as [_ ->]. destruct builtin as [bp|].
    + apply bind_inv in Hrun as (prop & st1 & Halloc & Hrun). destruct prop as [i|].
      * apply bind_inv in Hrun as ([] & st2 & Hupd & [_ ->]%ret_inv).
        eapply grows_alloc_then_set_u; eauto.
      * apply ret_inv in Hrun as [_ ->]. eapply grows_alloc_prop; eauto.
    + apply ret_inv in Hrun as [_ ->]. apply grows_refl.
Qed.

Lemma grows_find_prop_name_prot fuel : forall this nm alloc st r st',
  find_prop_name_prot fuel this nm alloc st = Ret (r, st') ->
  grows (fun p => alloc = true /\ p = this) st st'.
Proof.
  induction fuel as [|fuel IH]; intros this nm alloc st r st' Hrun;
    cbn [find_prop_name_prot] in Hrun; [destruct (timeout_inv _ _ Hrun)|].
  apply bind_inv in Hrun as (r1 & st1 & Hfind & Hrun).
  eapply grows_trans; [eapply grows_find_prop_name; eauto|].
  destruct (FAILED (fst r1)); [apply ret_inv in Hrun as [_ ->]; apply grows_refl|].
  destruct (snd r1); [apply ret_inv in Hrun as [_ ->]; apply grows_refl|].
  apply bind_inv in Hrun as (o & st2 & Hobj & Hrun). apply obj_inv in Hobj as [-> Ho].
  apply bind_inv in Hrun as (inherited & st2 & Hinh & Hrun).
  assert (Hg : grows (fun p => alloc = true /\ p = this) st1 st2).
  { destruct (prototype o) as [p|]; [|apply ret_inv in Hinh as [_ ->]; apply grows_refl].
    apply bind_inv in Hinh as (r' & st3 & Hrec & Hinh).
    eapply grows_trans.
    { eapply grows_mono; [|eapply IH; eauto]. intros ? [? _]. done. }
    destruct (FAILED (fst r')); [apply ret_inv in Hinh as [_ ->]; apply grows_refl|].
    destruct (snd r'); [|apply ret_inv in Hinh as [_ ->]; apply grows_refl].
    apply bind_inv in Hinh as (parent & st4 & Hslot & Hinh).
    apply slot_inv in Hslot as [-> _].
    apply bind_inv in Hinh as (prop & st4 & Hal & Hinh).
    assert (st2 = st4) as -> by (destruct prop; by apply ret_inv in Hinh as [_ ->]).
    eapply grows_alloc_protref; eauto. }
  eapply grows_trans; [apply Hg|].
  destruct inherited; [apply ret_inv in Hrun as [_ ->]; apply grows_refl|].
  destruct alloc; [|apply ret_inv in Hrun as [_ ->]; apply grows_refl].
  apply bind_inv in Hrun as (prop & st3 & Halloc & Hrun). destruct prop as [i|].
  - apply bind_inv in Hrun as ([] & st4 & Hupd & [_ ->]%ret_inv).
    eapply grows_alloc_then_set_u; eauto.
  - apply ret_inv in Hrun as [_ ->]. eapply grows_alloc_prop; eauto.
Qed.

(** ** Put *)

Lemma same_but_ref_refl o : same_but_ref o o.
Proof. done. Qed.

Lemma same_but_ref_set_ref o r : same_but_ref o (set_ref o r).
Proof. done. Qed.

Lemma same_but_ref_props o o' : same_but_ref o o' -> props o' = props o.
Proof. intros E. by apply (f_equal props) in E. Qed.

Lemma refs_only_refl st : refs_only st st.
Proof. intros p. by destruct (objs st !! p). Qed.

Lemma refs_only_trans st1 st2 st3 : refs_only st1 st2 -> refs_only st2 st3 -> refs_only st1 st3.
Proof.
  intros H1 H2 p. specialize (H1 p). specialize (H2 p).
  destruct (objs st1 !! p), (objs st2 !! p), (objs st3 !! p); try done.
  unfold same_but_ref in *. congruence.
Qed.

Lemma refs_only_set_ref st q oq r :
  objs st !! q = Some oq -> refs_only st (set_objs st (<[q := set_ref oq r]> (objs st))).
Proof.
  intros Hq p. simpl. destruct (decide (q = p)) as [<-|Hne].
  - by rewrite lookup_insert_eq, Hq.
  - rewrite lookup_insert_ne by done. by destruct (objs st !! p).
Qed.

Lemma refs_only_same_objs st st' : objs st' = objs st -> refs_only st st'.
Proof. intros E p. rewrite E. by destruct (objs st !! p). Qed.

Lemma refs_only_lookup st st' p o :
  refs_only st st' -> objs st !! p = Some o ->
  exists o', objs st' !! p = Some o' /\ same_but_ref o o'.
Proof.
  intros Hr Ho. specialize (Hr p). rewrite Ho in Hr.
  destruct (objs st' !! p) as [o'|]; [eauto|done].
Qed.

Section Put.
Context `{Host}.

Lemma AddRef_run p st op :
  objs st !! p = Some op ->
  DispatchEx_AddRef p st
  = Ret (as_LONG (ref op + 1),
         set_objs st (<[p := set_ref op (as_LONG (ref op + 1))]> (objs st))).
Proof.
  intros Hp. unfold DispatchEx_AddRef.
  rewrite (bind_run _ _ _ _ _ (upd_obj_run _ _ _ _ Hp)).
  erewrite bind_run; [|apply obj_run; simpl; apply lookup_insert_eq]. done.
Qed.

Lemma Release_keeps_run fuel q st oq :
  objs st !! q = Some oq -> as_LONG (ref oq - 1) <> 0 ->
  DispatchEx_Release (S fuel) q st
  = Ret (as_LONG (ref oq - 1),
         set_objs st (<[q := set_ref oq (as_LONG (ref oq - 1))]> (objs st))).
Proof.
  intros Hq Hnz. cbn [DispatchEx_Release].
  rewrite (bind_run _ _ _ _ _ (upd_obj_run _ _ _ _ Hq)).
  erewrite bind_run; [|apply obj_run; simpl; apply lookup_insert_eq]. simpl.
  destruct (Z.eqb_spec (as_LONG (ref oq - 1)) 0); [done|]. done.
Qed.

Lemma VariantClear_keeps_run fuel v st :
  release_keeps st v ->
  exists st1, VariantClear (DispatchEx_Release (S fuel)) v st = Ret (tt, st1) /\
              refs_only st st1 /\ allocs st1 = allocs st /\ log st1 = log st /\
              brk st1 = brk st.
Proof.
  intros Hk. destruct v as [| | |q]; try (exists st; split; [done|];
    split; [apply refs_only_refl|done]).
  destruct Hk as (oq & Hq & Hnz). unfold VariantClear.
  erewrite bind_run; [|by apply Release_keeps_run]. eexists. split; [done|].
  split; [by apply refs_only_set_ref|done].
Qed.

Lemma VariantCopy_granted_run release src st :
  copy_granted st src ->
  exists st1, VariantCopy release (Some VT_EMPTY) src st = Ret ((S_OK, Some src), st1) /\
              refs_only st st1 /\ log st1 = log st /\ brk st1 = brk st.
Proof.
  intros Hg. unfold VariantCopy, VariantClear.
  erewrite bind_run; [|apply ret_run].
  destruct src as [| |s|p]; try (exists st; split; [done|];
    split; [apply refs_only_refl|done]).
  - simpl in Hg. unfold bind, heap_alloc. destruct (allocs st) as [|a rest]; simpl in *.
    + exists st. split; [done|]. split; [apply refs_only_refl|done].
    + subst a. eexists. split; [done|]. split; [by apply refs_only_same_objs|done].
  - destruct Hg as [op Hp]. erewrite bind_run; [|by apply AddRef_run].
    eexists. split; [done|]. split; [by apply refs_only_set_ref|done].
Qed.

Lemma refs_only_with_slot st st' this o o' i q :
  refs_only st st' -> objs st !! this = Some o -> objs st' !! this = Some o' ->
  refs_only (with_slot st this o i q) (with_slot st' this o' i q).
Proof.
  intros Hr Ho Ho' p. unfold with_slot; simpl. destruct (decide (this = p)) as [<-|Hne].
  - rewrite !lookup_insert_eq. pose proof (Hr this) as Hs. rewrite Ho, Ho' in Hs.
    unfold same_but_ref in *. simpl. rewrite (same_but_ref_props _ _ Hs).
    apply (f_equal (fun x => set_props x (<[i:=q]> (props o)))) in Hs. exact Hs.
  - rewrite !lookup_insert_ne by done. apply Hr.
Qed.

Lemma copy_granted_refs_only st st' src :
  refs_only st st' -> allocs st' = allocs st -> copy_granted st src -> copy_granted st' src.
Proof.
  intros Hr Ha. destruct src as [| |s|p]; simpl; try done; [congruence|].
  intros [op Hp]. destruct (refs_only_lookup _ _ _ _ Hr Hp) as (o' & Ho' & _). eauto.
Qed.

(** The switch of [prop_put] on a slot it assigns to: the slot is
    normalized, and at most reference counts change besides. *)
Lemma prop_put_switch_run fuel st this o i prop dp :
  objs st !! this = Some o -> props o !! i = Some prop -> put_assigns st prop ->
  exists st1,
    prop_put_switch (S fuel) this i prop dp st = Ret (None, st1) /\
    refs_only (with_slot st this o i (normalized prop)) st1 /\
    allocs st1 = allocs st /\ log st1 = log st /\ brk st1 = brk st.
Proof.
  intros Ho Hprop Hput. unfold prop_put_switch, put_assigns in *.
  assert (Hshadow : type prop <> PROP_VARIANT ->
    exists st1,
      (upd_slot this i (fun q => set_u (u_var VT_EMPTY)
                                   (set_flags PROPF_ENUM (set_type PROP_VARIANT q))) ;;;
       ret None) st = Ret (@None HRESULT, st1) /\
      refs_only (with_slot st this o i (normalized prop)) st1 /\
      allocs st1 = allocs st /\ log st1 = log st /\ brk st1 = brk st).
  { intros Hne. rewrite (bind_run _ _ _ _ _ (upd_slot_run _ _ _ _ _ _ Ho Hprop)).
    eexists. split; [done|]. split; [|done]. unfold normalized.
    rewrite decide_False by done. apply refs_only_refl. }
  destruct (type prop) eqn:Hty; try done.
  - destruct Hput as (v & Hu & Hkeep).
    destruct (VariantClear_keeps_run fuel v st Hkeep) as (sta & Hclr & Hr & Hal & Hlog & Hbrk).
    destruct (refs_only_lookup _ _ _ _ Hr Ho) as (oa & Hoa & Hsame).
    pose proof (same_but_ref_props _ _ Hsame) as Hprops.
    unfold VariantClear_slot.
    erewrite bind_run; [|erewrite bind_run; [|by eapply slot_run]; rewrite Hu;
      erewrite bind_run; [|exact Hclr]; eapply upd_slot_run; [done|by rewrite Hprops]].
    eexists. split; [done|]. split; [|done].
    replace (normalized prop) with (set_u (u_var VT_EMPTY) prop).
    + exact (refs_only_with_slot _ _ _ _ _ _ (set_u (u_var VT_EMPTY) prop) Hr Ho Hoa).
    + unfold normalized, set_u. rewrite Hty. by rewrite decide_True.
  - destruct (Z.eqb_spec (Z.land (flags prop) PROPF_METHOD) 0); [done|].
    by apply Hshadow.
  - by apply Hshadow.
Qed.

Lemma find_named_arg_bound ids id k : (k <= find_named_arg ids id k <= k + length ids)%nat.
Proof.
  revert k; induction ids as [|x ids IH]; intros k; simpl; [lia|].
  destruct (x =? id); [lia|]. specialize (IH (S k)). lia.
Qed.

Lemma find_named_arg_absent ids id k :
  id ∉ ids -> find_named_arg ids id k = (k + length ids)%nat.
Proof.
  revert k; induction ids as [|x ids IH]; intros k Hn; simpl; [lia|].
  apply not_elem_of_cons in Hn as [Hne Hn].
  destruct (Z.eqb_spec x id); [congruence|]. rewrite IH by done. lia.
Qed.

(** [prop_put] past the switch, when a value is supplied and its copy is
    granted: the slot receives the value. *)
Lemma prop_put_assign_run fuel st this o i q dp src :
  objs st !! this = Some o -> props o !! i = Some q -> u q = u_var VT_EMPTY ->
  let k := find_named_arg (rgdispidNamedArgs dp) DISPID_PROPERTYPUT 0 in
  (k < length (rgdispidNamedArgs dp))%nat -> rgvarg dp !! k = Some src ->
  copy_granted st src -> on_put (builtin_info o) = None ->
  exists st',
    prop_put_assign fuel this i dp st = Ret (S_OK, st') /\
    refs_only (with_slot st this o i (set_u (u_var src) q)) st' /\
    log st' = log st /\ brk st' = brk st.
Proof.
  intros Ho Hq Hu k Hk Hsrc Hg Hput. unfold prop_put_assign. fold k.
  destruct (Nat.eqb_spec k (length (rgdispidNamedArgs dp))); [lia|]. rewrite Hsrc.
  rewrite (bind_run _ _ _ _ _ (slot_run _ _ _ _ _ Ho Hq)). rewrite Hu.
  destruct (VariantCopy_granted_run (DispatchEx_Release fuel) src st Hg)
    as (stb & Hcopy & Hr & Hlog & Hbrk).
  rewrite (bind_run _ _ _ _ _ Hcopy). simpl.
  destruct (refs_only_lookup _ _ _ _ Hr Ho) as (ob & Hob & Hsame).
  pose proof (same_but_ref_props _ _ Hsame) as Hprops.
  erewrite bind_run; [|eapply upd_slot_run; [done|by rewrite Hprops]].
  change (FAILED S_OK) with false. cbv iota.
  erewrite bind_run; [|apply obj_run; simpl; apply lookup_insert_eq].
  erewrite bind_run; [|eapply slot_run; [simpl; apply lookup_insert_eq|]; simpl;
    apply list_lookup_insert_eq; rewrite Hprops; by eapply lookup_lt_Some].
  simpl. assert (Hbi : builtin_info ob = builtin_info o)
    by (by apply (f_equal builtin_info) in Hsame).
  rewrite Hbi, Hput. eexists. split; [done|]. split; [|done].
  fold (with_slot stb this ob i (set_u (u_var src) q)).
  by apply refs_only_with_slot.
Qed.

Lemma refs_only_with_slot_inv st this o i q st' :
  objs st !! this = Some o ->
  refs_only (with_slot st this o i q) st' ->
  (exists o', objs st' !! this = Some o' /\ props o' = <[i := q]> (props o) /\
              prototype o' = prototype o /\ builtin_info o' = builtin_info o) /\
  (forall p, p <> this -> props <$> (objs st' !! p) = props <$> (objs st !! p)).
Proof.
  intros Ho Hr. split.
  - specialize (Hr this). unfold with_slot in Hr; simpl in Hr.
    rewrite lookup_insert_eq in Hr. destruct (objs st' !! this) as [o'|]; [|done].
    exists o'. split; [done|].
    split; [by apply (f_equal props) in Hr|].
    split; [by apply (f_equal prototype) in Hr|by apply (f_equal builtin_info) in Hr].
  - intros p Hne. specialize (Hr p). unfold with_slot in Hr; simpl in Hr.
    rewrite lookup_insert_ne in Hr by done.
    destruct (objs st !! p), (objs st' !! p); try done. simpl. f_equal.
    by apply (f_equal props) in Hr.
Qed.
End Put.

Lemma find_prop_name_scan_first ps nm : forall k i q,
  ps !! i = Some q -> name q = Some nm ->
  exists i0 q0, (i0 <= i)%nat /\ ps !! i0 = Some q0 /\ name q0 = Some nm /\
                find_prop_name_scan ps (Some nm) k = Ret (Some (k + i0)%nat).
Proof.
  induction ps as [|prop ps IH]; intros k i q Hq Hn; [by rewrite lookup_nil in Hq|].
  cbn [find_prop_name_scan].
  assert (Hnext : (name prop = Some nm -> False) ->
    exists i0 q0, (i0 <= i)%nat /\ (prop :: ps) !! i0 = Some q0 /\ name q0 = Some nm /\
                  find_prop_name_scan ps (Some nm) (S k) = Ret (Some (k + i0)%nat)).
  { intros Hne. destruct i as [|i]; [simpl in Hq; injection Hq as ->; done|].
    destruct (IH (S k) i q Hq Hn) as (i0 & q0 & Hle & Hq0 & Hn0 & Hscan).
    exists (S i0), q0. split; [lia|]. split; [done|]. split; [done|].
    rewrite Hscan. do 2 f_equal. lia. }
  destruct (name prop) as [n|] eqn:En; [|apply Hnext; done].
  cbn [strcmpW_ptr]. destruct (Z.eqb_spec (strcmpW n nm) 0) as [E|Hne].
  - apply strcmpW_eq in E as ->. exists 0%nat, prop.
    split; [lia|]. split; [done|]. split; [done|]. do 2 f_equal. lia.
  - apply Hnext. intros [= ->]. by rewrite strcmpW_refl in Hne.
Qed.

Lemma find_prop_name_own this nm st o i0 :
  objs st !! this = Some o ->
  find_prop_name_scan (props o) nm 0 = Ret (Some i0) ->
  find_prop_name this nm st = Ret ((S_OK, Some i0), st).
Proof.
  intros Ho Hscan. unfold find_prop_name.
  rewrite (bind_run _ _ _ _ _ (obj_run _ _ _ Ho)). rewrite Hscan. done.
Qed.

Lemma get_prop_live o i q :
  props o !! i = Some q -> type q <> PROP_DELETED -> get_prop o (Z.of_nat i) = Some i.
Proof.
  intros Hq Hty. unfold get_prop. pose proof (lookup_lt_Some _ _ _ Hq).
  destruct (Z.ltb_spec (Z.of_nat i) 0); [lia|].
  destruct (Z.leb_spec (prop_cnt o) (Z.of_nat i)); [unfold prop_cnt in *; lia|]. simpl.
  rewrite Nat2Z.id, Hq. by rewrite decide_False.
Qed.

Lemma refs_only_slot_becomes st this o i q st' :
  objs st !! this = Some o -> refs_only (with_slot st this o i q) st' ->
  slot_becomes this i q st st'.
Proof.
  intros Ho Hr. destruct (refs_only_with_slot_inv _ _ _ _ _ _ Ho Hr) as [(o' & Ho' & Hp & _) Hothers].
  split; [|done]. eauto.
Qed.

Lemma put_assigns_live st q : put_assigns st q -> type q <> PROP_DELETED.
Proof. unfold put_assigns. destruct (type q); done. Qed.

Lemma InvokeEx_put_run `{Host} fuel this o i q dp res st :
  objs st !! this = Some o -> props o !! i = Some q -> type q <> PROP_DELETED ->
  DispatchEx_InvokeEx fuel this (prop_to_id i) DISPATCH_PROPERTYPUT dp res st
  = (hres <- prop_put fuel this i dp ;;
     ret (hres, match res with Some _ => Some VT_EMPTY | None => None end)) st.
Proof.
  intros Ho Hq Hty. unfold DispatchEx_InvokeEx, prop_to_id.
  rewrite (bind_run _ _ _ _ _ (obj_run _ _ _ Ho)). by rewrite (get_prop_live o i q).
Qed.

(** What a put without a value under the property-put named argument does
    on a slot the engine assigns to itself (a Value slot, a ProtoRef slot, a
    method-like Builtin slot): ParamMissing is reported after the slot has
    been normalized, so the slot keeps its name, its kind is Value and its
    payload is empty; a Value slot keeps its flags, a shadowed slot becomes
    enumerable; no other table changes.  On a Builtin slot that is not
    method-like the put is the descriptor's, whose result is returned. *)
Theorem put_without_value `{Host} (fuel : nat) (st : state) (this : ptr) (o : DispatchEx)
    (i : nat) (prop : dispex_prop_t) (dp : DISPPARAMS) (res : option VARIANT) :
  objs st !! this = Some o -> props o !! i = Some prop ->
  DISPID_PROPERTYPUT ∉ rgdispidNamedArgs dp ->
  (put_assigns st prop ->
   exists st',
     DispatchEx_InvokeEx (S fuel) this (prop_to_id i) DISPATCH_PROPERTYPUT dp res st
     = Ret ((DISP_E_PARAMNOTOPTIONAL,
             match res with Some _ => Some VT_EMPTY | None => None end), st') /\
     slot_becomes this i (normalized prop) st st') /\
  (type prop = PROP_BUILTIN -> Z.land (flags prop) PROPF_METHOD = 0 ->
   forall b f, u prop = u_p b -> b_invoke b = Some f ->
   DispatchEx_InvokeEx (S fuel) this (prop_to_id i) DISPATCH_PROPERTYPUT dp res st
   = (r <- builtin_invoke f this DISPATCH_PROPERTYPUT dp None ;;
      ret (fst r, match res with Some _ => Some VT_EMPTY | None => None end)) st).
Proof.
  intros Ho Hprop Hnone. split.
  - intros Hput. rewrite (InvokeEx_put_run _ _ o i prop) by eauto using put_assigns_live.
    destruct (prop_put_switch_run fuel st this o i prop dp Ho Hprop Hput)
      as (st1 & Hsw & Hr & _).
    exists st1. split; [|by eapply refs_only_slot_becomes].
    assert (Hrun : prop_put (S fuel) this i dp st = Ret (DISP_E_PARAMNOTOPTIONAL, st1)).
    { unfold prop_put. rewrite (bind_run _ _ _ _ _ (slot_run _ _ _ _ _ Ho Hprop)).
      rewrite (bind_run _ _ _ _ _ Hsw).
      unfold prop_put_assign. rewrite (find_named_arg_absent _ _ _ Hnone).
      by rewrite Nat.eqb_refl. }
    by rewrite (bind_run _ _ _ _ _ Hrun).
  - intros Hty Hland b f Hu Hf.
    rewrite (InvokeEx_put_run _ _ o i prop) by (eauto; congruence).
    unfold prop_put, prop_put_switch, bind, slot. rewrite Ho, Hprop, Hty, Hland, Hu, Hf.
    simpl. destruct (builtin_invoke f this DISPATCH_PROPERTYPUT dp None st)
      as [[[hres v] st1]| |]; done.
Qed.

(** Object O with prototype P, both defining name N: the lookup on O finds
    O's own slot and changes nothing; a get on an own Value slot returns O's
    value; a put through O on an inherited slot, a method-like built-in slot
    or an own Value slot whose old payload can be released without
    destroying an object (no allocation refused, no put hook) makes the
    local slot an own Value slot with the new value and leaves the table of
    P, and of every other object, as it was. *)
Theorem own_slot_wins_and_put_shadows `{Host} (st : state) (O P : ptr) (o po : DispatchEx)
    (N : wstring) (i j : nat) (q qj : dispex_prop_t) :
  objs st !! O = Some o -> prototype o = Some P -> O <> P -> objs st !! P = Some po ->
  props o !! i = Some q -> name q = Some N ->
  props po !! j = Some qj -> name qj = Some N ->
  exists i0 q0,
    (i0 <= i)%nat /\ props o !! i0 = Some q0 /\ name q0 = Some N /\
    (forall fuel alloc,
       find_prop_name_prot (S fuel) O (Some N) alloc st = Ret ((S_OK, Some i0), st)) /\
    (forall fuel dp res v,
       type q0 = PROP_VARIANT -> u q0 = u_var v -> copy_granted st v ->
       exists st',
         DispatchEx_InvokeEx (S fuel) O (prop_to_id i0) DISPATCH_PROPERTYGET dp (Some res) st
         = Ret ((S_OK, Some v), st') /\
         refs_only st st') /\
    (forall fuel dp res src,
       put_assigns st q0 -> put_value dp src -> copy_granted st src ->
       on_put (builtin_info o) = None ->
       exists st' po',
         DispatchEx_InvokeEx (S fuel) O (prop_to_id i0) DISPATCH_PROPERTYPUT dp res st
         = Ret ((S_OK, match res with Some _ => Some VT_EMPTY | None => None end), st') /\
         slot_becomes O i0 (set_u (u_var src) (normalized q0)) st st' /\
         objs st' !! P = Some po' /\ props po' = props po).
Proof.
  intros Ho Hproto Hne Hpo Hq Hn Hqj Hnj.
  destruct (find_prop_name_scan_first (props o) N 0%nat i q Hq Hn)
    as (i0 & q0 & Hle & Hq0 & Hn0 & Hscan).
  exists i0, q0. split; [done|]. split; [done|]. split; [done|]. split; [|split].
  - intros fuel alloc. cbn [find_prop_name_prot].
    rewrite (bind_run _ _ _ _ _ (find_prop_name_own _ _ _ _ _ Ho Hscan)). done.
  - intros fuel dp res v Hty Hu Hg. unfold DispatchEx_InvokeEx, prop_to_id.
    rewrite (bind_run _ _ _ _ _ (obj_run _ _ _ Ho)).
    rewrite (get_prop_live o i0 q0) by (done || congruence). simpl.
    cbn [prop_get]. rewrite (bind_run _ _ _ _ _ (obj_run _ _ _ Ho)).
    rewrite (bind_run _ _ _ _ _ (slot_run _ _ _ _ _ Ho Hq0)). rewrite Hty, Hu.
    destruct (VariantCopy_granted_run (DispatchEx_Release fuel) v st Hg)
      as (st' & Hcopy & Hr & _). eauto.
  - intros fuel dp res src Hput [Hk Hsrc] Hg Hhook.
    rewrite (InvokeEx_put_run _ _ o i0 q0) by eauto using put_assigns_live.
    destruct (prop_put_switch_run fuel st O o i0 q0 dp Ho Hq0 Hput)
      as (st1 & Hsw & Hr1 & Hal1 & _).
    destruct (refs_only_with_slot_inv _ _ _ _ _ _ Ho Hr1)
      as [(o1 & Ho1 & Hp1 & _ & Hbi1) _].
    assert (Hq1 : props o1 !! i0 = Some (normalized q0)).
    { rewrite Hp1. apply list_lookup_insert_eq. by eapply lookup_lt_Some. }
    assert (Hg1 : copy_granted st1 src).
    { eapply copy_granted_refs_only; [exact Hr1|done|].
      destruct src as [| |s|p]; try done. simpl in *. unfold with_slot; simpl.
      destruct (decide (O = p)) as [<-|]; [rewrite lookup_insert_eq; eauto|].
      by rewrite lookup_insert_ne. }
    destruct (prop_put_assign_run (S fuel) st1 O o1 i0 (normalized q0) dp src
                Ho1 Hq1 eq_refl Hk Hsrc Hg1 ltac:(by rewrite Hbi1))
      as (st2 & Has & Hr2 & _).
    assert (Hfinal : refs_only
              (with_slot st O o i0 (set_u (u_var src) (normalized q0))) st2).
    { eapply refs_only_trans; [|exact Hr2]. intros p. unfold with_slot; simpl.
      destruct (decide (O = p)) as [<-|Hnp].
      - rewrite !lookup_insert_eq. specialize (Hr1 O). unfold with_slot in Hr1; simpl in Hr1.
        rewrite lookup_insert_eq, Ho1 in Hr1. unfold same_but_ref in *. simpl.
        rewrite Hp1. rewrite !list_insert_insert_eq.
        apply (f_equal (fun x => set_props x
                 (<[i0:=set_u (u_var src) (normalized q0)]> (props o)))) in Hr1.
        exact Hr1.
      - rewrite !lookup_insert_ne by done. specialize (Hr1 p).
        unfold with_slot in Hr1; simpl in Hr1. by rewrite lookup_insert_ne in Hr1. }
    destruct (refs_only_with_slot_inv _ _ _ _ _ _ Ho Hfinal) as [_ Hothers].
    pose proof (Hothers P ltac:(congruence)) as HP. rewrite Hpo in HP.
    destruct (objs st2 !! P) as [po'|] eqn:Hpo'; [|done]. simpl in HP.
    exists st2, po'. split; [|split; [by eapply refs_only_slot_becomes|split; congruence]].
    assert (Hrun : prop_put (S fuel) O i0 dp st = Ret (S_OK, st2)).
    { unfold prop_put. rewrite (bind_run _ _ _ _ _ (slot_run _ _ _ _ _ Ho Hq0)).
      by rewrite (bind_run _ _ _ _ _ Hsw). }
    by rewrite (bind_run _ _ _ _ _ Hrun).
Qed.

(** ** Release *)

Lemma set_props_id o : set_props o (props o) = o.
Proof. by destruct o. Qed.

Lemma drop_ref_insert_ne m this a q :
  q <> this -> drop_ref (<[this := a]> m) q = <[this := a]> (drop_ref m q).
Proof.
  intros Hne. unfold drop_ref. apply map_eq. intros p.
  destruct (decide (p = q)) as [->|Hpq].
  - rewrite lookup_alter_eq, !lookup_insert_ne, lookup_alter_eq by done. done.
  - rewrite lookup_alter_ne by done. destruct (decide (p = this)) as [->|].
    + by rewrite !lookup_insert_eq.
    + by rewrite !lookup_insert_ne, lookup_alter_ne by done.
Qed.

Lemma can_drop_insert this qs : forall m a,
  can_drop this qs m -> can_drop this qs (<[this := a]> m).
Proof.
  induction qs as [|q qs IH]; intros m a; simpl; [done|].
  intros (Hne & (oq & Hq & Hnz) & Hrest). split; [done|]. split.
  - exists oq. by rewrite lookup_insert_ne.
  - rewrite drop_ref_insert_ne by done. by apply IH.
Qed.

Lemma drop_refs_insert this qs : forall m a,
  can_drop this qs m -> drop_refs qs (<[this := a]> m) = <[this := a]> (drop_refs qs m).
Proof.
  induction qs as [|q qs IH]; intros m a; simpl; [done|].
  intros (Hne & _ & Hrest). rewrite drop_ref_insert_ne by done. by apply IH.
Qed.

Lemma can_drop_app this qs1 qs2 m :
  can_drop this (qs1 ++ qs2) m <->
  can_drop this qs1 m /\ can_drop this qs2 (drop_refs qs1 m).
Proof.
  revert m; induction qs1 as [|q qs1 IH]; intros m; simpl; [tauto|].
  rewrite IH. tauto.
Qed.

Lemma drop_refs_app qs1 qs2 m : drop_refs (qs1 ++ qs2) m = drop_refs qs2 (drop_refs qs1 m).
Proof. apply foldl_app. Qed.

Section Release.
Context `{Host}.

(** [VariantClear] of a payload whose release destroys nothing. *)
Lemma VariantClear_drop_run fuel this v st :
  can_drop this (payload_hold v) (objs st) ->
  VariantClear (DispatchEx_Release (S fuel)) v st
  = Ret (tt, set_objs st (drop_refs (payload_hold v) (objs st))).
Proof.
  intros Hd. destruct v as [| | |q]; simpl; try by destruct st.
  destruct Hd as (_ & (oq & Hq & Hnz) & _). unfold VariantClear.
  erewrite bind_run; [|by apply Release_keeps_run].
  unfold ret. do 2 f_equal. unfold set_objs, drop_ref. simpl. f_equal.
  apply map_eq. intros p. destruct (decide (p = q)) as [->|Hne].
  - by rewrite lookup_insert_eq, lookup_alter_eq, Hq.
  - by rewrite lookup_insert_ne, lookup_alter_ne.
Qed.

(** The loop of [DispatchEx_Release] over the slots [rest] that follow
    the slots [pre]. *)
Lemma release_props_loop_run fuel this : forall rest pre o st n,
  objs st !! this = Some o -> props o = pre ++ rest ->
  (length rest <= n)%nat ->
  payloads_ok rest -> can_drop this (holds rest) (objs st) ->
  release_props_loop (DispatchEx_Release (S fuel)) n this (length pre) st
  = Ret (tt, {| objs := (<[this := set_props o (pre ++ (cleared <$> rest))]>
                           (drop_refs (holds rest) (objs st)));
                brk := brk st; allocs := allocs st;
                log := log st ++ free_names this rest |}).
Proof.
  induction rest as [|prop rest IH]; intros pre o st n Ho Hps Hn Hok Hdrop.
  - assert (Hcnt : (prop_cnt o <=? Z.of_nat (length pre)) = true).
    { apply Z.leb_le. unfold prop_cnt. rewrite Hps, length_app. simpl. lia. }
    assert (Hloop : release_props_loop (DispatchEx_Release (S fuel)) n this (length pre) st
                    = Ret (tt, st)).
    { destruct n; cbn [release_props_loop];
        rewrite (bind_run _ _ _ _ _ (obj_run _ _ _ Ho)); by rewrite Hcnt. }
    rewrite Hloop. do 2 f_equal. destruct st as [m bk al lg]; simpl in *.
    rewrite (right_id_L [] app lg). f_equal.
    rewrite <- Hps, set_props_id. by rewrite insert_id.
  - destruct n as [|n]; [simpl in Hn; lia|]. cbn [release_props_loop].
    rewrite (bind_run _ _ _ _ _ (obj_run _ _ _ Ho)).
    assert (Hcnt : (prop_cnt o <=? Z.of_nat (length pre)) = false).
    { apply Z.leb_gt. unfold prop_cnt. rewrite Hps, length_app. simpl. lia. }
    rewrite Hcnt.
    assert (Hprop : props o !! length pre = Some prop)
      by (rewrite Hps; apply list_lookup_middle; done).
    rewrite (bind_run _ _ _ _ _ (slot_run _ _ _ _ _ Ho Hprop)).
    apply Forall_cons in Hok as [Hokp Hok].
    change (holds (prop :: rest)) with (slot_holds prop ++ holds rest) in *.
    apply can_drop_app in Hdrop as [Hdrop1 Hdrop2].
    (* the state after the payload of this slot is cleared *)
    set (o1 := set_props o (pre ++ cleared prop :: rest)).
    set (st1 := set_objs st (<[this := o1]> (drop_refs (slot_holds prop) (objs st)))).
    assert (Hclear :
      (if decide (type prop = PROP_VARIANT)
       then VariantClear_slot (DispatchEx_Release (S fuel)) this (length pre)
       else ret tt) st = Ret (tt, st1)).
    { unfold cleared in o1. subst st1 o1. unfold slot_holds in *.
      destruct (decide (type prop = PROP_VARIANT)) as [Hty|Hty].
      - destruct (Hokp Hty) as [v Hu]. rewrite Hty, Hu in *.
        unfold VariantClear_slot.
        rewrite (bind_run _ _ _ _ _ (slot_run _ _ _ _ _ Ho Hprop)). rewrite Hu.
        rewrite (bind_run _ _ _ _ _ (VariantClear_drop_run fuel this v st Hdrop1)).
        assert (Ho' : objs (set_objs st (drop_refs (payload_hold v) (objs st))) !! this
                      = Some o).
        { simpl. rewrite <- (insert_id (objs st) this o Ho) at 1.
          rewrite drop_refs_insert by done. apply lookup_insert_eq. }
        rewrite (upd_slot_run _ _ _ _ _ _ Ho' Hprop). do 2 f_equal.
        unfold set_objs; simpl. f_equal. f_equal. f_equal.
        rewrite Hps. rewrite insert_app_r_alt by done. by rewrite Nat.sub_diag.
      - assert (Hh : match type prop with
                     | PROP_VARIANT => match u prop with u_var v => payload_hold v | _ => [] end
                     | _ => []
                     end = []) by (destruct (type prop); done).
        rewrite Hh. simpl. unfold ret. do 2 f_equal. destruct st as [m bk al lg]; simpl in *.
        unfold set_objs; simpl. f_equal. rewrite <- Hps, set_props_id. by rewrite insert_id. }
    rewrite (bind_run _ _ _ _ _ Hclear).
    assert (Ho1 : objs st1 !! this = Some o1) by (subst st1; simpl; apply lookup_insert_eq).
    assert (Hprop1 : props o1 !! length pre = Some (cleared prop))
      by (subst o1; simpl; apply list_lookup_middle; done).
    rewrite (bind_run _ _ _ _ _ (slot_run _ _ _ _ _ Ho1 Hprop1)).
    unfold bind at 1. unfold emit at 1.
    assert (Hname : name (cleared prop) = name prop)
      by (unfold cleared; destruct (decide _); done).
    rewrite Hname.
    replace (S (length pre)) with (length (pre ++ [cleared prop]))
      by (rewrite length_app; simpl; lia).
    erewrite IH; [| simpl; exact Ho1 | subst o1; simpl; by rewrite <- app_assoc
                  | simpl in Hn; lia | done
                  | simpl; subst st1; simpl; by apply can_drop_insert ].
    do 2 f_equal. simpl. f_equal.
    + subst st1; simpl. rewrite drop_refs_insert by done. rewrite insert_insert_eq.
      rewrite drop_refs_app. f_equal. subst o1. unfold set_props; simpl.
      f_equal. by rewrite <- app_assoc.
    + by rewrite <- app_assoc.
Qed.

Lemma bind_bind {A B C} (m : M A) (k : A -> M B) (k' : B -> M C) st :
  (y <- (x <- m ;; k x) ;; k' y) st = (x <- m ;; (y <- k x ;; k' y)) st.
Proof. unfold bind. destruct (m st) as [[a st1]| |]; done. Qed.

(** The release that brings the count of an object to zero, when no
    payload holds the last count of another object: the payload of every
    Value slot is released (a payload that is an object reference gives up
    one count of that object), every name is freed, then the slot array,
    the script context is released, and the class finalizer runs in place
    of the generic deallocation when one is registered.  There is no step
    for the prototype field: what gives the count of the prototype back is
    the payload of the reserved slot 1, as long as that slot holds it. *)
Theorem DispatchEx_Release_last (fuel : nat) (st : state) (this : ptr) (o : DispatchEx) :
  objs st !! this = Some o -> ref o = 1 ->
  payloads_ok (props o) -> can_drop this (holds (props o)) (objs st) ->
  let kept := drop_refs (holds (props o)) (objs st) in
  let st_pre :=
    {| objs := <[this := set_props (set_ref o 0) (cleared <$> props o)]> kept;
       brk := brk st; allocs := allocs st;
       log := log st ++ free_names this (props o) ++
              [heap_free_props this; script_release (ctx o)] |} in
  DispatchEx_Release (S (S fuel)) this st
  = match destructor (builtin_info o) with
    | Some d => (destructor_hook d this ;;; ret 0) st_pre
    | None => Ret (0, {| objs := delete this kept; brk := brk st; allocs := allocs st;
                         log := log st_pre ++ [heap_free_This this] |})
    end.
Proof.
  intros Ho Href Hok Hdrop kept st_pre.
  cbn [DispatchEx_Release].
  rewrite (bind_run _ _ _ _ _ (upd_obj_run _ _ _ _ Ho)). rewrite Href.
  change (as_LONG (1 - 1)) with 0.
  set (o0 := set_ref o 0). set (st0 := set_objs st (<[this := o0]> (objs st))).
  assert (Ho0 : objs st0 !! this = Some o0) by apply lookup_insert_eq.
  rewrite (bind_run _ _ _ _ _ (obj_run _ _ _ Ho0)).
  change (ref o0 =? 0) with true. cbv iota.
  pose proof (release_props_loop_run fuel this (props o) [] o0 st0
                (length (props o0)) Ho0 eq_refl (Nat.le_refl _) Hok
                (can_drop_insert _ _ _ _ Hdrop)) as Hloop.
  change (length []) with 0%nat in Hloop.
  rewrite bind_bind, (bind_run _ _ _ _ _ Hloop).
  rewrite bind_bind. erewrite bind_run; [|reflexivity].
  rewrite bind_bind. erewrite bind_run; [|apply obj_run; simpl; apply lookup_insert_eq].
  rewrite bind_bind. erewrite bind_run; [|reflexivity].
  simpl.
  assert (Eobjs : <[this := set_props o0 (cleared <$> props o)]>
                    (drop_refs (holds (props o)) (<[this := o0]> (objs st)))
                  = <[this := set_props (set_ref o 0) (cleared <$> props o)]> kept).
  { subst kept. rewrite drop_refs_insert by done. by rewrite insert_insert_eq. }
  rewrite Eobjs. subst st_pre.
  assert (Elog : ((log st ++ free_names this (props o)) ++ [heap_free_props this]) ++
                 [script_release (ctx o)]
                 = log st ++ free_names this (props o) ++
                   [heap_free_props this; script_release (ctx o)]).
  { rewrite <- !app_assoc. done. }
  rewrite Elog.
  destruct (destructor (builtin_info o)) as [d|]; [done|].
  unfold ret, free_obj, emit, bind, set_objs; simpl.
  by rewrite delete_insert_eq.
Qed.
End Release.

(** ** Sequences of calls *)

Section Calls.
Context `{Host}.
Hypothesis Hhost : host_evolves H.

Lemma run_call_evolves c st r st' : run_call c st = Ret (r, st') -> evolves st st'.
Proof.
  destruct c; cbn [run_call]; intros (x & st1 & Hrun & [_ ->]%ret_inv)%bind_inv.
  - eapply (pres_to_evolves _ (fun b => pres_GetDispID b _ _ _ _)); eauto.
  - eapply (pres_to_evolves _ (fun b => pres_InvokeEx Hhost b _ _ _ _ _ _)); eauto.
  - eapply (pres_to_evolves _ (fun b => pres_GetNextDispID b _ _ _ _)); eauto.
  - eapply (pres_to_evolves _ (fun b => pres_AddRef b _)); eauto.
  - eapply (pres_to_evolves _ (fun b => pres_Release Hhost b _ _)); eauto.
  - eapply pres_create_dispex; eauto.
Qed.

Lemma run_calls_evolves cs : forall st r st',
  run_calls cs st = Ret (r, st') -> evolves st st'.
Proof.
  induction cs as [|c cs IH]; intros st r st'; cbn [run_calls].
  - intros [_ ->]%ret_inv. apply evolves_refl.
  - intros (x & st1 & Hc & Hrest)%bind_inv.
    eapply evolves_trans; [eapply run_call_evolves|eapply IH]; eauto.
Qed.
End Calls.

Lemma kind_step_from_deleted k' : kind_step PROP_DELETED k' -> k' = PROP_DELETED.
Proof. intros [?|[[? ?]|[[?|?] ?]]]; done. Qed.

Lemma kind_step_from_variant k' :
  kind_step PROP_VARIANT k' -> k' = PROP_VARIANT \/ k' = PROP_DELETED.
Proof. intros [?|[[? ?]|[[?|?] ?]]]; auto; done. Qed.

Lemma proto_slot_quiet_evolves st st' this :
  proto_slot_quiet st this -> evolves st st' -> proto_slot_quiet st' this.
Proof.
  intros [Hlt Hq] [Hbrk He]. split; [lia|]. intros o' Ho'.
  specialize (He this Hlt). rewrite Ho' in He.
  destruct (objs st !! this) as [o|] eqn:Ho; [|done].
  destruct (Hq o eq_refl) as (q & Hq1 & Hfl & Hty).
  destruct (He 1%nat q Hq1) as (q' & Hq' & Hn & Hk & Hf).
  exists q'. split; [done|]. split; [rewrite (Hf Hty); done|].
  destruct Hty as [Hty|Hty]; rewrite Hty in Hk.
  - by apply kind_step_from_variant.
  - right. by apply kind_step_from_deleted.
Qed.

Lemma get_flags_quiet fuel this st fl st' :
  proto_slot_quiet st this -> get_flags fuel this 1%nat st = Ret (fl, st') -> fl = 0.
Proof.
  intros [_ Hq] Hrun. destruct fuel as [|fuel]; cbn [get_flags] in Hrun;
    [destruct (timeout_inv _ _ Hrun)|].
  apply bind_inv in Hrun as (prop & st1 & Hslot & Hrun).
  apply slot_inv in Hslot as [-> (o & Ho & Hprop)].
  destruct (Hq o Ho) as (q & Hq1 & Hfl & Hty). assert (prop = q) as -> by congruence.
  destruct (decide (type q = PROP_PROTREF)) as [E|_].
  - destruct Hty; congruence.
  - apply ret_inv in Hrun as [-> _]. done.
Qed.

Lemma GetNextDispID_loop_quiet fuel this n : forall i st hres pid st',
  proto_slot_quiet st this ->
  GetNextDispID_loop fuel n this i st = Ret ((hres, pid), st') ->
  ~ (hres = S_OK /\ pid = 1).
Proof.
  induction n as [|n IH]; intros i st hres pid st' Hq Hrun; cbn [GetNextDispID_loop] in Hrun;
    apply bind_inv in Hrun as (o & st1 & Hobj & Hrun); apply obj_inv in Hobj as [-> Ho].
  - destruct (prop_cnt o <=? Z.of_nat i); [|destruct (timeout_inv _ _ Hrun)].
    apply ret_inv in Hrun as [[= -> ->] _]. intros [? _]; done.
  - destruct (prop_cnt o <=? Z.of_nat i).
    { apply ret_inv in Hrun as [[= -> ->] _]. intros [? _]; done. }
    apply bind_inv in Hrun as (iter & st1 & Hslot & Hrun). apply slot_inv in Hslot as [-> _].
    destruct (name iter); [|by eapply IH].
    apply bind_inv in Hrun as (fl & st1 & Hfl & Hrun).
    assert (Hq1 : proto_slot_quiet st1 this).
    { eapply proto_slot_quiet_evolves; [done|].
      eapply (pres_to_evolves _ (fun b => pres_get_flags b fuel this i)); eauto. }
    destruct (Z.eqb_spec (Z.land fl PROPF_ENUM) 0) as [E0|Hne]; simpl in Hrun;
      [by eapply IH|].
    apply ret_inv in Hrun as [[= -> ->] _]. intros [_ Hid]. unfold prop_to_id in Hid.
    assert (i = 1%nat) as -> by lia.
    rewrite (get_flags_quiet _ _ _ _ _ Hq Hfl) in Hne. done.
Qed.

Lemma GetNextDispID_quiet fuel this grfdex id st hres pid st' :
  proto_slot_quiet st this ->
  DispatchEx_GetNextDispID fuel this grfdex id st = Ret ((hres, pid), st') ->
  ~ (hres = S_OK /\ pid = 1).
Proof.
  intros Hq Hrun. unfold DispatchEx_GetNextDispID in Hrun.
  apply bind_inv in Hrun as (hres0 & st1 & Hfill & Hrun).
  assert (Hq1 : proto_slot_quiet st1 this).
  { destruct (id =? DISPID_STARTENUM).
    - eapply proto_slot_quiet_evolves; [done|].
      eapply (pres_to_evolves _ (fun b => pres_fill_protrefs b fuel this)); eauto.
    - by apply ret_inv in Hfill as [_ ->]. }
  destruct (FAILED hres0) eqn:Hf.
  - apply ret_inv in Hrun as [[= -> ->] _]. intros [-> _]. done.
  - destruct (INT_MAX <? id + 1); [destruct (fault_inv _ _ Hrun)|].
    apply bind_inv in Hrun as (o & st2 & Hobj & Hrun). apply obj_inv in Hobj as [-> Ho].
    destruct (get_prop o (id + 1)).
    + by eapply GetNextDispID_loop_quiet.
    + apply ret_inv in Hrun as [[= -> ->] _]. intros [? _]; done.
Qed.

Lemma AddRef_inv this st r st' :
  DispatchEx_AddRef this st = Ret (r, st') ->
  brk st' = brk st /\
  forall p, p <> this -> objs st' !! p = objs st !! p.
Proof.
  unfold DispatchEx_AddRef. intros (x & st1 & Hupd & Hrun)%bind_inv.
  apply upd_obj_inv in Hupd as (o & Ho & ->).
  apply bind_inv in Hrun as (o' & st2 & Hobj & [_ ->]%ret_inv).
  apply obj_inv in Hobj as [-> _]. split; [done|]. intros p Hne. simpl.
  by rewrite lookup_insert_ne.
Qed.

(** [init_dispex] leaves slot 1 without flags, as a tombstone or, with a
    prototype, as the [Value] slot that holds it. *)
Lemma init_dispex_quiet `{Host} fuel d c info proto st hres st' :
  init_dispex fuel d c info proto st = Ret (hres, st') -> FAILED hres = false ->
  brk st' = brk st /\
  exists o q, objs st' !! d = Some o /\ props o !! 1%nat = Some q /\ flags q = 0 /\
              type q = match proto with Some _ => PROP_VARIANT | None => PROP_DELETED end.
Proof.
  unfold init_dispex. intros Hrun Hok.
  apply bind_inv in Hrun as ([] & st1 & Hput & Hrun).
  unfold put_obj in Hput. injection Hput as <-.
  apply bind_inv in Hrun as (granted & st2 & Hal & Hrun).
  apply heap_alloc_inv in Hal as (Hobjs2 & Hbrk2 & _).
  destruct granted; cbn [negb] in Hrun;
    [|apply ret_inv in Hrun as [-> _]; discriminate Hok].
  apply bind_inv in Hrun as ([] & st3 & Hadd & Hrun).
  assert (Hst3 : brk st3 = brk st2 /\ (d ∈ dom (objs st2) -> d ∈ dom (objs st3))).
  { destruct proto as [p|].
    - apply bind_inv in Hadd as (r & st4 & Hadd & [_ ->]%ret_inv).
      unfold DispatchEx_AddRef in Hadd.
      apply bind_inv in Hadd as (x & st5 & Hupd & Hadd).
      apply upd_obj_inv in Hupd as (o & Ho & ->).
      apply bind_inv in Hadd as (o' & st6 & Hobj & [_ ->]%ret_inv).
      apply obj_inv in Hobj as [-> _]. split; [done|]. simpl.
      rewrite dom_insert_L. set_solver.
    - by apply ret_inv in Hadd as [_ ->]. }
  destruct Hst3 as [Hbrk3 Hdom3].
  apply bind_inv in Hrun as (prototypeW & st4 & Hdup & Hrun).
  apply heap_strdupW_inv in Hdup as (_ & Hobjs4 & Hbrk4 & _).
  apply bind_inv in Hrun as ([] & st5 & Hupd & Hrun).
  apply upd_obj_inv in Hupd as (o4 & Ho4 & ->).
  apply bind_inv in Hrun as (failed & st6 & Hprot & Hrun).
  set (q1 := {| name := prototypeW; type := PROP_DELETED; flags := 0; u := u_undef |}) in *.
  assert (Hst6 : failed = None /\ brk st6 = brk st4 /\
            exists o q, objs st6 !! d = Some o /\ props o !! 1%nat = Some q /\
                        flags q = 0 /\
                        type q = match proto with
                                 | Some _ => PROP_VARIANT
                                 | None => PROP_DELETED
                                 end).
  { destruct proto as [p|].
    - apply bind_inv in Hprot as (hres1 & st7 & Hset & Hprot).
      unfold jsdisp_set_prot_prop in Hset.
      apply bind_inv in Hset as (prop & st8 & Hslot & Hset).
      apply slot_inv in Hslot as [-> (o5 & Ho5 & Hprop)].
      simpl in Ho5. rewrite lookup_insert_eq in Ho5. injection Ho5 as <-.
      simpl in Hprop. injection Hprop as <-.
      destruct (name q1) eqn:Hname.
      + apply bind_inv in Hset as ([] & st8 & Hupd & [-> ->]%ret_inv).
        apply upd_slot_inv in Hupd as (o6 & prop6 & Ho6 & Hprop6 & ->).
        simpl in Ho6. rewrite lookup_insert_eq in Ho6. injection Ho6 as <-.
        change (FAILED S_OK) with false in Hprot. apply ret_inv in Hprot as [-> ->].
        split; [done|]. split; [done|]. simpl. rewrite lookup_insert_eq.
        eexists _, _. split; [done|]. simpl. split; [done|]. split; done.
      + apply ret_inv in Hset as [-> ->].
        change (FAILED E_OUTOFMEMORY) with true in Hprot.
        apply bind_inv in Hprot as (r & st8 & _ & [-> _]%ret_inv).
        apply ret_inv in Hrun as [-> _]. discriminate Hok.
    - apply ret_inv in Hprot as [-> ->]. split; [done|]. split; [done|].
      simpl. rewrite lookup_insert_eq. eexists _, q1. split; [done|]. simpl.
      split; [done|]. split; done. }
  destruct Hst6 as (-> & Hbrk6 & o6 & q6 & Ho6 & Hq6 & Hfl6 & Hty6).
  apply bind_inv in Hrun as ([] & st7 & Hemit & Hrun).
  apply emit_inv in Hemit as (Hobjs7 & Hbrk7 & _).
  apply bind_inv in Hrun as ([] & st8 & Hupd & [_ ->]%ret_inv).
  apply upd_obj_inv in Hupd as (o7 & Ho7 & ->). rewrite Hobjs7, Ho6 in Ho7.
  injection Ho7 as <-. split; [simpl in *; congruence|].
  exists (set_ctx o6 c), q6. simpl. rewrite lookup_insert_eq. done.
Qed.

Lemma create_dispex_quiet `{Host} fuel c info proto st d st' :
  create_dispex fuel c info proto st = Ret ((S_OK, Some d), st') ->
  proto_slot_quiet st' d /\
  exists o q, objs st' !! d = Some o /\ props o !! 1%nat = Some q /\ flags q = 0 /\
              type q = match proto with Some _ => PROP_VARIANT | None => PROP_DELETED end.
Proof.
  unfold create_dispex. intros Hrun.
  apply bind_inv in Hrun as (block & st1 & Hal & Hrun).
  apply heap_alloc_zero_inv in Hal as (_ & [[-> Hbrk1]|[-> Hbrk1]]);
    [apply ret_inv in Hrun as [[=] _]|].
  apply bind_inv in Hrun as (hres & st3 & Hinit & Hrun).
  destruct (FAILED hres) eqn:Hf; apply ret_inv in Hrun as [[= Hd] ->]. subst d.
  destruct (init_dispex_quiet _ _ _ _ _ _ _ _ Hinit Hf) as (Hbrk & o & q & Ho & Hq & Hfl & Hty).
  split; [|eauto 6]. split; [lia|].
  intros o' Ho'. assert (o' = o) as -> by congruence.
  exists q. split; [done|]. split; [done|]. rewrite Hty. destruct proto; auto.
Qed.

(** C9, as amended. Across every sequence of calls on the engine, creation
    of further objects included, an object that lives on keeps every slot at
    its index, with its name, and the kind of a slot only moves to Deleted or,
    by a shadowing put, from Builtin or ProtoRef to Value; a tombstone stays a
    tombstone.  (While an object is constructed, its reserved slot 1 goes from
    Deleted to Value when a prototype is supplied.) *)
Theorem slots_keep_identity `{Host} (cs : list call) (st st' : state) :
  host_evolves H -> run_calls cs st = Ret (tt, st') ->
  forall p o, (p < brk st)%nat -> objs st !! p = Some o ->
    objs st' !! p = None \/
    exists o', objs st' !! p = Some o' /\
      forall i q, props o !! i = Some q ->
        exists q', props o' !! i = Some q' /\ prop_to_id i = Z.of_nat i /\
                   name q' = name q /\ kind_step (type q) (type q') /\
                   (type q = PROP_DELETED -> type q' = PROP_DELETED).
Proof.
  intros Hhost Hrun p o Hp Ho.
  destruct (run_calls_evolves Hhost cs st tt st' Hrun) as [_ He].
  specialize (He p Hp). rewrite Ho in He.
  destruct (objs st' !! p) as [o'|]; [right|by left].
  exists o'. split; [done|]. intros i q Hq.
  destruct (He i q Hq) as (q' & Hq' & Hn & Hk & _). exists q'.
  split; [done|]. split; [done|]. split; [done|]. split; [done|].
  intros Hd. rewrite Hd in Hk. by apply kind_step_from_deleted.
Qed.

(** C10. The reserved slot 1 is never enumerable: creation leaves it
    without flags, as a tombstone or as the Value slot that holds the
    prototype; whatever calls follow, it stays without flags and a Value slot
    or a tombstone, and the enumeration never yields identifier 1. *)
Theorem prototype_slot_never_enumerated `{Host} (fuel : nat) (c : option nat)
    (info : option builtin_info_t) (prototype0 : option ptr) (st st1 : state) (d : ptr) :
  host_evolves H ->
  create_dispex fuel c info prototype0 st = Ret ((S_OK, Some d), st1) ->
  (exists o q, objs st1 !! d = Some o /\ props o !! 1%nat = Some q /\ flags q = 0 /\
               type q = match prototype0 with
                        | Some _ => PROP_VARIANT
                        | None => PROP_DELETED
                        end) /\
  forall cs st2 o2, run_calls cs st1 = Ret (tt, st2) -> objs st2 !! d = Some o2 ->
    (exists q2, props o2 !! 1%nat = Some q2 /\ flags q2 = 0 /\
                (type q2 = PROP_VARIANT \/ type q2 = PROP_DELETED)) /\
    forall fuel' grfdex id hres pid st3,
      DispatchEx_GetNextDispID fuel' d grfdex id st2 = Ret ((hres, pid), st3) ->
      ~ (hres = S_OK /\ pid = 1).
Proof.
  intros Hhost Hcreate.
  destruct (create_dispex_quiet _ _ _ _ _ _ _ Hcreate) as [Hq Hslot].
  split; [exact Hslot|].
  intros cs st2 o2 Hrun Ho2.
    assert (Hq2 : proto_slot_quiet st2 d).
    { eapply proto_slot_quiet_evolves; [done|]. eapply run_calls_evolves; eauto. }
    split; [by apply Hq2|].
    intros fuel' grfdex id hres pid st3. by apply GetNextDispID_quiet.
Qed.

(** * The samples *)

(** ** The sample host respects the tables *)

Lemma quiet_host_evolves : host_evolves quiet_host.
Proof.
  split; [|split; [|split]].
  - intros f this fl dp retv st r st' [_ ->]%ret_inv. apply evolves_refl.
  - intros h this nm st r st' [_ ->]%ret_inv. apply evolves_refl.
  - intros d this st r st' Hr. simpl in Hr. unfold free_obj in Hr. injection Hr as _ <-.
    split; [done|]. apply evolves_below_delete.
  - intros this jsthis i fl dp retv st r st' [_ ->]%ret_inv. apply evolves_refl.
Qed.

(** ** The samples are states the engine reaches *)

Example st_pair_reached :
  exists st,
    (create_dispex (H:=quiet_host) 1 None (Some greeter_info) None ;;;
     create_dispex (H:=quiet_host) 1 None None (Some 1%nat)) empty_state
    = Ret ((S_OK, Some 2%nat), st) /\ objs st = objs st_pair.
Proof. eexists. split; [vm_compute; reflexivity|]. vm_compute. reflexivity. Qed.

Example st_overwritten_reached :
  exists st,
    DispatchEx_InvokeEx (H:=quiet_host) 1 2%nat 1 DISPATCH_PROPERTYPUT
      (put_args (VT_I4 5)) None st_pair
    = Ret ((S_OK, None), st) /\ objs st = objs st_overwritten.
Proof. eexists. split; [vm_compute; reflexivity|]. vm_compute. reflexivity. Qed.

Example st_family_reached :
  exists st,
    (create_dispex (H:=quiet_host) 1 None (Some greeter_info) None ;;;
     create_dispex (H:=quiet_host) 1 None None (Some 1%nat) ;;;
     create_dispex (H:=quiet_host) 1 None None (Some 1%nat) ;;;
     DispatchEx_GetDispID 3 2%nat (Some (wstr "x")) fdexNameEnsure ;;;
     DispatchEx_InvokeEx (H:=quiet_host) 1 2%nat 2 DISPATCH_PROPERTYPUT
       (put_args (VT_I4 7)) None) empty_state
    = Ret ((S_OK, None), st) /\ objs st = objs st_family.
Proof. eexists. split; [vm_compute; reflexivity|]. vm_compute. reflexivity. Qed.

(** ** C6: witness *)

Lemma find_builtin_prop_sorted_witness :
  names_ascending (bi_props greeter_info) = true /\
  find_builtin_prop greeter_info (Some (wstr "length")) = Ret (Some length_prop) /\
  find_builtin_prop greeter_info (Some (wstr "push")) = Ret None.
Proof.
  split; [reflexivity|]. split.
  - apply (proj1 (find_builtin_prop_sorted greeter_info (wstr "length") eq_refl
                    ltac:(vm_compute; discriminate)) 1%nat length_prop);
      reflexivity.
  - apply (proj2 (find_builtin_prop_sorted greeter_info (wstr "push") eq_refl
                    ltac:(vm_compute; discriminate))).
    intros d Hd. apply list_elem_of_In in Hd. simpl in Hd.
    destruct Hd as [<-|[<-|[<-|[]]]]; discriminate.
Defined.

(** ** C7: witness *)

Lemma get_flags_stale_protref_witness :
  exists st',
    get_flags 1 2%nat 2%nat st_stale = Ret (0, st') /\
    DispatchEx_InvokeEx (H:=quiet_host) 1 2%nat 2 DISPATCH_PROPERTYGET no_args
      (Some VT_EMPTY) st' = Ret ((DISP_E_MEMBERNOTFOUND, Some VT_EMPTY), st').
Proof.
  eexists.
  destruct (get_flags_stale_protref (H:=quiet_host) 0 st_stale 2%nat 1%nat
              (sample_object 1 dispex_info (Some 1%nat)
                 [ {| name := Some (wstr "x"); type := PROP_PROTREF; flags := 0;
                      u := u_ref 2 |} ])
              (sample_object 2 dispex_info None
                 [ {| name := Some (wstr "x"); type := PROP_DELETED; flags := PROPF_ENUM;
                      u := u_var VT_EMPTY |} ])
              2%nat _ 2 eq_refl eq_refl eq_refl eq_refl ltac:(lia) eq_refl eq_refl
              ltac:(right; eexists; split; reflexivity)) as [Hflags Hget].
  split; [exact Hflags|]. exact (Hget 1%nat no_args (Some VT_EMPTY)).
Defined.

(** C4, as amended. The search of a name through the prototype chain leaves
    every slot of every table in place; what it appends to the prototype
    (and to any object other than the one it was called on) are cache slots
    only, Builtin or ProtoRef, never a new own Value slot; a search that may
    not create does the same on the object itself. *)
Theorem find_prop_name_prot_appends_caches (fuel : nat) (this : ptr)
    (nm : option wstring) (alloc : bool) (st st' : state) (r : HRESULT * option nat) :
  find_prop_name_prot fuel this nm alloc st = Ret (r, st') ->
  forall p o, objs st !! p = Some o ->
    exists o' ext, objs st' !! p = Some o' /\ props o' = props o ++ ext /\
                   (p <> this \/ alloc = false -> Forall cache_slot ext).
Proof.
  intros Hrun p o Ho.
  destruct (grows_find_prop_name_prot fuel this nm alloc st r st' Hrun p o Ho)
    as (o' & ext & Ho' & Hp & Hc).
  exists o', ext. split; [done|]. split; [done|].
  intros Hor. apply Hc. intros [-> ->]. destruct Hor; done.
Qed.

(** C4 does not hold as stated.  A search from the child for a built-in of the
    prototype's class appends a Builtin slot to the prototype's table. *)
Lemma find_prop_name_prot_grows_prototype :
  exists st' o',
    find_prop_name_prot 2 2%nat (Some (wstr "greet")) false st_pair
    = Ret ((S_OK, Some 2%nat), st') /\
    (length <$> (props <$> (objs st_pair !! 1%nat))) = Some 2%nat /\
    objs st' !! 1%nat = Some o' /\
    props o' !! 2%nat = Some {| name := Some (wstr "greet"); type := PROP_BUILTIN;
                                flags := PROPF_METHOD; u := u_p greet_prop |}.
Proof.
  eexists _, _. split; [vm_compute; reflexivity|]. split; [reflexivity|].
  split; [vm_compute; reflexivity|]. reflexivity.
Qed.

Lemma find_prop_name_prot_appends_caches_witness :
  exists r st',
    find_prop_name_prot 2 2%nat (Some (wstr "greet")) false st_pair = Ret (r, st') /\
    exists o' ext, objs st' !! 1%nat = Some o' /\
                   props o' = props (sample_object 2 greeter_info None []) ++ ext /\
                   Forall cache_slot ext.
Proof.
  destruct (find_prop_name_prot 2 2%nat (Some (wstr "greet")) false st_pair)
    as [[r st']| |] eqn:Hrun; [|vm_compute in Hrun; discriminate..].
  exists r, st'. split; [reflexivity|].
  destruct (find_prop_name_prot_appends_caches _ _ _ _ _ _ _ Hrun 1%nat
              (sample_object 2 greeter_info None []) eq_refl) as (o' & ext & Ho' & Hp & Hc).
  exists o', ext. split; [exact Ho'|]. split; [exact Hp|]. apply Hc. left. lia.
Defined.

(** C1: the code differs from the claim.  A put without a value answers
    [DISP_E_PARAMNOTOPTIONAL] after it has changed the slot.  On an own
    property [x = 5] the value is lost: the next get returns nothing.  On a
    property inherited from the prototype the slot of the child has become
    an own, empty Value slot: the child no longer sees the [x = 5] of its
    prototype. *)
Theorem put_without_value_changes_slot :
  (exists st st',
     (create_dispex (H:=quiet_host) 1 None None None ;;;
      DispatchEx_GetDispID 1 1%nat (Some (wstr "x")) fdexNameEnsure ;;;
      DispatchEx_InvokeEx (H:=quiet_host) 1 1%nat 2 DISPATCH_PROPERTYPUT
        (put_args (VT_I4 5)) None) empty_state
     = Ret ((S_OK, None), st) /\
     DispatchEx_InvokeEx (H:=quiet_host) 1 1%nat 2 DISPATCH_PROPERTYGET no_args
       (Some VT_EMPTY) st = Ret ((S_OK, Some (VT_I4 5)), st) /\
     DispatchEx_InvokeEx (H:=quiet_host) 1 1%nat 2 DISPATCH_PROPERTYPUT no_args None st
     = Ret ((DISP_E_PARAMNOTOPTIONAL, None), st') /\
     DispatchEx_InvokeEx (H:=quiet_host) 1 1%nat 2 DISPATCH_PROPERTYGET no_args
       (Some VT_EMPTY) st' = Ret ((S_OK, Some VT_EMPTY), st')) /\
  (exists st st' o o',
     (create_dispex (H:=quiet_host) 1 None None None ;;;
      DispatchEx_GetDispID 1 1%nat (Some (wstr "x")) fdexNameEnsure ;;;
      DispatchEx_InvokeEx (H:=quiet_host) 1 1%nat 2 DISPATCH_PROPERTYPUT
        (put_args (VT_I4 5)) None ;;;
      create_dispex (H:=quiet_host) 1 None None (Some 1%nat) ;;;
      DispatchEx_GetDispID 2 2%nat (Some (wstr "x")) 0) empty_state
     = Ret ((S_OK, Some 2), st) /\
     objs st !! 2%nat = Some o /\
     props o !! 2%nat = Some {| name := Some (wstr "x"); type := PROP_PROTREF; flags := 0;
                                u := u_ref 2 |} /\
     DispatchEx_InvokeEx (H:=quiet_host) 2 2%nat 2 DISPATCH_PROPERTYGET no_args
       (Some VT_EMPTY) st = Ret ((S_OK, Some (VT_I4 5)), st) /\
     DispatchEx_InvokeEx (H:=quiet_host) 2 2%nat 2 DISPATCH_PROPERTYPUT no_args None st
     = Ret ((DISP_E_PARAMNOTOPTIONAL, None), st') /\
     objs st' !! 2%nat = Some o' /\
     props o' !! 2%nat = Some {| name := Some (wstr "x"); type := PROP_VARIANT;
                                 flags := PROPF_ENUM; u := u_var VT_EMPTY |} /\
     DispatchEx_InvokeEx (H:=quiet_host) 2 2%nat 2 DISPATCH_PROPERTYGET no_args
       (Some VT_EMPTY) st' = Ret ((S_OK, Some VT_EMPTY), st')).
Proof.
  split.
  - eexists _, _. split; [vm_compute; reflexivity|]. split; [vm_compute; reflexivity|].
    split; [vm_compute; reflexivity|]. vm_compute. reflexivity.
  - eexists _, _, _, _. split; [vm_compute; reflexivity|]. split; [vm_compute; reflexivity|].
    split; [reflexivity|]. split; [vm_compute; reflexivity|].
    split; [vm_compute; reflexivity|]. split; [vm_compute; reflexivity|].
    split; [reflexivity|]. vm_compute. reflexivity.
Qed.

Lemma put_without_value_witness :
  exists st',
    DispatchEx_InvokeEx (H:=quiet_host) 1 1%nat (prop_to_id 2) DISPATCH_PROPERTYPUT
      no_args None st_own_x
    = Ret ((DISP_E_PARAMNOTOPTIONAL, None), st') /\
    slot_becomes 1%nat 2%nat (normalized (own_value "x" (VT_I4 5))) st_own_x st'.
Proof.
  exact (proj1 (put_without_value (H:=quiet_host) 0 st_own_x 1%nat
                  (sample_object 1 dispex_info None [own_value "x" (VT_I4 5)])
                  2%nat (own_value "x" (VT_I4 5)) no_args None
                  eq_refl eq_refl (not_elem_of_nil DISPID_PROPERTYPUT))
               (ex_intro _ (VT_I4 5) (conj eq_refl I))).
Defined.

(** C2: the code differs from the claim.  The third allocation of a
    construction with a prototype is refused (the name of the reserved
    slot 1): [init_dispex] has taken a count of the prototype by then and
    releases the object it was building; the count of that object reaches
    zero and the destruction sequence runs, but slot 1 is still a tombstone
    and [DispatchEx_Release] has no step for the prototype field, so the
    count of the prototype is not given back.  The prototype then outlives
    the release by its only holder. *)
Theorem Release_keeps_prototype_count :
  exists st0 st1 st2,
    create_dispex (H:=quiet_host) 1 None None None
      (sample_state ∅ 1%nat [true; true; true; true; true; false])
    = Ret ((S_OK, Some 1%nat), st0) /\
    (ref <$> (objs st0 !! 1%nat)) = Some 1 /\
    create_dispex (H:=quiet_host) 2 None None (Some 1%nat) st0
    = Ret ((E_OUTOFMEMORY, None), st1) /\
    objs st1 !! 2%nat = None /\
    (ref <$> (objs st1 !! 1%nat)) = Some 2 /\
    DispatchEx_Release (H:=quiet_host) 2 1%nat st1 = Ret (1, st2) /\
    (ref <$> (objs st2 !! 1%nat)) = Some 1.
Proof.
  eexists _, _, _. split; [vm_compute; reflexivity|]. split; [vm_compute; reflexivity|].
  split; [vm_compute; reflexivity|]. split; [vm_compute; reflexivity|].
  split; [vm_compute; reflexivity|]. split; [vm_compute; reflexivity|].
  vm_compute. reflexivity.
Qed.

(** The destruction of a child whose slot 1 no longer holds the prototype
    leaves the count of the prototype as it is, although the prototype
    field is present: the put that overwrote slot 1 gave the count back. *)
Lemma Release_ignores_prototype_field :
  exists st',
    DispatchEx_Release (H:=quiet_host) 2 2%nat st_overwritten = Ret (0, st') /\
    prototype overwritten_child = Some 1%nat /\
    objs st' !! 2%nat = None /\
    (ref <$> (objs st_overwritten !! 1%nat)) = Some 1 /\
    (ref <$> (objs st' !! 1%nat)) = Some 1.
Proof.
  eexists. split; [vm_compute; reflexivity|]. split; [reflexivity|].
  split; [vm_compute; reflexivity|]. split; [reflexivity|]. vm_compute. reflexivity.
Qed.

Lemma DispatchEx_Release_last_witness :
  exists st',
    DispatchEx_Release (H:=quiet_host) 2 2%nat st_family = Ret (0, st') /\
    objs st' !! 2%nat = None /\
    (ref <$> (objs st' !! 1%nat)) = Some 2 /\
    (ref <$> (objs st' !! 3%nat)) = Some 1 /\
    log st' = [ heap_free_name 2%nat None;
                heap_free_name 2%nat (Some (wstr "prototype"));
                heap_free_name 2%nat (Some (wstr "x"));
                heap_free_props 2%nat; script_release None; heap_free_This 2%nat ].
Proof.
  eexists. split.
  - apply (DispatchEx_Release_last (H:=quiet_host) 0 st_family 2%nat
             (sample_object 1 dispex_info (Some 1%nat) [own_value "x" (VT_I4 7)])
             eq_refl eq_refl).
    + repeat constructor; intros [=]; eexists; reflexivity.
    + simpl. split; [lia|]. split; [|exact I].
      eexists. split; [reflexivity|]. vm_compute. discriminate.
  - vm_compute. repeat split; reflexivity.
Defined.

(** C8: the code differs from the claim.  A child is the only holder left
    of its prototype; both carry the name "prototype" in their reserved
    slot 1, and the lookup of the name on the child finds the child's own
    slot.  A put of a number on that slot releases the old payload, the
    last count of the prototype: the prototype and its table are destroyed
    by a put through the child, the prototype field of the child still
    points to it, and the next lookup that goes up the chain reads the
    freed object. *)
Theorem put_destroys_prototype :
  exists st st' o',
    (create_dispex (H:=quiet_host) 1 None (Some greeter_info) None ;;;
     create_dispex (H:=quiet_host) 1 None None (Some 1%nat) ;;;
     DispatchEx_Release (H:=quiet_host) 1 1%nat) empty_state = Ret (1, st) /\
    objs st = objs st_pair_sole /\
    DispatchEx_GetDispID 2 2%nat (Some (wstr "prototype")) 0 st = Ret ((S_OK, Some 1), st) /\
    DispatchEx_InvokeEx (H:=quiet_host) 2 2%nat 1 DISPATCH_PROPERTYPUT
      (put_args (VT_I4 5)) None st = Ret ((S_OK, None), st') /\
    objs st' !! 1%nat = None /\
    objs st' !! 2%nat = Some o' /\ prototype o' = Some 1%nat /\
    DispatchEx_GetDispID 2 2%nat (Some (wstr "greet")) 0 st' = Fault.
Proof.
  eexists _, _, _. split; [vm_compute; reflexivity|]. split; [vm_compute; reflexivity|].
  split; [vm_compute; reflexivity|]. split; [vm_compute; reflexivity|].
  split; [vm_compute; reflexivity|]. split; [vm_compute; reflexivity|].
  split; [reflexivity|]. vm_compute. reflexivity.
Qed.

Lemma own_slot_wins_and_put_shadows_witness :
  exists i0 q0,
    props (sample_object 1 dispex_info (Some 1%nat) [own_value "x" (VT_I4 7)]) !! i0
    = Some q0 /\
    name q0 = Some (wstr "x") /\
    find_prop_name_prot 1 2%nat (Some (wstr "x")) false st_both_x
    = Ret ((S_OK, Some i0), st_both_x).
Proof.
  destruct (own_slot_wins_and_put_shadows (H:=quiet_host) st_both_x 2%nat 1%nat
              (sample_object 1 dispex_info (Some 1%nat) [own_value "x" (VT_I4 7)])
              (sample_object 2 dispex_info None [own_value "x" (VT_I4 5)])
              (wstr "x") 2%nat 2%nat (own_value "x" (VT_I4 7)) (own_value "x" (VT_I4 5))
              eq_refl eq_refl ltac:(lia) eq_refl eq_refl eq_refl eq_refl eq_refl)
    as (i0 & q0 & _ & Hq0 & Hn0 & Hfind & _).
  exists i0, q0. split; [exact Hq0|]. split; [exact Hn0|]. exact (Hfind 0%nat false).
Defined.

(** Prototype and child both define [x]: the child's own value is read and
    replaced, the prototype's stays. *)
Example own_slot_wins_run :
  exists st' o' po',
    (DispatchEx_InvokeEx (H:=quiet_host) 1 2%nat 2 DISPATCH_PROPERTYGET no_args
       (Some VT_EMPTY)) st_both_x = Ret ((S_OK, Some (VT_I4 7)), st_both_x) /\
    DispatchEx_InvokeEx (H:=quiet_host) 1 2%nat 2 DISPATCH_PROPERTYPUT
      (put_args (VT_I4 9)) None st_both_x = Ret ((S_OK, None), st') /\
    objs st' !! 2%nat = Some o' /\ props o' !! 2%nat = Some (own_value "x" (VT_I4 9)) /\
    objs st' !! 1%nat = Some po' /\ props po' !! 2%nat = Some (own_value "x" (VT_I4 5)).
Proof.
  eexists _, _, _. split; [vm_compute; reflexivity|]. split; [vm_compute; reflexivity|].
  split; [vm_compute; reflexivity|]. split; [reflexivity|].
  split; [vm_compute; reflexivity|]. reflexivity.
Qed.

(** C9 does not hold as stated.  While a child is constructed, [jsdisp_set_prot_prop]
    turns its reserved slot 1 from a tombstone into a Value slot. *)
Lemma jsdisp_set_prot_prop_revives_tombstone :
  exists st' o o',
    jsdisp_set_prot_prop 2%nat 1%nat st_under_construction = Ret (S_OK, st') /\
    objs st_under_construction !! 2%nat = Some o /\
    (type <$> (props o !! 1%nat)) = Some PROP_DELETED /\
    objs st' !! 2%nat = Some o' /\
    (type <$> (props o' !! 1%nat)) = Some PROP_VARIANT /\
    ~ kind_step PROP_DELETED PROP_VARIANT.
Proof.
  eexists _, _, _. split; [vm_compute; reflexivity|]. split; [vm_compute; reflexivity|].
  split; [reflexivity|]. split; [vm_compute; reflexivity|]. split; [reflexivity|].
  intros [?|[[? _]|[[?|?] _]]]; done.
Qed.

Lemma slots_keep_identity_witness :
  exists st',
    run_calls (H:=quiet_host) [GetNextDispID 3 2%nat 0 0] st_stale = Ret (tt, st') /\
    exists o',
      objs st' !! 2%nat = Some o' /\
      exists q', props o' !! 2%nat = Some q' /\ name q' = Some (wstr "x") /\
                 kind_step PROP_PROTREF (type q').
Proof.
  destruct (run_calls (H:=quiet_host) [GetNextDispID 3 2%nat 0 0] st_stale)
    as [[[] st']| |] eqn:Hrun; [|vm_compute in Hrun; discriminate..].
  exists st'. split; [reflexivity|].
  destruct (slots_keep_identity (H:=quiet_host) _ _ _ quiet_host_evolves Hrun 2%nat
              (sample_object 1 dispex_info (Some 1%nat)
                 [ {| name := Some (wstr "x"); type := PROP_PROTREF; flags := 0;
                      u := u_ref 2 |} ])
              ltac:(simpl; lia) eq_refl) as [Hdead|(o' & Ho' & Hslots)].
  - exfalso. vm_compute in Hrun. injection Hrun as <-. vm_compute in Hdead. discriminate.
  - exists o'. split; [exact Ho'|].
    destruct (Hslots 2%nat _ eq_refl) as (q' & Hq' & _ & Hn & Hk & _).
    exists q'. split; [exact Hq'|]. split; [exact Hn|]. exact Hk.
Defined.

Lemma prototype_slot_never_enumerated_witness :
  exists st0 st1 st2,
    create_dispex (H:=quiet_host) 1 None None None empty_state
    = Ret ((S_OK, Some 1%nat), st0) /\
    create_dispex (H:=quiet_host) 1 None None (Some 1%nat) st0
    = Ret ((S_OK, Some 2%nat), st1) /\
    ((objs st1 !! 2%nat) ≫= (fun o => props o !! 1%nat))
    = Some {| name := Some (wstr "prototype"); type := PROP_VARIANT; flags := 0;
              u := u_var (VT_DISPATCH 1%nat) |} /\
    run_calls (H:=quiet_host)
      [GetDispID 3 2%nat (Some (wstr "y")) fdexNameEnsure;
       InvokeEx 3 2%nat 1 DISPATCH_PROPERTYPUT (put_args (VT_I4 5)) None] st1
    = Ret (tt, st2) /\
    ((objs st2 !! 2%nat) ≫= (fun o => props o !! 1%nat))
    = Some {| name := Some (wstr "prototype"); type := PROP_VARIANT; flags := 0;
              u := u_var (VT_I4 5) |} /\
    DispatchEx_GetNextDispID 3 2%nat 0 0 st2 = Ret ((S_OK, 2), st2) /\
    forall fuel' grfdex id hres pid st3,
      DispatchEx_GetNextDispID fuel' 2%nat grfdex id st2 = Ret ((hres, pid), st3) ->
      ~ (hres = S_OK /\ pid = 1).
Proof.
  destruct (create_dispex (H:=quiet_host) 1 None None None empty_state)
    as [[r0 st0]| |] eqn:Hproto; [|vm_compute in Hproto; discriminate..].
  assert (r0 = (S_OK, Some 1%nat)) as ->
    by (vm_compute in Hproto; injection Hproto as <- _; reflexivity).
  destruct (create_dispex (H:=quiet_host) 1 None None (Some 1%nat) st0)
    as [[r1 st1]| |] eqn:Hcreate;
    [|vm_compute in Hproto; injection Hproto as <-; vm_compute in Hcreate; discriminate..].
  assert (r1 = (S_OK, Some 2%nat)) as ->
    by (vm_compute in Hproto; injection Hproto as <-; vm_compute in Hcreate;
        injection Hcreate as <- _; reflexivity).
  destruct (run_calls (H:=quiet_host)
              [GetDispID 3 2%nat (Some (wstr "y")) fdexNameEnsure;
               InvokeEx 3 2%nat 1 DISPATCH_PROPERTYPUT (put_args (VT_I4 5)) None] st1)
    as [[[] st2]| |] eqn:Hrun;
    [|vm_compute in Hproto; injection Hproto as <-; vm_compute in Hcreate;
      injection Hcreate as <-; vm_compute in Hrun; discriminate..].
  destruct (prototype_slot_never_enumerated (H:=quiet_host) 1 None None (Some 1%nat)
              st0 st1 2%nat quiet_host_evolves Hcreate) as [_ Hafter].
  assert (Hnever : forall fuel' grfdex id hres pid st3,
            DispatchEx_GetNextDispID fuel' 2%nat grfdex id st2 = Ret ((hres, pid), st3) ->
            ~ (hres = S_OK /\ pid = 1)).
  { destruct (objs st2 !! 2%nat) as [o2|] eqn:Ho2.
    - intros fuel' grfdex id hres pid st3.
      exact (proj2 (Hafter _ st2 o2 Hrun Ho2) fuel' grfdex id hres pid st3).
    - exfalso. vm_compute in Hproto. injection Hproto as <-. vm_compute in Hcreate.
      injection Hcreate as <-. vm_compute in Hrun. injection Hrun as <-.
      vm_compute in Ho2. discriminate. }
  clear Hafter.
  exists st0, st1, st2. split; [reflexivity|]. split; [exact Hcreate|].
  split; [|split; [exact Hrun|split; [|split; [|exact Hnever]]]]; clear Hnever;
    vm_compute in Hproto; injection Hproto as <-; vm_compute in Hcreate;
    injection Hcreate as <-; vm_compute in Hrun; injection Hrun as <-;
    vm_compute; reflexivity.
Defined.

(** C3: the code differs from the claim.  An object of the default class
    (its slot 0 is a tombstone) with one own enumerable property: the
    enumeration started from the start sentinel takes the tombstone that
    follows the cursor for the end of the table and signals "no more", and
    the enumerable name is never yielded. *)
Theorem GetNextDispID_stops_at_tombstone :
  exists st,
    (create_dispex (H:=quiet_host) 1 None None None ;;;
     DispatchEx_GetDispID 1 1%nat (Some (wstr "x")) fdexNameEnsure) empty_state
    = Ret ((S_OK, Some 2), st) /\
    (exists o prop, objs st !! 1%nat = Some o /\ props o !! 2%nat = Some prop /\
                    name prop = Some (wstr "x") /\ type prop = PROP_VARIANT /\
                    get_flags 1 1%nat 2%nat st = Ret (PROPF_ENUM, st)) /\
    DispatchEx_GetNextDispID 1 1%nat 0 DISPID_STARTENUM st
    = Ret ((S_FALSE, DISPID_STARTENUM), st).
Proof.
  eexists. split; [vm_compute; reflexivity|]. split.
  - eexists _, _. split; [vm_compute; reflexivity|]. split; [reflexivity|].
    split; [reflexivity|]. split; [reflexivity|]. vm_compute. reflexivity.
  - vm_compute. reflexivity.
Qed.

(** C5: the code differs from the claim.  On a full table, a refused
    growth of the slot array leaves [buf_size] doubled (and the next append
    writes past the block); a refused copy of the name leaves the table one
    slot longer, the new slot without a name. *)
Theorem alloc_prop_failure_keeps_mutation :
  (exists st' o',
     alloc_prop 1%nat (Some (wstr "z")) PROP_VARIANT PROPF_ENUM (st_full [false])
     = Ret (None, st') /\
     (buf_size <$> (objs (st_full [false]) !! 1%nat)) = Some 4 /\
     objs st' !! 1%nat = Some o' /\ buf_size o' = 8 /\ props_cap o' = 4 /\
     alloc_prop 1%nat (Some (wstr "z")) PROP_VARIANT PROPF_ENUM st' = Fault) /\
  (exists st' o',
     alloc_prop 1%nat (Some (wstr "z")) PROP_VARIANT PROPF_ENUM (st_full [true; false])
     = Ret (None, st') /\
     (prop_cnt <$> (objs (st_full [true; false]) !! 1%nat)) = Some 4 /\
     objs st' !! 1%nat = Some o' /\ prop_cnt o' = 5 /\
     props o' !! 4%nat = Some {| name := None; type := PROP_VARIANT; flags := PROPF_ENUM;
                                 u := u_undef |}).
Proof.
  split.
  - eexists _, _. split; [vm_compute; reflexivity|]. split; [reflexivity|].
    split; [vm_compute; reflexivity|]. split; [reflexivity|]. split; [reflexivity|].
    vm_compute. reflexivity.
  - eexists _, _. split; [vm_compute; reflexivity|]. split; [reflexivity|].
    split; [vm_compute; reflexivity|]. split; reflexivity.
Qed.

(** With a prototype, the enumeration from the start sentinel hands the NULL
    name of the prototype's slot 0 to [find_prop_name], which compares it. *)
Example GetNextDispID_with_prototype_faults :
  DispatchEx_GetNextDispID 2 2%nat 0 DISPID_STARTENUM st_pair = Fault.
Proof. vm_compute. reflexivity. Qed.

(** * More of the engine *)

(** ** The linear scan *)

Lemma find_prop_name_scan_total ps nm : forall k,
  exists r, find_prop_name_scan ps (Some nm) k = Ret r.
Proof.
  induction ps as [|prop ps IH]; intros k; cbn [find_prop_name_scan]; [eauto|].
  destruct (name prop) as [n|]; [|apply IH]. cbn [strcmpW_ptr].
  destruct (strcmpW n nm =? 0); [eauto|apply IH].
Qed.

Lemma find_prop_name_scan_found ps nm : forall k i,
  find_prop_name_scan ps (Some nm) k = Ret (Some i) ->
  (k <= i)%nat /\ exists q, ps !! (i - k)%nat = Some q /\ name q = Some nm.
Proof.
  induction ps as [|prop ps IH]; intros k i; cbn [find_prop_name_scan]; [done|].
  assert (Hnext : find_prop_name_scan ps (Some nm) (S k) = Ret (Some i) ->
    (k <= i)%nat /\ exists q, (prop :: ps) !! (i - k)%nat = Some q /\ name q = Some nm).
  { intros (Hle & q & Hq & Hn)%IH. split; [lia|]. exists q. split; [|done].
    replace (i - k)%nat with (S (i - S k)) by lia. done. }
  destruct (name prop) as [n|] eqn:En; [|done]. cbn [strcmpW_ptr].
  destruct (Z.eqb_spec (strcmpW n nm) 0) as [E|]; [|done].
  intros [= <-]. split; [lia|]. exists prop. rewrite Nat.sub_diag.
  split; [done|]. apply strcmpW_eq in E. congruence.
Qed.

Lemma find_prop_name_scan_none ps nm : forall k,
  find_prop_name_scan ps (Some nm) k = Ret None <->
  forall q, q ∈ ps -> name q <> Some nm.
Proof.
  induction ps as [|prop ps IH]; intros k; cbn [find_prop_name_scan].
  - split; [|done]. intros _ q Hq. by apply elem_of_nil in Hq.
  - destruct (name prop) as [n|] eqn:En.
    + cbn [strcmpW_ptr]. destruct (Z.eqb_spec (strcmpW n nm) 0) as [E|Hne].
      * apply strcmpW_eq in E as ->. split; [done|]. intros Hall.
        destruct (Hall prop); [apply elem_of_cons; by left|done].
      * rewrite IH. split.
        -- intros Hall q [->|Hq]%elem_of_cons; [|by apply Hall].
           rewrite En. intros [= ->]. by rewrite strcmpW_refl in Hne.
        -- intros Hall q Hq. apply Hall, elem_of_cons. by right.
    + rewrite IH. split.
      * intros Hall q [->|Hq]%elem_of_cons; [by rewrite En|by apply Hall].
      * intros Hall q Hq. apply Hall, elem_of_cons. by right.
Qed.

Lemma find_prop_name_scan_app ps ext nm : forall k,
  find_prop_name_scan ps (Some nm) k = Ret None ->
  find_prop_name_scan (ps ++ ext) (Some nm) k
  = find_prop_name_scan ext (Some nm) (k + length ps).
Proof.
  induction ps as [|prop ps IH]; intros k; cbn [find_prop_name_scan app length].
  - intros _. by rewrite Nat.add_0_r.
  - destruct (name prop) as [n|]; cbn [strcmpW_ptr].
    + destruct (strcmpW n nm =? 0); [done|]. intros Hn. rewrite IH by done.
      f_equal. lia.
    + intros Hn. rewrite IH by done. f_equal. lia.
Qed.

Lemma find_prop_name_scan_names ps ps' nm : forall k,
  name <$> ps' = name <$> ps ->
  find_prop_name_scan ps' nm k = find_prop_name_scan ps nm k.
Proof.
  revert ps'. induction ps as [|prop ps IH]; intros [|prop' ps'] k; try done.
  cbn [fmap list_fmap]. intros [= Hn Hrest]. cbn [find_prop_name_scan]. rewrite Hn.
  rewrite (IH ps' (S k) Hrest). done.
Qed.

(** The scan finds a slot appended after slots that do not carry the name. *)
Lemma find_prop_name_scan_appended ps nm q :
  find_prop_name_scan ps (Some nm) 0 = Ret None -> name q = Some nm ->
  find_prop_name_scan (ps ++ [q]) (Some nm) 0 = Ret (Some (length ps)).
Proof.
  intros Hn Hq. rewrite find_prop_name_scan_app by done.
  cbn [find_prop_name_scan]. rewrite Hq. cbn [strcmpW_ptr]. by rewrite strcmpW_refl.
Qed.

(** ** The binary search on any class with named descriptors *)

Lemma find_builtin_prop_loop_sound props nm :
  Z.of_nat (length props) <= 2 ^ 30 ->
  Forall (fun d => is_Some (b_name d)) props ->
  forall n min max,
    0 <= min -> max < Z.of_nat (length props) -> max - min + 1 <= Z.of_nat n ->
    exists r, find_builtin_prop_loop n props (Some nm) min max = Ret r /\
      forall i, r = Some i ->
        0 <= i /\ exists d, props !! Z.to_nat i = Some d /\ b_name d = Some nm.
Proof.
  intros Hlen Hnamed. induction n as [|n IH]; intros min max Hmin Hmax Hn.
  - cbn [find_builtin_prop_loop]. destruct (Z.ltb_spec max min); [|lia].
    exists None. split; done.
  - cbn [find_builtin_prop_loop].
    destruct (Z.ltb_spec max min); [exists None; split; done|].
    destruct (Z.ltb_spec INT_MAX (min + max)); [unfold INT_MAX in *; lia|].
    set (i := Z.quot (min + max) 2).
    assert (Hi : min <= i <= max).
    { subst i. rewrite Z.quot_div_nonneg by lia.
      split; [apply Z.div_le_lower_bound|apply Z.div_le_upper_bound]; lia. }
    destruct (Z.ltb_spec i 0); [lia|].
    destruct (props !! Z.to_nat i) as [d|] eqn:Hd;
      [|apply lookup_ge_None in Hd; lia].
    destruct (proj1 (Forall_lookup _ _) Hnamed _ _ Hd) as [n' Hn']. rewrite Hn'.
    cbn [strcmpW_ptr]. destruct (Z.eqb_spec (strcmpW nm n') 0) as [E|Hne].
    + eexists. split; [done|]. intros ? [= <-]. split; [lia|]. exists d.
      split; [done|]. apply strcmpW_eq in E. congruence.
    + destruct (strcmpW nm n' <? 0); apply IH; lia.
Qed.

Lemma find_builtin_prop_sound info nm :
  class_ok info ->
  exists r, find_builtin_prop info (Some nm) = Ret r /\
    forall d, r = Some d -> d ∈ bi_props info /\ b_name d = Some nm.
Proof.
  intros [Hcnt Hnamed]. unfold find_builtin_prop, props_cnt in *.
  rewrite as_LONG_small by lia.
  destruct (find_builtin_prop_loop_sound (bi_props info) nm Hcnt Hnamed
              (length (bi_props info)) 0 (Z.of_nat (length (bi_props info)) - 1))
    as (r & -> & Hr); [lia..|].
  destruct r as [i|]; [|eexists; split; [done|]; done].
  destruct (Hr i eq_refl) as (_ & d & Hd & Hn). rewrite Hd.
  eexists. split; [done|]. intros ? [= <-]. split; [|done].
  by eapply list_elem_of_lookup_2.
Qed.

Lemma find_builtin_prop_unknown info nm :
  class_ok info -> (forall d, d ∈ bi_props info -> b_name d <> Some nm) ->
  find_builtin_prop info (Some nm) = Ret None.
Proof.
  intros Hok Hun. destruct (find_builtin_prop_sound info nm Hok) as (r & -> & Hr).
  destruct r as [d|]; [|done]. destruct (Hr d eq_refl) as [Hd Hn].
  by destruct (Hun d Hd).
Qed.

(** ** Appending a slot *)

Lemma table_ok_room o :
  table_ok o -> (buf_size o =? prop_cnt o) = false -> (props_cap o <=? prop_cnt o) = false.
Proof. intros (-> & _ & Hle) Hne%Z.eqb_neq. apply Z.leb_gt. lia. Qed.

Lemma as_DWORD_double n : 0 < n <= 2 ^ 30 -> as_DWORD (Z.shiftl n 1) = 2 * n.
Proof.
  intros Hn. unfold as_DWORD. rewrite Z.shiftl_mul_pow2 by lia.
  rewrite Z.mod_small; lia.
Qed.

(** [alloc_prop] on a well-formed table always returns. *)
Lemma alloc_prop_total this nm ty fl st o :
  objs st !! this = Some o -> table_ok o ->
  exists r st', alloc_prop this nm ty fl st = Ret (r, st').
Proof.
  intros Ho Hok. unfold alloc_prop.
  rewrite (bind_run _ _ _ _ _ (obj_run _ _ _ Ho)).
  assert (Hrest : forall st1 o1, objs st1 !! this = Some o1 ->
            (props_cap o1 <=? prop_cnt o1) = false ->
            exists r st',
              (o <- obj this ;;
               if props_cap o <=? prop_cnt o then fault
               else
                 copy <- heap_strdupW nm ;;
                 upd_obj this (fun o => set_props o (props o ++
                   [ {| name := copy; type := ty; flags := fl; u := u_undef |} ])) ;;;
                 ret (match copy with Some _ => Some (length (props o)) | None => None end))
              st1 = Ret (r, st')).
  { intros st1 o1 Ho1 Hroom. rewrite (bind_run _ _ _ _ _ (obj_run _ _ _ Ho1)), Hroom.
    assert (Hdup : exists copy st2, heap_strdupW nm st1 = Ret (copy, st2) /\
                                    objs st2 = objs st1).
    { unfold heap_strdupW. destruct nm as [s|]; [|by exists None, st1].
      unfold bind, heap_alloc, ret. destruct (allocs st1); eauto. }
    destruct Hdup as (copy & st2 & Hdup & Hobjs). rewrite (bind_run _ _ _ _ _ Hdup).
    erewrite bind_run; [|apply upd_obj_run; by rewrite Hobjs]. eauto. }
  destruct (Z.eqb_spec (buf_size o) (prop_cnt o)) as [Hfull|Hne].
  - rewrite bind_bind. rewrite (bind_run _ _ _ _ _ (upd_obj_run _ _ _ _ Ho)).
    rewrite bind_bind.
    set (st1 := set_objs st _).
    assert (Hal : exists b st2, heap_alloc st1 = Ret (b, st2) /\ objs st2 = objs st1).
    { unfold heap_alloc. destruct (allocs st1); eauto. }
    destruct Hal as (b & st2 & Hal & Hobjs). rewrite (bind_run _ _ _ _ _ Hal).
    destruct b.
    + rewrite bind_bind. erewrite bind_run;
        [|apply upd_obj_run; rewrite Hobjs; subst st1; simpl; apply lookup_insert_eq].
      erewrite bind_run; [|apply ret_run]. eapply Hrest; [simpl; apply lookup_insert_eq|].
      simpl. destruct Hok as (Hcap & Hsz & Hle). rewrite as_DWORD_double by done.
      apply Z.leb_gt. unfold prop_cnt in *. simpl. lia.
    + erewrite bind_run; [|apply ret_run]. eauto.
  - erewrite bind_run; [|apply ret_run]. eapply Hrest; [done|].
    apply table_ok_room; [done|]. by apply Z.eqb_neq.
Qed.

Lemma heap_alloc_granted st : allocs st = [] -> heap_alloc st = Ret (true, st).
Proof. unfold heap_alloc. by intros ->. Qed.

Lemma heap_strdupW_granted s st :
  allocs st = [] -> heap_strdupW (Some s) st = Ret (Some s, st).
Proof. intros Hal. unfold heap_strdupW. by rewrite (bind_run _ _ _ _ _ (heap_alloc_granted _ Hal)). Qed.

(** [alloc_prop] when no allocation is refused. *)
Lemma alloc_prop_granted_run this nm ty fl st o :
  objs st !! this = Some o -> table_ok o -> allocs st = [] ->
  alloc_prop this (Some nm) ty fl st
  = Ret (Some (length (props o)),
         set_objs st (<[this := appended o {| name := Some nm; type := ty; flags := fl;
                                              u := u_undef |}]> (objs st))).
Proof.
  intros Ho Hok Hal.
  destruct Hok as (Hcap & Hsz & Hle). unfold alloc_prop, appended.
  rewrite (bind_run _ _ _ _ _ (obj_run _ _ _ Ho)).
  destruct (Z.eqb_spec (buf_size o) (prop_cnt o)) as [Hfull|Hne].
  - rewrite bind_bind. rewrite (bind_run _ _ _ _ _ (upd_obj_run _ _ _ _ Ho)).
    rewrite bind_bind. erewrite bind_run; [|by apply heap_alloc_granted]. cbv beta iota.
    rewrite bind_bind. erewrite bind_run; [|apply upd_obj_run; simpl; apply lookup_insert_eq].
    unfold bind at 1. unfold ret at 1. cbv beta iota.
    erewrite bind_run; [|apply obj_run; simpl; apply lookup_insert_eq].
    unfold prop_cnt in *. cbn [props_cap set_props_cap set_buf_size buf_size props].
    rewrite as_DWORD_double by done.
    destruct (Z.leb_spec (2 * buf_size o) (Z.of_nat (length (props o)))); [lia|].
    erewrite bind_run; [|by apply heap_strdupW_granted].
    erewrite bind_run; [|apply upd_obj_run; simpl; apply lookup_insert_eq].
    unfold ret, set_objs; simpl. rewrite !insert_insert_eq. done.
  - unfold bind at 1. unfold ret at 1. cbv beta iota.
    rewrite (bind_run _ _ _ _ _ (obj_run _ _ _ Ho)).
    destruct (Z.leb_spec (props_cap o) (prop_cnt o)); [lia|].
    erewrite bind_run; [|by apply heap_strdupW_granted].
    rewrite (bind_run _ _ _ _ _ (upd_obj_run _ _ _ _ Ho)).
    unfold ret, set_objs, set_props; simpl. rewrite Hcap. done.
Qed.

(** ** Name resolution along an acyclic chain *)

Lemma chain_head st this l : chain st this l -> this ∈ l.
Proof. intros []; apply elem_of_cons; by left. Qed.

Lemma chain_live st this l : chain st this l -> is_Some (objs st !! this).
Proof. intros []; eauto. Qed.

(** [alloc_prop] of a named slot, followed by the write of its payload. *)
Lemma alloc_prop_named_inv this nm ty fl st r st1 :
  alloc_prop this (Some nm) ty fl st = Ret (r, st1) ->
  exists o o1, objs st !! this = Some o /\ objs st1 = <[this := o1]> (objs st) /\
    prototype o1 = prototype o /\ builtin_info o1 = builtin_info o /\
    forall i, r = Some i ->
      i = length (props o) /\
      props o1 = props o ++ [ {| name := Some nm; type := ty; flags := fl; u := u_undef |} ] /\
      forall x y st2, upd_slot this i (set_u x) st1 = Ret (y, st2) ->
        exists o2, objs st2 = <[this := o2]> (objs st) /\
          prototype o2 = prototype o /\ builtin_info o2 = builtin_info o /\
          props o2 = props o ++ [ {| name := Some nm; type := ty; flags := fl; u := x |} ].
Proof.
  intros (o & o1 & Ho & Hobjs & _ & _ & Hpr & Hbi & _ & Hcase)%alloc_prop_inv.
  exists o, o1. do 4 (split; [done|]). intros i ->.
  destruct Hcase as [[_ ?]|(copy & Hp & Hcopy & Hr)]; [done|].
  destruct copy as [c|]; [|done]. injection Hr as ->.
  destruct Hcopy as [?|[= ->]]; [done|]. split; [done|]. split; [done|].
  intros x y st2 (o2 & prop & Ho2 & Hprop & ->)%upd_slot_inv.
  rewrite Hobjs, lookup_insert_eq in Ho2. injection Ho2 as <-.
  rewrite Hp, list_lookup_middle in Hprop by done. injection Hprop as <-.
  eexists. simpl. rewrite Hobjs, insert_insert_eq. split; [done|]. simpl.
  do 2 (split; [done|]). rewrite Hp, insert_app_r_alt by done.
  by rewrite Nat.sub_diag.
Qed.

(** The three outcomes of [find_prop_name] for a name that is not NULL:
    an own slot carries the name; neither the table nor the class knows it;
    the class knows it, and a Builtin slot is appended. *)
Lemma find_prop_name_cases this nm st r st' :
  find_prop_name this (Some nm) st = Ret (r, st') ->
  exists o, objs st !! this = Some o /\
    ((exists i, r = (S_OK, Some i) /\ st' = st /\
                find_prop_name_scan (props o) (Some nm) 0 = Ret (Some i)) \/
     (r = (S_OK, None) /\ st' = st /\
      find_prop_name_scan (props o) (Some nm) 0 = Ret None /\
      find_builtin_prop (builtin_info o) (Some nm) = Ret None) \/
     (exists b o', find_prop_name_scan (props o) (Some nm) 0 = Ret None /\
        find_builtin_prop (builtin_info o) (Some nm) = Ret (Some b) /\
        objs st' = <[this := o']> (objs st) /\
        prototype o' = prototype o /\ builtin_info o' = builtin_info o /\
        (r = (E_OUTOFMEMORY, None) \/
         (r = (S_OK, Some (length (props o))) /\
          props o' = props o ++ [ {| name := Some nm; type := PROP_BUILTIN;
                                     flags := b_flags b; u := u_p b |} ])))).
Proof.
  unfold find_prop_name. intros Hrun.
  apply bind_inv in Hrun as (o & st1 & Hobj & Hrun). apply obj_inv in Hobj as [-> Ho].
  exists o. split; [done|].
  apply bind_inv in Hrun as (found & st1 & Hlift & Hrun).
  apply lift_inv in Hlift as [Hscan ->]. destruct found as [i|].
  - apply ret_inv in Hrun as [-> ->]. left. eauto.
  - apply bind_inv in Hrun as (builtin & st1 & Hlift & Hrun).
    apply lift_inv in Hlift as [Hb ->]. destruct builtin as [b|].
    + right. right. apply bind_inv in Hrun as (prop & st1 & Halloc & Hrun).
      destruct (alloc_prop_named_inv _ _ _ _ _ _ _ Halloc)
        as (o0 & o1 & Ho0 & Hobjs & Hpr & Hbi & Hsome).
      assert (o0 = o) as -> by congruence.
      destruct prop as [i|].
      * destruct (Hsome i eq_refl) as (-> & _ & Hupd).
        apply bind_inv in Hrun as ([] & st2 & Hset & [-> ->]%ret_inv).
        destruct (Hupd _ _ _ Hset) as (o2 & Hobjs2 & Hpr2 & Hbi2 & Hp2).
        exists b, o2. do 5 (split; [done|]). right. done.
      * apply ret_inv in Hrun as [-> ->]. exists b, o1. do 5 (split; [done|]). by left.
    + apply ret_inv in Hrun as [-> ->]. right. left. done.
Qed.

(** What one call of the resolver establishes on an acyclic chain: the
    objects outside the chain are untouched, and a slot it returns is the
    first slot of the table of [this] that carries the name. *)
Lemma find_prop_name_prot_found fuel : forall this nm alloc l st r st',
  chain st this l ->
  find_prop_name_prot fuel this (Some nm) alloc st = Ret (r, st') ->
  (forall p, p ∉ l -> objs st' !! p = objs st !! p) /\
  (forall i, snd r = Some i ->
     fst r = S_OK /\
     exists o', objs st' !! this = Some o' /\
                find_prop_name_scan (props o') (Some nm) 0 = Ret (Some i)).
Proof.
  induction fuel as [|fuel IH]; intros this nm alloc l st r st' Hchain Hrun;
    cbn [find_prop_name_prot] in Hrun; [destruct (timeout_inv _ _ Hrun)|].
  pose proof (chain_head _ _ _ Hchain) as Hhead.
  apply bind_inv in Hrun as (r1 & st1 & Hfind & Hrun).
  destruct (find_prop_name_cases _ _ _ _ _ Hfind) as (o & Ho & Hcase).
  set (post := fun (res : HRESULT * option nat) (stb : state) =>
    forall i, snd res = Some i ->
      fst res = S_OK /\
      exists o', objs stb !! this = Some o' /\
                 find_prop_name_scan (props o') (Some nm) 0 = Ret (Some i)).
  set (frame := fun stb : state => forall p, p ∉ l -> objs stb !! p = objs st !! p).
  change (frame st' /\ post r st').
  (* a slot with the name, appended to the table of [this] *)
  assert (Happ : forall sta stb oa,
    frame sta -> objs stb = <[this := oa]> (objs sta) -> frame stb).
  { intros sta stb oa Hfr Hobjs p Hp. rewrite Hobjs, lookup_insert_ne; [auto|].
    intros ->. done. }
  assert (Happ' : forall sta stb q oa,
    objs stb = <[this := oa]> (objs sta) ->
    find_prop_name_scan (props o) (Some nm) 0 = Ret None ->
    props oa = props o ++ [q] -> name q = Some nm ->
    post (S_OK, Some (length (props o))) stb).
  { intros sta stb q oa Hobjs Hscan Hp Hq i [= <-]. split; [done|]. exists oa.
    rewrite Hobjs, lookup_insert_eq. split; [done|]. rewrite Hp.
    by apply find_prop_name_scan_appended. }
  assert (Hst : frame st) by done.
  destruct Hcase as [(i & -> & -> & Hscan)|[(-> & -> & Hscan & Hb)
                    |(b & o' & Hscan & Hb & Hobjs & Hpr & Hbi & Hr)]].
  - simpl in Hrun. apply ret_inv in Hrun as [-> ->]. split; [done|].
    intros ? [= <-]. eauto.
  - simpl in Hrun.
    apply bind_inv in Hrun as (o0 & st2 & Hobj & Hrun). apply obj_inv in Hobj as [-> Ho0].
    assert (o0 = o) as -> by congruence.
    apply bind_inv in Hrun as (inherited & st2 & Hinh & Hrun).
    (* the search of the prototype *)
    assert (Hrec : frame st2 /\
              match inherited with
              | Some res => post res st2
              | None => objs st2 !! this = Some o
              end).
    { destruct (prototype o) as [p|] eqn:Hproto;
        [|apply ret_inv in Hinh as [-> ->]; done].
      inversion Hchain as [? o1 Ho1 Hp1|? o1 p1 l1 Ho1 Hp1 Hnin Hch]; subst;
        (assert (o1 = o) as -> by congruence); [congruence|].
      assert (p1 = p) as -> by congruence.
      apply bind_inv in Hinh as (r' & st3 & Hrec & Hinh).
      destruct (IH _ _ _ _ _ _ _ Hch Hrec) as [Hfr Hpost].
      assert (Hfr' : frame st3).
      { intros q Hq. apply Hfr. intros Hin. apply Hq, elem_of_cons. by right. }
      assert (Hthis : objs st3 !! this = Some o) by (rewrite Hfr; done).
      destruct (FAILED (fst r')).
      { apply ret_inv in Hinh as [-> ->]. split; [done|]. intros ? [=]. }
      destruct (snd r') as [j|] eqn:Hj;
        [|apply ret_inv in Hinh as [-> ->]; done].
      destruct (Hpost j eq_refl) as (_ & po' & Hpo' & Hscanp).
      apply find_prop_name_scan_found in Hscanp as (_ & q & Hq & Hqn).
      rewrite Nat.sub_0_r in Hq.
      apply bind_inv in Hinh as (parent & st4 & Hslot & Hinh).
      apply slot_inv in Hslot as [-> (po0 & Hpo0 & Hparent)].
      assert (po0 = po') as -> by congruence.
      assert (parent = q) as -> by congruence. rewrite Hqn in Hinh.
      apply bind_inv in Hinh as (prop & st4 & Hal & Hinh).
      unfold alloc_protref in Hal.
      apply bind_inv in Hal as (prop0 & st5 & Halloc & Hal).
      destruct (alloc_prop_named_inv _ _ _ _ _ _ _ Halloc)
        as (o0 & o1 & Ho0' & Hobjs & Hpr & Hbi & Hsome).
      assert (o0 = o) as -> by congruence.
      destruct prop0 as [i|].
      - destruct (Hsome i eq_refl) as (-> & _ & Hupd).
        apply bind_inv in Hal as ([] & st6 & Hset & [-> ->]%ret_inv).
        apply ret_inv in Hinh as [-> ->].
        destruct (Hupd _ _ _ Hset) as (o2 & Hobjs2 & _ & _ & Hp2).
        split; [by eapply (Happ st3)|]. by eapply (Happ' st3).
      - apply ret_inv in Hal as [-> ->]. apply ret_inv in Hinh as [-> ->].
        split; [by eapply (Happ st3)|]. intros ? [=]. }
    destruct Hrec as [Hfr2 Hinh2].
    destruct inherited as [res|]; [by apply ret_inv in Hrun as [-> ->]|].
    destruct alloc; [|apply ret_inv in Hrun as [-> ->]; split; [done|]; intros ? [=]].
    apply bind_inv in Hrun as (prop & st3 & Halloc & Hrun).
    destruct (alloc_prop_named_inv _ _ _ _ _ _ _ Halloc)
      as (o0 & o1 & Ho0' & Hobjs & Hpr & Hbi & Hsome).
    assert (o0 = o) as -> by congruence.
    destruct prop as [i|].
    + destruct (Hsome i eq_refl) as (-> & _ & Hupd).
      apply bind_inv in Hrun as ([] & st4 & Hset & [-> ->]%ret_inv).
      destruct (Hupd _ _ _ Hset) as (o2 & Hobjs2 & _ & _ & Hp2).
      split; [by eapply (Happ st2)|]. by eapply (Happ' st2).
    + apply ret_inv in Hrun as [-> ->]. split; [by eapply (Happ st2)|]. intros ? [=].
  - destruct Hr as [->|[-> Hp]]; simpl in Hrun; apply ret_inv in Hrun as [-> ->].
    + split; [by eapply (Happ st)|]. intros ? [=].
    + split; [by eapply (Happ st)|]. by eapply (Happ' st).
Qed.

(** ** Calls that return *)

Lemma returns_bind {A B} (m : M A) (k : A -> M B) st :
  (exists a st1, m st = Ret (a, st1)) ->
  (forall a st1, m st = Ret (a, st1) -> exists b st2, k a st1 = Ret (b, st2)) ->
  exists b st2, (x <- m ;; k x) st = Ret (b, st2).
Proof.
  intros (a & st1 & Hm) Hk. rewrite (bind_run _ _ _ _ _ Hm). by apply Hk.
Qed.

Lemma returns_ret {A} (a : A) st : exists b st', ret a st = Ret (b, st').
Proof. by exists a, st. Qed.

(** [alloc_prop] of a named slot and the write of its payload return on a
    well-formed table. *)
Lemma alloc_prop_set_u_total this nm ty fl st o :
  objs st !! this = Some o -> table_ok o ->
  exists prop st1, alloc_prop this (Some nm) ty fl st = Ret (prop, st1) /\
    forall i x, prop = Some i -> exists st2, upd_slot this i (set_u x) st1 = Ret (tt, st2).
Proof.
  intros Ho Hok. destruct (alloc_prop_total this (Some nm) ty fl st o Ho Hok)
    as (prop & st1 & Hal). exists prop, st1. split; [done|]. intros i x ->.
  destruct (alloc_prop_named_inv _ _ _ _ _ _ _ Hal) as (o0 & o1 & Ho0 & Hobjs & _ & _ & Hs).
  assert (o0 = o) as -> by congruence.
  destruct (Hs i eq_refl) as (-> & Hp & _).
  eexists. eapply upd_slot_run; [rewrite Hobjs; apply lookup_insert_eq|].
  rewrite Hp. by apply list_lookup_middle.
Qed.

Lemma find_prop_name_total this nm st o :
  objs st !! this = Some o -> table_ok o -> class_ok (builtin_info o) ->
  exists r st', find_prop_name this (Some nm) st = Ret (r, st').
Proof.
  intros Ho Htab Hcls. unfold find_prop_name.
  rewrite (bind_run _ _ _ _ _ (obj_run _ _ _ Ho)).
  destruct (find_prop_name_scan_total (props o) nm 0) as (found & ->).
  unfold lift at 1. unfold bind at 1. destruct found as [i|]; [apply returns_ret|].
  destruct (find_builtin_prop_sound _ nm Hcls) as (builtin & -> & _).
  unfold lift at 1. unfold bind at 1. destruct builtin as [b|]; [|apply returns_ret].
  destruct (alloc_prop_set_u_total this nm PROP_BUILTIN (b_flags b) st o Ho Htab)
    as (prop & st1 & Hal & Hset).
  rewrite (bind_run _ _ _ _ _ Hal). destruct prop as [i|]; [|apply returns_ret].
  destruct (Hset i (u_p b) eq_refl) as (st2 & Hupd).
  rewrite (bind_run _ _ _ _ _ Hupd). apply returns_ret.
Qed.

(** Name resolution returns: on an acyclic chain of well-formed tables
    and classes, with fuel for every object of the chain. *)
Lemma find_prop_name_prot_returns fuel : forall this nm alloc l st,
  chain st this l -> tables_ok st l -> classes_ok st l -> (length l <= fuel)%nat ->
  exists r st', find_prop_name_prot fuel this (Some nm) alloc st = Ret (r, st').
Proof.
  induction fuel as [|fuel IH]; intros this nm alloc l st Hchain Htab Hcls Hfuel.
  { destruct Hchain; simpl in Hfuel; lia. }
  pose proof (chain_head _ _ _ Hchain) as Hhead.
  destruct (chain_live _ _ _ Hchain) as [o Ho].
  cbn [find_prop_name_prot].
  apply returns_bind; [by eapply find_prop_name_total; eauto|].
  intros r1 st1 Hfind.
  destruct (find_prop_name_cases _ _ _ _ _ Hfind) as (o0 & Ho0 & Hcase).
  assert (o0 = o) as -> by congruence.
  destruct Hcase as [(i & -> & -> & Hscan)|[(-> & -> & Hscan & Hb)
                    |(b & o' & Hscan & Hb & Hobjs & Hpr & Hbi & [->|[-> _]])]];
    simpl; try apply returns_ret.
  rewrite (bind_run _ _ _ _ _ (obj_run _ _ _ Ho)).
  (* the last step: a new Value slot when asked for *)
  assert (Hlast : forall st2, objs st2 !! this = Some o ->
            exists r st', (if alloc
                           then prop <- alloc_prop this (Some nm) PROP_VARIANT PROPF_ENUM ;;
                                match prop with
                                | None => ret (E_OUTOFMEMORY, None)
                                | Some i => upd_slot this i (set_u (u_var VT_EMPTY)) ;;;
                                            ret (S_OK, Some i)
                                end
                           else ret (S_OK, None)) st2 = Ret (r, st')).
  { intros st2 Ho2. destruct alloc; [|apply returns_ret].
    destruct (alloc_prop_set_u_total this nm PROP_VARIANT PROPF_ENUM st2 o Ho2
                (Htab _ _ Hhead Ho)) as (prop & st3 & Hal & Hset).
    rewrite (bind_run _ _ _ _ _ Hal). destruct prop as [i|]; [|apply returns_ret].
    destruct (Hset i (u_var VT_EMPTY) eq_refl) as (st4 & Hupd).
    rewrite (bind_run _ _ _ _ _ Hupd). apply returns_ret. }
  destruct (prototype o) as [p|] eqn:Hproto.
  - inversion Hchain as [? o1 Ho1 Hp1|? o1 p1 l1 Ho1 Hp1 Hnin Hch]; subst;
      (assert (o1 = o) as -> by congruence); [congruence|].
    assert (p1 = p) as -> by congruence.
    destruct (IH p nm false l1 st Hch) as (r' & st3 & Hrec).
    { intros q oq Hq. apply Htab, elem_of_cons. by right. }
    { intros q oq Hq. apply Hcls, elem_of_cons. by right. }
    { simpl in Hfuel. lia. }
    destruct (find_prop_name_prot_found _ _ _ _ _ _ _ _ Hch Hrec) as [Hfr Hpost].
    assert (Hthis : objs st3 !! this = Some o) by (rewrite Hfr; done).
    rewrite bind_bind, (bind_run _ _ _ _ _ Hrec).
    destruct (FAILED (fst r')).
    { erewrite bind_run; [|apply ret_run]. apply returns_ret. }
    destruct (snd r') as [j|] eqn:Hj.
    + destruct (Hpost j eq_refl) as (_ & po' & Hpo' & Hscanp).
      apply find_prop_name_scan_found in Hscanp as (_ & q & Hq & Hqn).
      rewrite Nat.sub_0_r in Hq.
      rewrite bind_bind, (bind_run _ _ _ _ _ (slot_run _ _ _ _ _ Hpo' Hq)). rewrite Hqn.
      unfold alloc_protref.
      destruct (alloc_prop_set_u_total this nm PROP_PROTREF 0 st3 o Hthis
                  (Htab _ _ Hhead Ho)) as (prop & st4 & Hal & Hset).
      rewrite !bind_bind, (bind_run _ _ _ _ _ Hal). destruct prop as [i|].
      * destruct (Hset i (u_ref (as_DWORD (Z.of_nat j))) eq_refl) as (st5 & Hupd).
        rewrite !bind_bind, (bind_run _ _ _ _ _ Hupd).
        erewrite bind_run; [|apply ret_run]. erewrite bind_run; [|apply ret_run].
        apply returns_ret.
      * erewrite bind_run; [|apply ret_run]. erewrite bind_run; [|apply ret_run].
        apply returns_ret.
    + erewrite bind_run; [|apply ret_run]. by apply Hlast.
  - erewrite bind_run; [|apply ret_run]. by apply Hlast.
Qed.

(** ** The samples are well-formed *)

Lemma st_own_x_chain : chain st_own_x 1%nat [1%nat].
Proof. by eapply chain_root. Qed.

Lemma st_pair_chain : chain st_pair 2%nat [2%nat; 1%nat].
Proof.
  eapply chain_step; [reflexivity|reflexivity| |by eapply chain_root].
  intros Hin. apply list_elem_of_In in Hin. simpl in Hin. by destruct Hin as [?|[]].
Qed.

Lemma class_ok_dispex_info : class_ok dispex_info.
Proof. split; [by vm_compute|constructor]. Qed.

Lemma class_ok_greeter_info : class_ok greeter_info.
Proof. split; [by vm_compute|]. repeat constructor; by eexists. Qed.

Lemma st_own_x_classes : classes_ok st_own_x [1%nat].
Proof.
  intros p o Hin Ho. apply list_elem_of_In in Hin. simpl in Hin. destruct Hin as [<-|[]].
  injection Ho as <-. apply class_ok_dispex_info.
Qed.

Lemma st_pair_classes : classes_ok st_pair [2%nat; 1%nat].
Proof.
  intros p o Hin Ho. apply list_elem_of_In in Hin. simpl in Hin.
  destruct Hin as [<-|[<-|[]]]; injection Ho as <-;
    [apply class_ok_dispex_info|apply class_ok_greeter_info].
Qed.

Lemma st_pair_tables : tables_ok st_pair [2%nat; 1%nat].
Proof.
  intros p o Hin Ho. apply list_elem_of_In in Hin. simpl in Hin.
  destruct Hin as [<-|[<-|[]]]; injection Ho as <-; by vm_compute.
Qed.

Lemma st_own_x_unknown_y : Forall (unknown_to st_own_x (wstr "y")) [1%nat].
Proof.
  constructor; [|constructor]. eexists. split; [reflexivity|]. split.
  - intros q Hq. apply list_elem_of_In in Hq. simpl in Hq.
    destruct Hq as [<-|[<-|[<-|[]]]]; discriminate.
  - intros d Hd. apply list_elem_of_In in Hd. destruct Hd.
Qed.

Lemma st_pair_unknown_y : Forall (unknown_to st_pair (wstr "y")) [2%nat; 1%nat].
Proof.
  constructor; [|constructor; [|constructor]]; (eexists; split; [reflexivity|]); split.
  - intros q Hq. apply list_elem_of_In in Hq. simpl in Hq.
    destruct Hq as [<-|[<-|[]]]; discriminate.
  - intros d Hd. apply list_elem_of_In in Hd. destruct Hd.
  - intros q Hq. apply list_elem_of_In in Hq. simpl in Hq.
    destruct Hq as [<-|[<-|[]]]; discriminate.
  - intros d Hd. apply list_elem_of_In in Hd. simpl in Hd.
    destruct Hd as [<-|[<-|[<-|[]]]]; discriminate.
Qed.

Lemma st_pair_reserved :
  forall p o, p ∈ [2%nat; 1%nat] -> objs st_pair !! p = Some o -> reserved_named o.
Proof.
  intros p o Hin Ho. apply list_elem_of_In in Hin. simpl in Hin.
  destruct Hin as [<-|[<-|[]]]; injection Ho as <-;
    (eexists _, _, _; split; [reflexivity|]; split; [reflexivity|by eexists]).
Qed.

Lemma quiet_foreign_evolves : foreign_evolves quiet_foreign.
Proof.
  split; [|split].
  - intros n id fl dp retv st r st' [_ ->]%ret_inv. apply evolves_refl.
  - intros n st r st' [_ ->]%ret_inv. apply evolves_refl.
  - intros n id fl dp retv st r st' [_ ->]%ret_inv. apply evolves_refl.
Qed.

Lemma grfdex_ok_run grfdex :
  grfdex_ok grfdex ->
  negb (Z.land grfdex
          (Z.lnot (Z.lor fdexNameCaseSensitive (Z.lor fdexNameEnsure fdexNameImplicit)))
        =? 0) = false.
Proof. unfold grfdex_ok. intros ->. done. Qed.

(** A name no object of the chain knows is not found, and nothing is
    cached on the way. *)
Lemma find_prop_name_prot_unknown fuel : forall this nm l st,
  chain st this l -> classes_ok st l -> Forall (unknown_to st nm) l ->
  (length l <= fuel)%nat ->
  find_prop_name_prot fuel this (Some nm) false st = Ret ((S_OK, None), st).
Proof.
  induction fuel as [|fuel IH]; intros this nm l st Hchain Hcls Hun Hfuel.
  { destruct Hchain; simpl in Hfuel; lia. }
  pose proof (chain_head _ _ _ Hchain) as Hhead.
  destruct (proj1 (Forall_forall _ _) Hun _ Hhead) as (o & Ho & Hslots & Hdescs).
  assert (Hfind : find_prop_name this (Some nm) st = Ret ((S_OK, None), st)).
  { unfold find_prop_name. rewrite (bind_run _ _ _ _ _ (obj_run _ _ _ Ho)).
    rewrite (proj2 (find_prop_name_scan_none _ _ _) Hslots).
    unfold lift at 1. unfold bind at 1.
    rewrite (find_builtin_prop_unknown _ _ (Hcls _ _ Hhead Ho) Hdescs). done. }
  cbn [find_prop_name_prot]. rewrite (bind_run _ _ _ _ _ Hfind). simpl.
  rewrite (bind_run _ _ _ _ _ (obj_run _ _ _ Ho)).
  inversion Hchain as [? o1 Ho1 Hp1|? o1 p l1 Ho1 Hp1 Hnin Hch]; subst;
    (assert (o1 = o) as -> by congruence); rewrite Hp1.
  - erewrite bind_run; [|apply ret_run]. done.
  - rewrite bind_bind. erewrite bind_run.
    2:{ apply (IH p nm l1 st Hch).
        - intros q oq Hq. apply Hcls, elem_of_cons. by right.
        - by apply Forall_cons in Hun as [_ ?].
        - simpl in Hfuel. lia. }
    simpl. erewrite bind_run; [|apply ret_run]. done.
Qed.

(** X1. Name resolution through [DispatchEx_GetDispID] always returns on an
    acyclic prototype chain of well-formed tables and classes, given fuel for
    every object of the chain: either [S_OK] with the identifier of a slot of
    the object that carries the name, or a failure code and no identifier;
    the objects outside the chain are left as they were. *)
Theorem GetDispID_returns (fuel : nat) (st : state) (this : ptr) (l : list ptr)
    (nm : wstring) (grfdex : Z) :
  chain st this l -> tables_ok st l -> classes_ok st l -> (length l <= fuel)%nat ->
  exists hres pid st',
    DispatchEx_GetDispID fuel this (Some nm) grfdex st = Ret ((hres, pid), st') /\
    (forall p, p ∉ l -> objs st' !! p = objs st !! p) /\
    ((FAILED hres = true /\ pid = None) \/
     (hres = S_OK /\
      exists i o' q, pid = Some (prop_to_id i) /\ objs st' !! this = Some o' /\
                     props o' !! i = Some q /\ name q = Some nm)).
Proof.
  intros Hchain Htab Hcls Hfuel. unfold DispatchEx_GetDispID.
  destruct (negb _).
  { eexists _, _, _. split; [done|]. split; [done|]. left. done. }
  destruct (find_prop_name_prot_returns fuel this nm
              (negb (Z.land grfdex fdexNameEnsure =? 0)) l st Hchain Htab Hcls Hfuel)
    as (r & st' & Hrun).
  destruct (find_prop_name_prot_found _ _ _ _ _ _ _ _ Hchain Hrun) as [Hfr Hpost].
  rewrite (bind_run _ _ _ _ _ Hrun).
  destruct (FAILED (fst r)) eqn:Hf.
  { eexists _, _, _. split; [done|]. split; [done|]. left. done. }
  destruct (snd r) as [i|] eqn:Hi.
  - destruct (Hpost i eq_refl) as (_ & o' & Ho' & Hscan).
    apply find_prop_name_scan_found in Hscan as (_ & q & Hq & Hn).
    rewrite Nat.sub_0_r in Hq.
    eexists _, _, _. split; [done|]. split; [done|]. right. split; [done|]. eauto 8.
  - eexists _, _, _. split; [done|]. split; [done|]. left. done.
Qed.

Lemma GetDispID_returns_witness :
  exists hres pid st',
    DispatchEx_GetDispID 2 2%nat (Some (wstr "greet")) 0 st_pair = Ret ((hres, pid), st') /\
    (forall p, p ∉ [2%nat; 1%nat] -> objs st' !! p = objs st_pair !! p) /\
    ((FAILED hres = true /\ pid = None) \/
     (hres = S_OK /\
      exists i o' q, pid = Some (prop_to_id i) /\ objs st' !! 2%nat = Some o' /\
                     props o' !! i = Some q /\ name q = Some (wstr "greet"))).
Proof.
  apply (GetDispID_returns 2 st_pair 2%nat [2%nat; 1%nat] (wstr "greet") 0
           st_pair_chain st_pair_tables st_pair_classes).
  simpl. lia.
Defined.

(** The scan finds the same slot after the table has moved on: the slots
    keep their names and their places. *)
Lemma find_prop_name_scan_step nm : forall ps ps' k i,
  table_step ps ps' ->
  find_prop_name_scan ps (Some nm) k = Ret (Some i) ->
  find_prop_name_scan ps' (Some nm) k = Ret (Some i).
Proof.
  induction ps as [|q ps IH]; intros ps' k i Hstep Hscan; [done|].
  destruct (Hstep 0%nat q eq_refl) as (q' & Hq' & Hn & _).
  destruct ps' as [|q0 ps']; [done|]. injection Hq' as ->.
  assert (Hrest : table_step ps ps').
  { intros j p Hp. exact (Hstep (S j) p Hp). }
  cbn [find_prop_name_scan] in *. rewrite Hn.
  destruct (name q); [|by apply IH].
  destruct (strcmpW_ptr _ _) as [r| |]; [|done..].
  destruct (r =? 0); [done|by apply IH].
Qed.

(** X2. Identifiers are stable.  Once [DispatchEx_GetDispID] has returned an
    identifier for a name on an acyclic chain, every later lookup of the
    name on the object returns the same identifier and changes nothing,
    whatever the flags and whatever calls were made on the engine in
    between (lookups that append slots, puts, gets, enumeration, creation
    and release of objects), for as long as the object lives: the slot the
    first lookup cached or created keeps its place and its name, and is
    found first.  The collaborators respect the tables. *)
Theorem GetDispID_stable `{Host} (fuel : nat) (st st' : state) (this : ptr) (l : list ptr)
    (nm : wstring) (grfdex : Z) (id : DISPID) :
  host_evolves H -> chain st this l -> (this < brk st)%nat ->
  DispatchEx_GetDispID fuel this (Some nm) grfdex st = Ret ((S_OK, Some id), st') ->
  forall cs st'', run_calls cs st' = Ret (tt, st'') -> is_Some (objs st'' !! this) ->
  forall fuel' grfdex', grfdex_ok grfdex' ->
    DispatchEx_GetDispID (S fuel') this (Some nm) grfdex' st''
    = Ret ((S_OK, Some id), st'').
Proof.
  intros Hhost Hchain Hlt Hrun cs st'' Hcalls [o'' Ho''] fuel' grfdex' Hok.
  assert (Hbrk : (brk st <= brk st')%nat).
  { apply (run_call_evolves Hhost (GetDispID fuel this (Some nm) grfdex) st tt st').
    cbn [run_call]. by rewrite (bind_run _ _ _ _ _ Hrun). }
  destruct (run_calls_evolves Hhost cs st' tt st'' Hcalls) as [_ He].
  unfold DispatchEx_GetDispID in Hrun.
  destruct (negb _); [by apply ret_inv in Hrun as [[=] _]|].
  apply bind_inv in Hrun as (r & st1 & Hres & Hrun).
  destruct (find_prop_name_prot_found _ _ _ _ _ _ _ _ Hchain Hres) as [_ Hpost].
  destruct (FAILED (fst r)); [by apply ret_inv in Hrun as [[=] _]|].
  destruct (snd r) as [i|]; [|by apply ret_inv in Hrun as [[=] _]].
  apply ret_inv in Hrun as [[= ->] ->].
  destruct (Hpost i eq_refl) as (_ & o' & Ho' & Hscan).
  specialize (He this ltac:(lia)). rewrite Ho', Ho'' in He.
  pose proof (find_prop_name_scan_step _ _ _ _ _ He Hscan) as Hscan'.
  unfold DispatchEx_GetDispID. rewrite (grfdex_ok_run _ Hok).
  cbn [find_prop_name_prot]. rewrite bind_bind.
  rewrite (bind_run _ _ _ _ _ (find_prop_name_own _ _ _ _ _ Ho'' Hscan')). done.
Qed.

Lemma GetDispID_stable_witness :
  exists st' st'',
    DispatchEx_GetDispID 2 2%nat (Some (wstr "greet")) 0 st_pair
    = Ret ((S_OK, Some 2), st') /\
    run_calls (H := quiet_host)
      [GetDispID 2 2%nat (Some (wstr "y")) fdexNameEnsure;
       InvokeEx 1 2%nat 3 DISPATCH_PROPERTYPUT (put_args (VT_I4 5)) None;
       InvokeEx 1 2%nat 2 DISPATCH_PROPERTYPUT (put_args (VT_I4 1)) None;
       create 1 None None (Some 2%nat)] st'
    = Ret (tt, st'') /\
    (type <$> ((objs st'' !! 2%nat) ≫= (fun o => props o !! 2%nat))) = Some PROP_VARIANT /\
    DispatchEx_GetDispID 1 2%nat (Some (wstr "greet")) fdexNameEnsure st''
    = Ret ((S_OK, Some 2), st'').
Proof.
  eexists _, _. split; [vm_compute; reflexivity|].
  split; [vm_compute; reflexivity|]. split; [vm_compute; reflexivity|].
  apply (GetDispID_stable (H := quiet_host) 2 st_pair _ 2%nat [2%nat; 1%nat]
           (wstr "greet") 0 2 quiet_host_evolves st_pair_chain ltac:(simpl; lia)
           ltac:(vm_compute; reflexivity)
           [GetDispID 2 2%nat (Some (wstr "y")) fdexNameEnsure;
            InvokeEx 1 2%nat 3 DISPATCH_PROPERTYPUT (put_args (VT_I4 5)) None;
            InvokeEx 1 2%nat 2 DISPATCH_PROPERTYPUT (put_args (VT_I4 1)) None;
            create 1 None None (Some 2%nat)]);
    [vm_compute; reflexivity|by eexists|reflexivity].
Defined.

(** X3. A missing name.  When no table and no class along the prototype
    chain knows the name and creation is not asked for,
    [DispatchEx_GetDispID] answers [DISP_E_UNKNOWNNAME], stores no
    identifier and leaves the store exactly as it was. *)
Theorem GetDispID_unknown_name (fuel : nat) (st : state) (this : ptr) (l : list ptr)
    (nm : wstring) (grfdex : Z) :
  chain st this l -> classes_ok st l -> Forall (unknown_to st nm) l ->
  (length l <= fuel)%nat ->
  grfdex_ok grfdex -> Z.land grfdex fdexNameEnsure = 0 ->
  DispatchEx_GetDispID fuel this (Some nm) grfdex st = Ret ((DISP_E_UNKNOWNNAME, None), st).
Proof.
  intros Hchain Hcls Hun Hfuel Hok Hens. unfold DispatchEx_GetDispID.
  rewrite (grfdex_ok_run _ Hok), Hens.
  change (negb (0 =? 0)) with false.
  by rewrite (bind_run _ _ _ _ _ (find_prop_name_prot_unknown _ _ _ _ _ Hchain Hcls Hun Hfuel)).
Qed.

Lemma GetDispID_unknown_name_witness :
  DispatchEx_GetDispID 2 2%nat (Some (wstr "y")) 0 st_pair
  = Ret ((DISP_E_UNKNOWNNAME, None), st_pair).
Proof.
  apply (GetDispID_unknown_name 2 st_pair 2%nat [2%nat; 1%nat] (wstr "y") 0
           st_pair_chain st_pair_classes st_pair_unknown_y); [simpl; lia|reflexivity..].
Defined.

(** X4. Creation on demand.  With [fdexNameEnsure], a name unknown along the
    whole chain becomes a new slot at the end of the table of the object:
    an enumerable Value slot with an empty payload, whose identifier is the
    old slot count; a full table is doubled; nothing else changes. *)
Theorem GetDispID_ensure_creates (fuel : nat) (st : state) (this : ptr) (o : DispatchEx)
    (l : list ptr) (nm : wstring) (grfdex : Z) :
  chain st this l -> classes_ok st l -> Forall (unknown_to st nm) l ->
  (length l <= fuel)%nat ->
  objs st !! this = Some o -> table_ok o -> allocs st = [] ->
  grfdex_ok grfdex -> Z.land grfdex fdexNameEnsure <> 0 ->
  DispatchEx_GetDispID fuel this (Some nm) grfdex st
  = Ret ((S_OK, Some (prop_cnt o)),
         set_objs st (<[this := appended o {| name := Some nm; type := PROP_VARIANT;
                                              flags := PROPF_ENUM; u := u_var VT_EMPTY |}]>
                        (objs st))).
Proof.
  intros Hchain Hcls Hun Hfuel Ho Htab Hal Hok Hens. unfold DispatchEx_GetDispID.
  rewrite (grfdex_ok_run _ Hok).
  destruct (Z.eqb_spec (Z.land grfdex fdexNameEnsure) 0) as [|_]; [done|].
  change (negb false) with true.
  destruct fuel as [|fuel]; [destruct Hchain; simpl in Hfuel; lia|].
  pose proof (chain_head _ _ _ Hchain) as Hhead.
  destruct (proj1 (Forall_forall _ _) Hun _ Hhead) as (o0 & Ho0 & Hslots & Hdescs).
  assert (o0 = o) as -> by congruence.
  assert (Hfind : find_prop_name this (Some nm) st = Ret ((S_OK, None), st)).
  { unfold find_prop_name. rewrite (bind_run _ _ _ _ _ (obj_run _ _ _ Ho)).
    rewrite (proj2 (find_prop_name_scan_none _ _ _) Hslots).
    unfold lift at 1. unfold bind at 1.
    rewrite (find_builtin_prop_unknown _ _ (Hcls _ _ Hhead Ho) Hdescs). done. }
  cbn [find_prop_name_prot]. rewrite bind_bind, (bind_run _ _ _ _ _ Hfind). simpl.
  rewrite bind_bind, (bind_run _ _ _ _ _ (obj_run _ _ _ Ho)).
  assert (Hinh : (match prototype o with
                  | Some p =>
                      r' <- find_prop_name_prot fuel p (Some nm) false ;;
                      if FAILED (fst r') then ret (Some (fst r', None))
                      else match snd r' with
                           | Some j =>
                               parent <- slot p j ;;
                               prop <- alloc_protref this (name parent)
                                         (as_DWORD (Z.of_nat j)) ;;
                               match prop with
                               | None => ret (Some (E_OUTOFMEMORY, None))
                               | Some i => ret (Some (S_OK, Some i))
                               end
                           | None => ret None
                           end
                  | None => ret None
                  end) st = Ret (@None (HRESULT * option nat), st)).
  { inversion Hchain as [? o1 Ho1 Hp1|? o1 p l1 Ho1 Hp1 Hnin Hch]; subst;
      (assert (o1 = o) as -> by congruence); rewrite Hp1; [done|].
    erewrite bind_run.
    2:{ apply (find_prop_name_prot_unknown fuel p nm l1 st Hch).
        - intros q oq Hq. apply Hcls, elem_of_cons. by right.
        - by apply Forall_cons in Hun as [_ ?].
        - simpl in Hfuel. lia. }
    done. }
  rewrite bind_bind, (bind_run _ _ _ _ _ Hinh).
  rewrite bind_bind, (bind_run _ _ _ _ _ (alloc_prop_granted_run _ _ _ _ _ _ Ho Htab Hal)).
  rewrite bind_bind. erewrite bind_run.
  2:{ eapply upd_slot_run; [simpl; apply lookup_insert_eq|].
      simpl. by apply list_lookup_middle. }
  erewrite bind_run; [|apply ret_run]. simpl. unfold ret, prop_to_id, prop_cnt.
  do 2 f_equal. unfold set_objs; simpl. rewrite insert_insert_eq. do 2 f_equal.
  unfold appended, set_props; simpl. f_equal.
  rewrite insert_app_r_alt by done. by rewrite Nat.sub_diag.
Qed.

Lemma GetDispID_ensure_creates_witness :
  exists st',
    DispatchEx_GetDispID 1 1%nat (Some (wstr "y")) fdexNameEnsure st_own_x
    = Ret ((S_OK, Some 3), st') /\
    (props <$> objs st' !! 1%nat)
    = Some (reserved_slots dispex_info None ++
            [own_value "x" (VT_I4 5); own_value "y" VT_EMPTY]).
Proof.
  eexists. split.
  - apply (GetDispID_ensure_creates 1 st_own_x 1%nat
             (sample_object 1 dispex_info None [own_value "x" (VT_I4 5)]) [1%nat]
             (wstr "y") fdexNameEnsure st_own_x_chain st_own_x_classes st_own_x_unknown_y);
      [simpl; lia|reflexivity|by vm_compute|reflexivity|reflexivity|by vm_compute].
  - vm_compute. reflexivity.
Defined.

(** X5. [alloc_prop] when no allocation is refused, on a well-formed table:
    the new slot goes to the end, its index is the old slot count, the
    slots before it keep their index and content, a full table is doubled
    first, and the table stays well-formed as long as its size can be
    doubled. *)
Theorem alloc_prop_appends (this : ptr) (nm : wstring) (ty : prop_type_t) (fl : Z)
    (st : state) (o : DispatchEx) :
  objs st !! this = Some o -> table_ok o -> allocs st = [] ->
  let q := {| name := Some nm; type := ty; flags := fl; u := u_undef |} in
  alloc_prop this (Some nm) ty fl st
  = Ret (Some (length (props o)), set_objs st (<[this := appended o q]> (objs st))) /\
  props (appended o q) !! length (props o) = Some q /\
  (forall i p, props o !! i = Some p -> props (appended o q) !! i = Some p) /\
  (buf_size o <= 2 ^ 29 -> table_ok (appended o q)).
Proof.
  intros Ho Htab Hal q. split; [by apply alloc_prop_granted_run|].
  split; [simpl; by apply list_lookup_middle|].
  split; [intros i p Hp; simpl; by apply lookup_app_l_Some|].
  intros Hsz. destruct Htab as (Hcap & Hpos & Hle). unfold table_ok, appended, prop_cnt in *.
  simpl. rewrite length_app. simpl.
  destruct (Z.eqb_spec (buf_size o) (Z.of_nat (length (props o)))); lia.
Qed.

Lemma alloc_prop_appends_witness :
  exists st',
    alloc_prop 1%nat (Some (wstr "z")) PROP_VARIANT 0 (st_full []) = Ret (Some 4%nat, st') /\
    (buf_size <$> objs st' !! 1%nat) = Some 8.
Proof.
  eexists. split.
  - apply (alloc_prop_appends 1%nat (wstr "z") PROP_VARIANT 0 (st_full [])
             (sample_object 1 dispex_info None
                [own_value "x" (VT_I4 5); own_value "y" (VT_I4 6)]));
      [reflexivity|by vm_compute|reflexivity].
  - vm_compute. reflexivity.
Defined.

(** ** Argument checks of the interface *)

Lemma get_prop_none o id :
  id < 0 \/ prop_cnt o <= id \/
  (exists q, props o !! Z.to_nat id = Some q /\ type q = PROP_DELETED) ->
  get_prop o id = None.
Proof.
  intros Hid. unfold get_prop.
  destruct (Z.ltb_spec id 0); [done|]. destruct (Z.leb_spec (prop_cnt o) id); [done|]. simpl.
  destruct Hid as [?|[?|(q & Hq & Hty)]]; [lia..|]. rewrite Hq. by rewrite decide_True.
Qed.

(** X6. An identifier that names no live slot.  A negative identifier, one
    past the last slot, or the identifier of a tombstone is answered with
    [DISP_E_MEMBERNOTFOUND] whatever the flags; the result variant is
    emptied and the store is left as it was. *)
Theorem InvokeEx_unknown_id `{Host} (fuel : nat) (st : state) (this : ptr) (o : DispatchEx)
    (id : DISPID) (wFlags : Z) (dp : DISPPARAMS) (res : option VARIANT) :
  objs st !! this = Some o ->
  id < 0 \/ prop_cnt o <= id \/
  (exists q, props o !! Z.to_nat id = Some q /\ type q = PROP_DELETED) ->
  DispatchEx_InvokeEx fuel this id wFlags dp res st
  = Ret ((DISP_E_MEMBERNOTFOUND, match res with Some _ => Some VT_EMPTY | None => None end),
         st).
Proof.
  intros Ho Hid. unfold DispatchEx_InvokeEx.
  rewrite (bind_run _ _ _ _ _ (obj_run _ _ _ Ho)). by rewrite (get_prop_none _ _ Hid).
Qed.

Lemma InvokeEx_unknown_id_witness :
  DispatchEx_InvokeEx (H := quiet_host) 1 1%nat 7 DISPATCH_PROPERTYGET no_args
    (Some (VT_I4 1)) st_own_x
  = Ret ((DISP_E_MEMBERNOTFOUND, Some VT_EMPTY), st_own_x).
Proof.
  apply (InvokeEx_unknown_id (H := quiet_host) 1 st_own_x 1%nat
           (sample_object 1 dispex_info None [own_value "x" (VT_I4 5)]) 7
           DISPATCH_PROPERTYGET no_args (Some (VT_I4 1)));
    [reflexivity|right; left; by vm_compute].
Defined.

(** X7. Flags that are not exactly one of method, construct, get and put
    (a combination of two of them, for one) are refused on a live slot with
    [E_INVALIDARG], and nothing is touched. *)
Theorem InvokeEx_unsupported_flags `{Host} (fuel : nat) (st : state) (this : ptr)
    (o : DispatchEx) (i : nat) (q : dispex_prop_t) (wFlags : Z) (dp : DISPPARAMS)
    (res : option VARIANT) :
  objs st !! this = Some o -> props o !! i = Some q -> type q <> PROP_DELETED ->
  wFlags ∉ [DISPATCH_METHOD; DISPATCH_CONSTRUCT; DISPATCH_PROPERTYGET; DISPATCH_PROPERTYPUT] ->
  DispatchEx_InvokeEx fuel this (prop_to_id i) wFlags dp res st
  = Ret ((E_INVALIDARG, match res with Some _ => Some VT_EMPTY | None => None end), st).
Proof.
  intros Ho Hq Hty Hfl. unfold DispatchEx_InvokeEx, prop_to_id.
  rewrite (bind_run _ _ _ _ _ (obj_run _ _ _ Ho)). rewrite (get_prop_live o i q) by done.
  rewrite !not_elem_of_cons in Hfl. destruct Hfl as (H1 & H2 & H3 & H4 & _).
  apply Z.eqb_neq in H1, H2, H3, H4. by rewrite H1, H2, H3, H4.
Qed.

Lemma InvokeEx_unsupported_flags_witness :
  DispatchEx_InvokeEx (H := quiet_host) 1 1%nat 2
    (Z.lor DISPATCH_METHOD DISPATCH_PROPERTYGET) no_args None st_own_x
  = Ret ((E_INVALIDARG, None), st_own_x).
Proof.
  apply (InvokeEx_unsupported_flags (H := quiet_host) 1 st_own_x 1%nat
           (sample_object 1 dispex_info None [own_value "x" (VT_I4 5)]) 2%nat
           (own_value "x" (VT_I4 5)) (Z.lor DISPATCH_METHOD DISPATCH_PROPERTYGET) no_args None);
    [reflexivity|reflexivity|discriminate|].
  intros Hin. apply list_elem_of_In in Hin. simpl in Hin.
  destruct Hin as [?|[?|[?|[?|[]]]]]; discriminate.
Defined.

(** ** Values: copies, round trips *)

Section Values.
Context `{Host}.





End Values.





Lemma set_ref_set_ref o r : set_ref (set_ref o r) (ref o) = o.
Proof. by destruct o. Qed.

Lemma set_objs_id st : set_objs st (objs st) = st.
Proof. by destruct st. Qed.

(** X10. [DispatchEx_AddRef] followed by [DispatchEx_Release] on a live
    object whose count has room for one more holder gives the store back
    exactly; [DispatchEx_Release] returns the count the object had. *)
Theorem AddRef_then_Release `{Host} (fuel : nat) (st : state) (this : ptr) (o : DispatchEx) :
  objs st !! this = Some o -> 0 < ref o < INT_MAX ->
  DispatchEx_AddRef this st
  = Ret (ref o + 1, set_objs st (<[this := set_ref o (ref o + 1)]> (objs st))) /\
  (DispatchEx_AddRef this ;;; DispatchEx_Release (S fuel) this) st = Ret (ref o, st).
Proof.
  intros Ho Href. unfold INT_MAX in Href.
  pose proof (AddRef_run this st o Ho) as Hadd.
  rewrite as_LONG_small in Hadd by lia. split; [done|].
  rewrite (bind_run _ _ _ _ _ Hadd).
  assert (Hback : as_LONG (ref (set_ref o (ref o + 1)) - 1) = ref o).
  { simpl. replace (ref o + 1 - 1) with (ref o) by lia. apply as_LONG_small. lia. }
  erewrite Release_keeps_run; [|simpl; apply lookup_insert_eq|rewrite Hback; lia].
  rewrite Hback. do 2 f_equal. unfold set_objs; simpl. rewrite insert_insert_eq.
  change (set_ref (set_ref o (ref o + 1)) (ref o)) with (set_ref o (ref o)).
  replace (set_ref o (ref o)) with o by (by destruct o).
  rewrite insert_id by done. by destruct st.
Qed.

Lemma AddRef_then_Release_witness :
  DispatchEx_AddRef 1%nat st_own_x
  = Ret (2, set_objs st_own_x
              (<[1%nat := set_ref (sample_object 1 dispex_info None [own_value "x" (VT_I4 5)])
                            2]> (objs st_own_x))) /\
  (DispatchEx_AddRef 1%nat ;;; DispatchEx_Release (H := quiet_host) 1 1%nat) st_own_x
  = Ret (1, st_own_x).
Proof.
  apply (AddRef_then_Release (H := quiet_host) 0 st_own_x 1%nat
           (sample_object 1 dispex_info None [own_value "x" (VT_I4 5)]) eq_refl).
  by vm_compute.
Defined.

(** ** Construction and destruction *)

Lemma take_ref_insert m q oq :
  m !! q = Some oq -> take_ref m q = <[q := set_ref oq (as_LONG (ref oq + 1))]> m.
Proof.
  intros Hq. unfold take_ref. apply map_eq. intros p. destruct (decide (p = q)) as [->|Hne].
  - by rewrite lookup_alter_eq, lookup_insert_eq, Hq.
  - by rewrite lookup_alter_ne, lookup_insert_ne.
Qed.

Section Construction.
Context `{Host}.

(** [init_dispex] when no allocation is refused. *)
Lemma init_dispex_granted_run fuel r c info prototype0 st :
  allocs st = [] -> objs st !! r = None -> prototype_live st prototype0 ->
  init_dispex fuel r c info prototype0 st
  = Ret (S_OK,
         {| objs := <[r := fresh_object c info prototype0]>
                      (match prototype0 with
                       | Some p => take_ref (objs st) p
                       | None => objs st
                       end);
            brk := brk st; allocs := []; log := log st ++ [script_addref c] |}).
Proof.
  intros Hal Hfree Hlive. unfold init_dispex.
  erewrite bind_run; [|reflexivity].
  erewrite bind_run; [|by apply heap_alloc_granted]. cbv beta iota. simpl negb. cbv iota.
  set (st1 := set_objs st (<[r := blank_object info]> (objs st))).
  (* the count taken on the prototype *)
  set (m2 := match prototype0 with
             | Some p => take_ref (objs st) p
             | None => objs st
             end).
  assert (Hm2 : m2 !! r = None).
  { subst m2. destruct prototype0 as [p|]; [|done]. destruct Hlive as [op Hp].
    unfold take_ref. rewrite lookup_alter_ne; [done|]. intros ->. congruence. }
  assert (Hadd : (match prototype0 with
                  | Some p => DispatchEx_AddRef p ;;; ret tt
                  | None => ret tt
                  end) st1 = Ret (tt, set_objs st (<[r := blank_object info]> m2))).
  { subst m2. destruct prototype0 as [p|]; [|done]. destruct Hlive as [op Hp].
    assert (Hne : r <> p) by (intros ->; congruence).
    erewrite bind_run; [|apply AddRef_run; subst st1; simpl; by rewrite lookup_insert_ne].
    unfold ret. do 2 f_equal. subst st1. unfold set_objs; simpl. f_equal.
    rewrite (take_ref_insert _ _ _ Hp). by apply insert_insert_ne. }
  cbn [negb]. rewrite (bind_run _ _ _ _ _ Hadd).
  erewrite bind_run; [|by apply heap_strdupW_granted].
  erewrite bind_run; [|apply upd_obj_run; simpl; apply lookup_insert_eq].
  set (st3 := set_objs _ _).
  assert (Ho3 : objs st3 !! r =
                Some {| ref := 1; buf_size := 4; props_cap := 4;
                        props := reserved_slots info None;
                        prototype := prototype0; builtin_info := info; ctx := None |}).
  { subst st3. simpl. by rewrite lookup_insert_eq. }
  assert (Hset : (match prototype0 with
                  | Some p =>
                      hres <- jsdisp_set_prot_prop r p ;;
                      if FAILED hres then DispatchEx_Release fuel r ;;; ret (Some hres)
                      else ret None
                  | None => ret None
                  end) st3
                 = Ret (@None HRESULT,
                        set_objs st (<[r := fresh_object None info prototype0]> m2))).
  { destruct prototype0 as [p|].
    - unfold jsdisp_set_prot_prop.
      rewrite !bind_bind. erewrite bind_run; [|eapply slot_run; [exact Ho3|reflexivity]].
      cbn [name]. rewrite bind_bind.
      erewrite bind_run; [|eapply upd_slot_run; [exact Ho3|reflexivity]].
      erewrite bind_run; [|apply ret_run]. change (FAILED S_OK) with false. cbv iota.
      unfold ret. do 2 f_equal. subst st3. unfold set_objs; simpl.
      rewrite !insert_insert_eq. done.
    - unfold ret. do 2 f_equal. subst st3. unfold set_objs; simpl.
      rewrite !insert_insert_eq. done. }
  rewrite (bind_run _ _ _ _ _ Hset).
  erewrite bind_run; [|reflexivity].
  erewrite bind_run; [|apply upd_obj_run; simpl; apply lookup_insert_eq].
  unfold ret. do 2 f_equal. unfold set_objs; simpl. rewrite Hal, insert_insert_eq. done.
Qed.

Lemma create_dispex_granted_run fuel c info prototype0 st :
  allocs st = [] -> objs st !! brk st = None -> prototype_live st prototype0 ->
  create_dispex fuel c info prototype0 st
  = Ret ((S_OK, Some (brk st)),
         {| objs := <[brk st := fresh_object c (default dispex_info info) prototype0]>
                      (match prototype0 with
                       | Some p => take_ref (objs st) p
                       | None => objs st
                       end);
            brk := S (brk st); allocs := []; log := log st ++ [script_addref c] |}).
Proof.
  intros Hal Hfree Hlive. unfold create_dispex, heap_alloc_zero.
  rewrite bind_bind. erewrite bind_run; [|by apply heap_alloc_granted]. cbv beta iota.
  erewrite bind_run; [|reflexivity]. cbv beta iota.
  erewrite bind_run; [|by apply init_dispex_granted_run]. simpl.
  replace (match info with Some b => b | None => dispex_info end)
    with (default dispex_info info) by (by destruct info).
  done.
Qed.

End Construction.

Lemma chain_fresh st this l p : chain st this l -> objs st !! p = None -> p ∉ l.
Proof.
  induction 1 as [this o Ho Hp|this o q l Ho Hp Hnin Hch IH]; intros Hfree.
  - apply not_elem_of_cons. split; [congruence|apply not_elem_of_nil].
  - apply not_elem_of_cons. split; [congruence|auto].
Qed.

(** A chain is still a chain when the objects on it keep their prototype
    field and stay live. *)
Lemma chain_preserved st st' this l :
  chain st this l ->
  (forall p o, p ∈ l -> objs st !! p = Some o ->
     exists o', objs st' !! p = Some o' /\ prototype o' = prototype o) ->
  chain st' this l.
Proof.
  induction 1 as [this o Ho Hp|this o q l Ho Hp Hnin Hch IH]; intros Hkeep.
  - destruct (Hkeep this o) as (o' & Ho' & Hp'); [apply elem_of_cons; by left|done|].
    apply (chain_root _ _ o'); [done|congruence].
  - destruct (Hkeep this o) as (o' & Ho' & Hp'); [apply elem_of_cons; by left|done|].
    apply (chain_step _ _ o' q); [done|congruence|done|]. apply IH.
    intros p op Hin. apply Hkeep, elem_of_cons. by right.
Qed.

(** X11. The constructor.  When no allocation is refused, [create_dispex]
    returns [S_OK] and a new object at a fresh address: one holder, a slot
    array of four with the two reserved slots in use (slot 0 for the value
    of the object, slot 1 named "prototype" and holding the prototype when
    there is one), the class given or the default class, the script
    context taken; the prototype has one holder more and nothing else
    changes.  The table of the new object is well-formed, and its
    prototype chain is the chain of the prototype with the object in
    front. *)
Theorem create_dispex_fresh `{Host} (fuel : nat) (c : option nat)
    (info : option builtin_info_t) (prototype0 : option ptr) (st : state) :
  allocs st = [] -> objs st !! brk st = None -> prototype_live st prototype0 ->
  let st' := {| objs := <[brk st := fresh_object c (default dispex_info info) prototype0]>
                          (match prototype0 with
                           | Some p => take_ref (objs st) p
                           | None => objs st
                           end);
                brk := S (brk st); allocs := []; log := log st ++ [script_addref c] |} in
  create_dispex fuel c info prototype0 st = Ret ((S_OK, Some (brk st)), st') /\
  table_ok (fresh_object c (default dispex_info info) prototype0) /\
  match prototype0 with
  | Some p => forall l, chain st p l -> chain st' (brk st) (brk st :: l)
  | None => chain st' (brk st) [brk st]
  end.
Proof.
  intros Hal Hfree Hlive st'. split; [by apply create_dispex_granted_run|].
  split; [unfold table_ok, prop_cnt; simpl; lia|].
  destruct prototype0 as [p|].
  - intros l Hch. pose proof (chain_fresh _ _ _ _ Hch Hfree) as Hnin.
    eapply chain_step; [simpl; apply lookup_insert_eq|done|done|].
    eapply chain_preserved; [exact Hch|]. intros q oq Hq Hoq. subst st'. simpl.
    rewrite lookup_insert_ne by (intros <-; congruence). unfold take_ref.
    destruct (decide (q = p)) as [->|Hne].
    + rewrite lookup_alter_eq, Hoq. eauto.
    + rewrite lookup_alter_ne by done. eauto.
  - eapply chain_root; [simpl; apply lookup_insert_eq|done].
Qed.

Lemma create_dispex_fresh_witness :
  exists st',
    create_dispex (H := quiet_host) 1 None None (Some 1%nat) st_own_x
    = Ret ((S_OK, Some 2%nat), st') /\
    objs st' !! 2%nat = Some (fresh_object None dispex_info (Some 1%nat)) /\
    (ref <$> objs st' !! 1%nat) = Some 2 /\
    chain st' 2%nat [2%nat; 1%nat].
Proof.
  destruct (create_dispex_fresh (H := quiet_host) 1 None None (Some 1%nat) st_own_x
              eq_refl eq_refl ltac:(by eexists)) as (Hrun & _ & Hchain).
  eexists. split; [exact Hrun|]. split; [reflexivity|]. split; [reflexivity|].
  apply Hchain, st_own_x_chain.
Defined.

Section Destruction.
Context `{Host}.

(** The release of the last holder of an object of a class without
    destructor. *)
Lemma Release_last_run fuel st this o :
  objs st !! this = Some o -> ref o = 1 -> destructor (builtin_info o) = None ->
  payloads_ok (props o) -> can_drop this (holds (props o)) (objs st) ->
  DispatchEx_Release (S (S fuel)) this st
  = Ret (0, {| objs := delete this (drop_refs (holds (props o)) (objs st));
               brk := brk st; allocs := allocs st;
               log := log st ++ free_names this (props o) ++
                      [heap_free_props this; script_release (ctx o); heap_free_This this] |}).
Proof.
  intros Ho Href Hdes Hok Hdrop. cbn [DispatchEx_Release].
  rewrite (bind_run _ _ _ _ _ (upd_obj_run _ _ _ _ Ho)). rewrite Href.
  change (as_LONG (1 - 1)) with 0.
  set (o0 := set_ref o 0). set (st0 := set_objs st (<[this := o0]> (objs st))).
  assert (Ho0 : objs st0 !! this = Some o0) by apply lookup_insert_eq.
  rewrite (bind_run _ _ _ _ _ (obj_run _ _ _ Ho0)).
  change (ref o0 =? 0) with true. cbv iota.
  pose proof (release_props_loop_run fuel this (props o) [] o0 st0
                (length (props o0)) Ho0 eq_refl (Nat.le_refl _) Hok
                (can_drop_insert _ _ _ _ Hdrop)) as Hloop.
  change (length []) with 0%nat in Hloop.
  rewrite bind_bind, (bind_run _ _ _ _ _ Hloop).
  rewrite bind_bind. erewrite bind_run; [|reflexivity].
  rewrite bind_bind. erewrite bind_run; [|apply obj_run; simpl; apply lookup_insert_eq].
  rewrite bind_bind. erewrite bind_run; [|reflexivity].
  simpl. rewrite Hdes.
  unfold ret, free_obj, emit, bind, set_objs; simpl.
  rewrite delete_insert_eq. rewrite drop_refs_insert by done. rewrite delete_insert_eq.
  do 3 f_equal. rewrite <- !app_assoc. done.
Qed.

End Destruction.

Lemma drop_take_ref m p op :
  m !! p = Some op -> 0 < ref op < INT_MAX -> drop_ref (take_ref m p) p = m.
Proof.
  intros Hp Href. unfold drop_ref, take_ref, INT_MAX in *. apply map_eq. intros q.
  destruct (decide (q = p)) as [->|Hne].
  - rewrite !lookup_alter_eq, Hp. simpl. f_equal.
    rewrite (as_LONG_small (ref op + 1)) by lia.
    replace (ref op + 1 - 1) with (ref op) by lia. rewrite as_LONG_small by lia.
    by destruct op.
  - by rewrite !lookup_alter_ne.
Qed.

(** X12. Create, then release.  An object that is created and released at
    once leaves no trace among the objects: the store holds the objects it
    held, the prototype has the count it had, and the heap has taken back
    the two names, the slot array and the object (the class has no
    destructor, no allocation is refused). *)
Theorem create_then_Release `{Host} (fuel fuel' : nat) (c : option nat)
    (info : option builtin_info_t) (prototype0 : option ptr) (st : state) :
  allocs st = [] -> objs st !! brk st = None -> prototype_holdable st prototype0 ->
  destructor (default dispex_info info) = None ->
  (r <- create_dispex fuel c info prototype0 ;;
   match snd r with
   | Some d => DispatchEx_Release (S (S fuel')) d
   | None => ret 0
   end) st
  = Ret (0, {| objs := objs st; brk := S (brk st); allocs := [];
               log := log st ++
                      [ script_addref c;
                        heap_free_name (brk st) None;
                        heap_free_name (brk st) (Some (wstr "prototype"));
                        heap_free_props (brk st); script_release c;
                        heap_free_This (brk st) ] |}).
Proof.
  intros Hal Hfree Hhold Hdes.
  assert (Hlive : prototype_live st prototype0).
  { destruct prototype0; [|done]. destruct Hhold as (op & Hp & _). by exists op. }
  rewrite (bind_run _ _ _ _ _ (create_dispex_granted_run _ _ _ _ _ Hal Hfree Hlive)).
  cbn [snd].
  set (d := brk st). set (new := fresh_object c (default dispex_info info) prototype0).
  assert (Hholds : holds (props new) = match prototype0 with Some p => [p] | None => [] end).
  { subst new. unfold holds, fresh_object, reserved_slots; simpl.
    destruct (b_invoke _), prototype0; done. }
  set (st1 := {| objs := <[d := new]> (match prototype0 with
                                        | Some p => take_ref (objs st) p
                                        | None => objs st
                                        end);
                 brk := S (brk st); allocs := []; log := log st ++ [script_addref c] |}).
  assert (Hok : payloads_ok (props new)).
  { subst new. unfold payloads_ok, fresh_object, reserved_slots; simpl.
    repeat constructor; simpl; [destruct (b_invoke _); done|].
    destruct prototype0; [eauto|done]. }
  assert (Hdrop : can_drop d (holds (props new)) (objs st1)).
  { rewrite Hholds. destruct prototype0 as [p|]; simpl; [|done].
    destruct Hhold as (op & Hp & Href). unfold INT_MAX in Href.
    assert (Hne : p <> d) by (intros ->; subst d; congruence).
    split; [done|]. split; [|done].
    rewrite lookup_insert_ne by done. rewrite (take_ref_insert _ _ _ Hp), lookup_insert_eq.
    eexists. split; [done|]. simpl. rewrite (as_LONG_small (ref op + 1)) by lia.
    rewrite as_LONG_small by lia. lia. }
  pose proof (Release_last_run fuel' st1 d new (lookup_insert_eq _ _ _) eq_refl Hdes Hok Hdrop)
    as Hrel.
  rewrite Hholds in Hrel. etrans; [exact Hrel|]. do 2 f_equal. f_equal.
  - subst st1; simpl. destruct prototype0 as [p|]; simpl.
    + destruct Hhold as (op & Hp & Href).
      assert (Hne : p <> d) by (intros ->; subst d; congruence).
      rewrite drop_ref_insert_ne by done. rewrite delete_insert_eq.
      rewrite (drop_take_ref _ _ _ Hp Href). by apply delete_id.
    + rewrite delete_insert_eq. by apply delete_id.
  - subst st1; simpl. rewrite <- app_assoc. done.
Qed.

Lemma create_then_Release_witness :
  (r <- create_dispex (H := quiet_host) 1 None None (Some 1%nat) ;;
   match snd r with
   | Some d => DispatchEx_Release (H := quiet_host) 2 d
   | None => ret 0
   end) st_own_x
  = Ret (0, {| objs := objs st_own_x; brk := 3%nat; allocs := [];
               log := [ script_addref None;
                        heap_free_name 2%nat None;
                        heap_free_name 2%nat (Some (wstr "prototype"));
                        heap_free_props 2%nat; script_release None;
                        heap_free_This 2%nat ] |}).
Proof.
  apply (create_then_Release (H := quiet_host) 1 0 None None (Some 1%nat) st_own_x
           eq_refl eq_refl); [|reflexivity].
  eexists. split; [reflexivity|]. by vm_compute.
Defined.

(** X13. The constructor under memory pressure.  When the block of the
    object or its slot array is refused, [create_dispex] answers
    [E_OUTOFMEMORY] and stores no object; the objects there were are as
    they were (the prototype keeps its count) and nothing is logged.  In
    the second case the block of the object is not given back: it stays at
    its address, with no slot array. *)
Theorem create_dispex_out_of_memory `{Host} (fuel : nat) (c : option nat)
    (info : option builtin_info_t) (prototype0 : option ptr) (st : state) (rest : list bool) :
  (allocs st = false :: rest ->
   create_dispex fuel c info prototype0 st
   = Ret ((E_OUTOFMEMORY, None),
          {| objs := objs st; brk := brk st; allocs := rest; log := log st |})) /\
  (allocs st = true :: false :: rest ->
   create_dispex fuel c info prototype0 st
   = Ret ((E_OUTOFMEMORY, None),
          {| objs := <[brk st := blank_object (default dispex_info info)]> (objs st);
             brk := S (brk st); allocs := rest; log := log st |})).
Proof.
  split; intros Hal; unfold create_dispex, heap_alloc_zero, init_dispex, bind, heap_alloc,
    put_obj, ret, set_objs; rewrite Hal; simpl; [done|].
  by destruct info.
Qed.

Lemma create_dispex_out_of_memory_witness :
  create_dispex (H := quiet_host) 1 None None None (sample_state ∅ 1%nat [false])
  = Ret ((E_OUTOFMEMORY, None), sample_state ∅ 1%nat []) /\
  create_dispex (H := quiet_host) 1 None None None (sample_state ∅ 1%nat [true; false])
  = Ret ((E_OUTOFMEMORY, None),
         sample_state {[ 1%nat := blank_object dispex_info ]} 2%nat []).
Proof.
  split.
  - apply (proj1 (create_dispex_out_of_memory (H := quiet_host) 1 None None None
                    (sample_state ∅ 1%nat [false]) [])).
    reflexivity.
  - apply (proj2 (create_dispex_out_of_memory (H := quiet_host) 1 None None None
                    (sample_state ∅ 1%nat [true; false]) [])).
    reflexivity.
Defined.

(** ** Enumeration *)

Lemma bind_fault {A B} (m : M A) (k : A -> M B) st :
  m st = Fault -> (x <- m ;; k x) st = Fault.
Proof. unfold bind. by intros ->. Qed.

(** The scan for the NULL name dereferences it at the first named slot. *)
Lemma find_prop_name_NULL_faults this st o :
  objs st !! this = Some o -> reserved_named o -> find_prop_name this None st = Fault.
Proof.
  intros Ho (q0 & q1 & rest & Hp & Hn0 & [n1 Hn1]). unfold find_prop_name.
  rewrite (bind_run _ _ _ _ _ (obj_run _ _ _ Ho)). rewrite Hp.
  cbn [find_prop_name_scan]. rewrite Hn0, Hn1. done.
Qed.

Lemma fill_protrefs_root fuel st this o :
  objs st !! this = Some o -> prototype o = None ->
  fill_protrefs (S fuel) this st = Ret (S_OK, st).
Proof.
  intros Ho Hp. cbn [fill_protrefs]. rewrite (bind_run _ _ _ _ _ (obj_run _ _ _ Ho)).
  by rewrite Hp.
Qed.

Lemma fill_protrefs_faults fuel : forall st this l,
  chain st this l -> (2 <= length l)%nat -> (length l <= fuel)%nat ->
  (forall p o, p ∈ l -> objs st !! p = Some o -> reserved_named o) ->
  fill_protrefs fuel this st = Fault.
Proof.
  induction fuel as [|fuel IH]; intros st this l Hchain Hlen Hfuel Hres; [lia|].
  inversion Hchain as [? o Ho Hp|? o p l1 Ho Hp Hnin Hch]; subst; [simpl in Hlen; lia|].
  cbn [fill_protrefs]. rewrite (bind_run _ _ _ _ _ (obj_run _ _ _ Ho)). rewrite Hp.
  assert (Hin : forall q oq, q ∈ l1 -> objs st !! q = Some oq -> reserved_named oq).
  { intros q oq Hq. apply Hres, elem_of_cons. by right. }
  destruct (decide (2 <= length l1)%nat) as [Hlong|Hshort].
  - apply bind_fault. eapply IH; eauto. simpl in Hfuel. lia.
  - inversion Hch as [? po Hpo Hpp|? po pp l2 Hpo Hpp Hnin2 Hch2]; subst;
      [|destruct Hch2; simpl in Hshort; lia].
    destruct fuel as [|fuel]; [simpl in Hfuel; lia|].
    rewrite (bind_run _ _ _ _ _ (fill_protrefs_root _ _ _ _ Hpo Hpp)).
    rewrite (bind_run _ _ _ _ _ (obj_run _ _ _ Hpo)).
    apply bind_fault.
    destruct (Hin p po) as (q0 & q1 & rest & Hprops & Hn0 & Hn1);
      [apply elem_of_cons; by left|done|].
    rewrite Hprops. cbn [length fill_protrefs_loop].
    rewrite (bind_run _ _ _ _ _ (obj_run _ _ _ Hpo)).
    assert (Hcnt : (prop_cnt po <=? Z.of_nat 0) = false).
    { apply Z.leb_gt. unfold prop_cnt. rewrite Hprops. simpl. lia. }
    rewrite Hcnt.
    erewrite bind_run; [|eapply slot_run; [exact Hpo|by rewrite Hprops]].
    apply bind_fault. rewrite Hn0.
    eapply find_prop_name_NULL_faults; [exact Ho|].
    apply (Hres this o); [apply elem_of_cons; by left|done].
Qed.

(** X14. Enumeration below a prototype.  On an object that has a prototype,
    where every object of the chain has its reserved slots as
    [init_dispex] makes them (slot 0 without a name, slot 1 named), the
    start of an enumeration hands the NULL name of the prototype's slot 0
    to the name comparison, which dereferences it: [fill_protrefs], and
    with it [DispatchEx_GetNextDispID] from the start sentinel, is
    undefined. *)
Theorem GetNextDispID_below_prototype_faults (fuel : nat) (st : state) (this : ptr)
    (l : list ptr) (grfdex : Z) :
  chain st this l -> (2 <= length l)%nat -> (length l <= fuel)%nat ->
  (forall p o, p ∈ l -> objs st !! p = Some o -> reserved_named o) ->
  fill_protrefs fuel this st = Fault /\
  DispatchEx_GetNextDispID fuel this grfdex DISPID_STARTENUM st = Fault.
Proof.
  intros Hchain Hlen Hfuel Hres.
  pose proof (fill_protrefs_faults fuel st this l Hchain Hlen Hfuel Hres) as Hf.
  split; [done|]. unfold DispatchEx_GetNextDispID.
  change (DISPID_STARTENUM =? DISPID_STARTENUM) with true. cbv iota.
  by apply bind_fault.
Qed.

Lemma GetNextDispID_below_prototype_faults_witness :
  fill_protrefs 2 2%nat st_pair = Fault /\
  DispatchEx_GetNextDispID 2 2%nat 0 DISPID_STARTENUM st_pair = Fault.
Proof.
  apply (GetNextDispID_below_prototype_faults 2 st_pair 2%nat [2%nat; 1%nat] 0
           st_pair_chain); [simpl; lia|simpl; lia|apply st_pair_reserved].
Defined.

(** [get_flags] changes the store only when it finds a stale reference,
    and then it returns 0. *)
Lemma get_flags_nonzero fuel : forall this i st fl st',
  get_flags fuel this i st = Ret (fl, st') -> fl <> 0 -> st' = st.
Proof.
  induction fuel as [|fuel IH]; intros this i st fl st' Hrun Hnz;
    cbn [get_flags] in Hrun; [destruct (timeout_inv _ _ Hrun)|].
  apply bind_inv in Hrun as (prop & st1 & Hslot & Hrun).
  apply slot_inv in Hslot as [-> _].
  destruct (decide (type prop = PROP_PROTREF)); [|by apply ret_inv in Hrun as [_ ->]].
  apply bind_inv in Hrun as (o & st1 & Hobj & Hrun). apply obj_inv in Hobj as [-> _].
  destruct (prototype o) as [p|]; [|destruct (fault_inv _ _ Hrun)].
  destruct (u prop) as [| | |r]; try destruct (fault_inv _ _ Hrun).
  apply bind_inv in Hrun as (po & st1 & Hobj & Hrun). apply obj_inv in Hobj as [-> _].
  destruct (get_prop po (as_LONG r)) as [j|]; [by eapply IH|].
  apply bind_inv in Hrun as ([] & st1 & _ & [-> _]%ret_inv). done.
Qed.

Lemma GetNextDispID_loop_sound fuel this n : forall i st hres pid st',
  GetNextDispID_loop fuel n this i st = Ret ((hres, pid), st') ->
  (hres = S_FALSE /\ pid = DISPID_STARTENUM) \/
  (hres = S_OK /\ Z.of_nat i <= pid /\
   exists o' q fl, objs st' !! this = Some o' /\ props o' !! Z.to_nat pid = Some q /\
     is_Some (name q) /\ get_flags fuel this (Z.to_nat pid) st' = Ret (fl, st') /\
     Z.land fl PROPF_ENUM <> 0).
Proof.
  induction n as [|n IH]; intros i st hres pid st' Hrun; cbn [GetNextDispID_loop] in Hrun;
    apply bind_inv in Hrun as (o & st1 & Hobj & Hrun); apply obj_inv in Hobj as [-> Ho];
    (destruct (prop_cnt o <=? Z.of_nat i);
      [apply ret_inv in Hrun as [[= -> ->] _]; by left|]);
    [destruct (timeout_inv _ _ Hrun)|].
  assert (Hnext : forall st1,
    GetNextDispID_loop fuel n this (S i) st1 = Ret ((hres, pid), st') ->
    (hres = S_FALSE /\ pid = DISPID_STARTENUM) \/
    (hres = S_OK /\ Z.of_nat i <= pid /\
     exists o' q fl, objs st' !! this = Some o' /\ props o' !! Z.to_nat pid = Some q /\
       is_Some (name q) /\ get_flags fuel this (Z.to_nat pid) st' = Ret (fl, st') /\
       Z.land fl PROPF_ENUM <> 0)).
  { intros st1 [?|(? & Hle & ?)]%IH; [by left|right]. split; [done|]. split; [lia|done]. }
  apply bind_inv in Hrun as (iter & st1 & Hslot & Hrun).
  apply slot_inv in Hslot as [-> (o0 & Ho0 & Hiter)]. assert (o0 = o) as -> by congruence.
  destruct (name iter) as [nm|] eqn:Hname; [|by eapply Hnext].
  apply bind_inv in Hrun as (fl & st1 & Hfl & Hrun).
  destruct (Z.eqb_spec (Z.land fl PROPF_ENUM) 0) as [|Hen]; [by eapply Hnext|].
  apply ret_inv in Hrun as [[= -> ->] ->]. right.
  assert (fl <> 0) by (intros ->; by rewrite Z.land_0_l in Hen).
  pose proof (get_flags_nonzero _ _ _ _ _ _ Hfl ltac:(done)) as ->.
  split; [done|]. split; [unfold prop_to_id; lia|].
  unfold prop_to_id. rewrite Nat2Z.id. exists o, iter, fl. rewrite Hname. eauto 6.
Qed.

(** X15. What an enumeration step yields.  When [DispatchEx_GetNextDispID]
    answers [S_OK], the identifier it stores lies strictly after the
    cursor and names a slot of the object that has a name and whose
    effective flags include the enumerable flag; when it answers
    [S_FALSE], it stores the start sentinel.  So a pass never yields an
    identifier twice, nor a slot that is not enumerable. *)
Theorem GetNextDispID_sound (fuel : nat) (st st' : state) (this : ptr) (grfdex : Z)
    (id pid : DISPID) (hres : HRESULT) :
  DispatchEx_GetNextDispID fuel this grfdex id st = Ret ((hres, pid), st') ->
  (hres = S_OK ->
   id < pid /\
   exists o' q fl, objs st' !! this = Some o' /\ props o' !! Z.to_nat pid = Some q /\
     is_Some (name q) /\ get_flags fuel this (Z.to_nat pid) st' = Ret (fl, st') /\
     Z.land fl PROPF_ENUM <> 0) /\
  (hres = S_FALSE -> pid = DISPID_STARTENUM).
Proof.
  unfold DispatchEx_GetNextDispID. intros Hrun.
  apply bind_inv in Hrun as (hres0 & st1 & Hfill & Hrun).
  destruct (FAILED hres0) eqn:Hf.
  { apply ret_inv in Hrun as [[= -> ->] ->]. split; intros ->; done. }
  destruct (INT_MAX <? id + 1); [destruct (fault_inv _ _ Hrun)|].
  apply bind_inv in Hrun as (o & st2 & Hobj & Hrun). apply obj_inv in Hobj as [-> Ho].
  destruct (get_prop o (id + 1)) as [i|] eqn:Hget.
  - assert (Hi : Z.of_nat i = id + 1).
    { unfold get_prop in Hget. destruct (Z.ltb_spec (id + 1) 0); [done|].
      destruct (prop_cnt o <=? id + 1); [done|]. simpl in Hget.
      destruct (props o !! Z.to_nat (id + 1)); [|done].
      destruct (decide _); [done|]. injection Hget as <-. lia. }
    apply GetNextDispID_loop_sound in Hrun as [[-> ->]|(-> & Hle & Hslot)].
    + split; [done|]. done.
    + split; [|done]. intros _. split; [lia|done].
  - apply ret_inv in Hrun as [[= -> ->] ->]. split; done.
Qed.

Lemma GetNextDispID_sound_witness :
  exists st',
    DispatchEx_GetNextDispID 1 1%nat 0 1 st_own_x = Ret ((S_OK, 2), st') /\
    exists o' q fl, objs st' !! 1%nat = Some o' /\ props o' !! 2%nat = Some q /\
      is_Some (name q) /\ get_flags 1 1%nat 2%nat st' = Ret (fl, st') /\
      Z.land fl PROPF_ENUM <> 0.
Proof.
  eexists. split; [vm_compute; reflexivity|].
  apply (GetNextDispID_sound 1 st_own_x _ 1%nat 0 1 2 S_OK ltac:(vm_compute; reflexivity)).
  reflexivity.
Defined.

(** ** Several names at once *)

Lemma grows_GetDispID_0 fuel this nm st r st' :
  DispatchEx_GetDispID fuel this nm 0 st = Ret (r, st') -> grows (fun _ => False) st st'.
Proof.
  unfold DispatchEx_GetDispID. intros Hrun. simpl in Hrun.
  apply bind_inv in Hrun as (r1 & st1 & Hres & Hrun).
  assert (st' = st1) as ->.
  { destruct (FAILED (fst r1)); [by apply ret_inv in Hrun as [_ ->]|].
    destruct (snd r1); by apply ret_inv in Hrun as [_ ->]. }
  eapply grows_mono; [|eapply grows_find_prop_name_prot; exact Hres].
  intros p [[=] _].
Qed.

(** X16. [DispatchEx_GetIDsOfNames] looks the names up one after the other
    without the creation flag: it never adds a Value slot to any table
    (every table keeps its slots, and what is appended is a cache slot: a
    Builtin or a ProtoRef); on [S_OK] every entry of the identifier array is
    written, and the array has an entry per name in any case. *)
Theorem GetIDsOfNames_only_caches (fuel : nat) (this : ptr) (rgszNames : list (option wstring))
    (st st' : state) (hres : HRESULT) (rgDispId : list (option DISPID)) :
  DispatchEx_GetIDsOfNames fuel this rgszNames st = Ret ((hres, rgDispId), st') ->
  grows (fun _ => False) st st' /\
  length rgDispId = length rgszNames /\
  (hres = S_OK -> Forall is_Some rgDispId).
Proof.
  revert st hres rgDispId. induction rgszNames as [|nm rest IH]; intros st hres ids Hrun;
    cbn [DispatchEx_GetIDsOfNames] in Hrun.
  - apply ret_inv in Hrun as [[= -> ->] ->]. split; [apply grows_refl|]. split; done.
  - apply bind_inv in Hrun as (r & st1 & Hget & Hrun).
    pose proof (grows_GetDispID_0 _ _ _ _ _ _ Hget) as Hg1.
    destruct (FAILED (fst r)) eqn:Hf.
    + apply ret_inv in Hrun as [[= -> ->] ->]. split; [done|]. split.
      * simpl. by rewrite length_fmap.
      * intros E. rewrite E in Hf. done.
    + apply bind_inv in Hrun as (r' & st2 & Hrest & [[= -> ->] ->]%ret_inv).
      destruct r' as [hres' ids']. destruct (IH _ _ _ Hrest) as (Hg2 & Hlen & Hall).
      split; [by eapply grows_trans|]. split; [simpl; by rewrite Hlen|].
      intros E. apply Forall_cons. split; [|by apply Hall].
      unfold DispatchEx_GetDispID in Hget. simpl in Hget.
      apply bind_inv in Hget as (r1 & st3 & _ & Hget).
      destruct (FAILED (fst r1)) eqn:Hf1.
      { apply ret_inv in Hget as [-> _]. simpl in Hf. congruence. }
      destruct (snd r1); apply ret_inv in Hget as [-> _]; [done|done].
Qed.

Lemma GetIDsOfNames_only_caches_witness :
  exists ids st',
    DispatchEx_GetIDsOfNames 2 2%nat [Some (wstr "greet"); Some (wstr "trim")] st_pair
    = Ret ((S_OK, ids), st') /\
    grows (fun _ => False) st_pair st' /\ length ids = 2%nat /\ Forall is_Some ids.
Proof.
  eexists _, _. split; [vm_compute; reflexivity|].
  destruct (GetIDsOfNames_only_caches 2 2%nat [Some (wstr "greet"); Some (wstr "trim")]
              st_pair _ S_OK _ ltac:(vm_compute; reflexivity)) as (Hg & Hl & Hs).
  split; [exact Hg|]. split; [exact Hl|]. by apply Hs.
Defined.

(** ** The call path *)

Lemma existsb_this ids :
  existsb (Z.eqb DISPID_THIS) ids = true <-> DISPID_THIS ∈ ids.
Proof.
  rewrite existsb_exists. split.
  - intros (x & Hin & ->%Z.eqb_eq). by apply list_elem_of_In.
  - intros Hin. exists DISPID_THIS. split; [by apply list_elem_of_In|apply Z.eqb_refl].
Qed.

(** X17. [set_this] passes the receiver once.  When the caller names no
    [DISPID_THIS] argument, the receiver is put in front of the arguments
    and [DISPID_THIS] in front of the named identifiers, the arguments of
    the caller following in their order; when the caller names one, the
    parameters go through as they are and nothing is allocated.  Applied to
    its own result, [set_this] changes nothing, whatever receiver it is
    given. *)
Theorem set_this_once (dp : DISPPARAMS) (jsthis : ptr) (st : state) :
  allocs st = [] ->
  exists dp',
    CallPath.set_this dp jsthis st = Ret ((S_OK, Some dp'), st) /\
    (DISPID_THIS ∈ rgdispidNamedArgs dp -> dp' = dp) /\
    (DISPID_THIS ∉ rgdispidNamedArgs dp ->
     rgvarg dp' = VT_DISPATCH jsthis :: rgvarg dp /\
     rgdispidNamedArgs dp' = DISPID_THIS :: rgdispidNamedArgs dp) /\
    forall jsthis' st', CallPath.set_this dp' jsthis' st' = Ret ((S_OK, Some dp'), st').
Proof.
  intros Hal. unfold CallPath.set_this.
  destruct (existsb (Z.eqb DISPID_THIS) (rgdispidNamedArgs dp)) eqn:Hex.
  - exists dp. split; [done|]. split; [done|]. split.
    + intros Hnin. by apply existsb_this in Hex.
    + intros jsthis' st'. by rewrite Hex.
  - assert (Hnin : DISPID_THIS ∉ rgdispidNamedArgs dp).
    { intros Hin%existsb_this. congruence. }
    rewrite (bind_run _ _ _ _ _ (heap_alloc_granted _ Hal)). cbn [negb].
    exists {| rgvarg := VT_DISPATCH jsthis :: rgvarg dp;
              rgdispidNamedArgs := DISPID_THIS :: rgdispidNamedArgs dp |}.
    split; [|split; [done|split; [done|]]].
    + destruct (rgdispidNamedArgs dp); [done|].
      by rewrite (bind_run _ _ _ _ _ (heap_alloc_granted _ Hal)).
    + intros jsthis' st'. simpl. done.
Qed.

Lemma set_this_once_witness :
  exists dp',
    CallPath.set_this no_args 1%nat empty_state = Ret ((S_OK, Some dp'), empty_state) /\
    rgvarg dp' = [VT_DISPATCH 1%nat] /\ rgdispidNamedArgs dp' = [DISPID_THIS] /\
    CallPath.set_this dp' 2%nat empty_state = Ret ((S_OK, Some dp'), empty_state).
Proof.
  destruct (set_this_once no_args 1%nat empty_state eq_refl) as (dp' & Hrun & _ & Hnew & Hfix).
  exists dp'. split; [exact Hrun|].
  destruct Hnew as [Hargs Hids].
  { intros Hin. apply list_elem_of_In in Hin. destruct Hin. }
  split; [exact Hargs|]. split; [exact Hids|]. apply Hfix.
Defined.

Section EngineCalls.
Context `{Host} `{Foreign}.

Lemma InvokeEx_method_run fuel fuel' this o i q fl dp res st :
  objs st !! this = Some o -> props o !! i = Some q -> type q <> PROP_DELETED ->
  fl = DISPATCH_METHOD \/ fl = DISPATCH_CONSTRUCT ->
  DispatchEx_InvokeEx (H := engine_host _ _ fuel') fuel this (prop_to_id i) fl dp res st
  = CallPath.invoke_prop_func fuel' this this i fl dp
      (match res with Some _ => Some VT_EMPTY | None => None end) st.
Proof.
  intros Ho Hq Hty Hfl. unfold DispatchEx_InvokeEx, prop_to_id.
  rewrite (bind_run _ _ _ _ _ (obj_run _ _ _ Ho)). rewrite (get_prop_live o i q) by done.
  destruct Hfl as [-> | ->]; done.
Qed.

End EngineCalls.

(** X18. An inherited method runs on the child.  A method call through the
    interface on a slot that refers to a built-in of the prototype invokes
    the descriptor with the object the call was made on as the receiver,
    not the prototype that owns the slot. *)
Theorem inherited_method_binds_this `{Host} `{Foreign} (fuel fuel' : nat) (st : state)
    (O P : ptr) (o po : DispatchEx) (i : nat) (q qp : dispex_prop_t) (r : Z)
    (b : builtin_prop_t) (f : nat) (dp : DISPPARAMS) (res : option VARIANT) :
  objs st !! O = Some o -> prototype o = Some P -> objs st !! P = Some po ->
  props o !! i = Some q -> type q = PROP_PROTREF -> u q = u_ref r ->
  props po !! Z.to_nat r = Some qp -> type qp = PROP_BUILTIN -> u qp = u_p b ->
  b_invoke b = Some f ->
  DispatchEx_InvokeEx (H := engine_host _ _ (S (S fuel'))) fuel O (prop_to_id i)
    DISPATCH_METHOD dp res st
  = builtin_invoke f O DISPATCH_METHOD dp
      (match res with Some _ => Some VT_EMPTY | None => None end) st.
Proof.
  intros Ho Hproto Hpo Hq Hty Hu Hqp Htyp Hup Hf.
  rewrite (InvokeEx_method_run _ _ _ o i q) by (auto; congruence).
  cbn [CallPath.invoke_prop_func].
  rewrite (bind_run _ _ _ _ _ (slot_run _ _ _ _ _ Ho Hq)). rewrite Hty.
  rewrite (bind_run _ _ _ _ _ (obj_run _ _ _ Ho)). rewrite Hproto, Hu.
  rewrite (bind_run _ _ _ _ _ (slot_run _ _ _ _ _ Hpo Hqp)). rewrite Htyp.
  change (DISPATCH_METHOD =? DISPATCH_CONSTRUCT) with false. cbn [andb].
  by rewrite Hup, Hf.
Qed.

Lemma inherited_method_binds_this_witness :
  DispatchEx_InvokeEx (H := engine_host quiet_host quiet_foreign 2) 1 2%nat 2
    DISPATCH_METHOD no_args None st_inherits_greet
  = builtin_invoke (Host := quiet_host) 0%nat 2%nat DISPATCH_METHOD no_args None
      st_inherits_greet.
Proof.
  apply (inherited_method_binds_this (H := quiet_host) (H0 := quiet_foreign) 1 0
           st_inherits_greet 2%nat 1%nat
           (sample_object 1 dispex_info (Some 1%nat)
              [ {| name := Some (wstr "greet"); type := PROP_PROTREF; flags := 0;
                   u := u_ref 2 |} ])
           (sample_object 2 greeter_info None
              [ {| name := Some (wstr "greet"); type := PROP_BUILTIN;
                   flags := PROPF_METHOD; u := u_p greet_prop |} ])
           2%nat
           {| name := Some (wstr "greet"); type := PROP_PROTREF; flags := 0; u := u_ref 2 |}
           {| name := Some (wstr "greet"); type := PROP_BUILTIN;
              flags := PROPF_METHOD; u := u_p greet_prop |}
           2 greet_prop 0%nat no_args None);
    reflexivity.
Defined.

(** X19. Calling what is not callable.  A method or constructor call through
    the interface on a Value slot whose payload is not an object (a number,
    a string, nothing) fails with [E_FAIL]; the result variant is emptied
    and the store is left as it was. *)
Theorem invoke_not_callable `{Host} `{Foreign} (fuel fuel' : nat) (st : state) (this : ptr)
    (o : DispatchEx) (i : nat) (q : dispex_prop_t) (v : VARIANT) (fl : Z) (dp : DISPPARAMS)
    (res : option VARIANT) :
  objs st !! this = Some o -> props o !! i = Some q ->
  type q = PROP_VARIANT -> u q = u_var v -> (forall d, v <> VT_DISPATCH d) ->
  fl = DISPATCH_METHOD \/ fl = DISPATCH_CONSTRUCT ->
  DispatchEx_InvokeEx (H := engine_host _ _ (S fuel')) fuel this (prop_to_id i) fl dp res st
  = Ret ((E_FAIL, match res with Some _ => Some VT_EMPTY | None => None end), st).
Proof.
  intros Ho Hq Hty Hu Hv Hfl.
  rewrite (InvokeEx_method_run _ _ _ o i q) by (auto; congruence).
  cbn [CallPath.invoke_prop_func].
  rewrite (bind_run _ _ _ _ _ (slot_run _ _ _ _ _ Ho Hq)). rewrite Hty, Hu.
  destruct v as [| | |d]; try done. by destruct (Hv d).
Qed.

Lemma invoke_not_callable_witness :
  DispatchEx_InvokeEx (H := engine_host quiet_host quiet_foreign 1) 1 1%nat 2
    DISPATCH_METHOD no_args (Some (VT_I4 0)) st_own_x
  = Ret ((E_FAIL, Some VT_EMPTY), st_own_x).
Proof.
  apply (invoke_not_callable (H := quiet_host) (H0 := quiet_foreign) 1 0 st_own_x 1%nat
           (sample_object 1 dispex_info None [own_value "x" (VT_I4 5)]) 2%nat
           (own_value "x" (VT_I4 5)) (VT_I4 5) DISPATCH_METHOD no_args (Some (VT_I4 0)));
    [reflexivity|reflexivity|reflexivity|reflexivity|discriminate|by left].
Defined.

(** X20. [disp_call] on a host object holds the object for the time of the
    call.  When the identifier names no live slot, the call answers
    [DISP_E_MEMBERNOTFOUND] and the store is exactly as before: the count
    [iface_to_jsdisp] took has been given back. *)
Theorem disp_call_unknown_id `{Host} `{Foreign} (fuel : nat) (st : state) (p : ptr)
    (o : DispatchEx) (id : DISPID) (fl : Z) (dp : DISPPARAMS) (retv : option VARIANT) :
  objs st !! p = Some o -> 0 < ref o < INT_MAX ->
  id < 0 \/ prop_cnt o <= id \/
  (exists q, props o !! Z.to_nat id = Some q /\ type q = PROP_DELETED) ->
  CallPath.disp_call (S fuel) (jsdisp_object p) id fl dp retv st
  = Ret ((DISP_E_MEMBERNOTFOUND, match retv with Some _ => Some VT_EMPTY | None => None end),
         st).
Proof.
  intros Ho Href Hid. unfold INT_MAX in Href.
  unfold CallPath.disp_call, CallPath.disp_call_with, CallPath.iface_to_jsdisp,
    CallPath.DispatchEx_QueryInterface.
  pose proof (AddRef_run p st o Ho) as Hadd. rewrite as_LONG_small in Hadd by lia.
  rewrite !bind_bind, (bind_run _ _ _ _ _ Hadd).
  erewrite bind_run; [|apply ret_run]. change (FAILED S_OK) with false. cbv iota.
  erewrite bind_run; [|apply ret_run]. cbn [snd].
  unfold CallPath.jsdisp_call_with. rewrite !bind_bind.
  erewrite bind_run; [|apply obj_run; simpl; apply lookup_insert_eq].
  rewrite (get_prop_none (set_ref o (ref o + 1)) id) by done.
  erewrite bind_run; [|apply ret_run].
  assert (Hback : as_LONG (ref (set_ref o (ref o + 1)) - 1) = ref o).
  { simpl. replace (ref o + 1 - 1) with (ref o) by lia. apply as_LONG_small. lia. }
  erewrite bind_run;
    [|apply Release_keeps_run; [simpl; apply lookup_insert_eq|rewrite Hback; lia]].
  unfold ret. do 2 f_equal. rewrite Hback. unfold set_objs; simpl. rewrite insert_insert_eq.
  change (set_ref (set_ref o (ref o + 1)) (ref o)) with (set_ref o (ref o)).
  replace (set_ref o (ref o)) with o by (by destruct o).
  rewrite insert_id by done. by destruct st.
Qed.

Lemma disp_call_unknown_id_witness :
  CallPath.disp_call (H := quiet_host) (H0 := quiet_foreign) 1 (jsdisp_object 1%nat) 7
    DISPATCH_METHOD no_args None st_own_x
  = Ret ((DISP_E_MEMBERNOTFOUND, None), st_own_x).
Proof.
  apply (disp_call_unknown_id (H := quiet_host) (H0 := quiet_foreign) 0 st_own_x 1%nat
           (sample_object 1 dispex_info None [own_value "x" (VT_I4 5)]) 7
           DISPATCH_METHOD no_args None eq_refl);
    [by vm_compute|right; left; by vm_compute].
Defined.

(** ** The call path respects the tables *)

Section CallPathBelow.
Context `{Host} `{Foreign}.
Hypothesis Hhost : host_evolves H.
Hypothesis Hforeign : foreign_evolves H0.
Variable b : ptr.

Lemma pres_set_this dp jsthis : respects b (CallPath.set_this dp jsthis).
Proof.
  unfold CallPath.set_this. destruct (existsb _ _); [apply pres_ret|].
  apply pres_bind; [apply pres_heap_alloc|]. intros args.
  destruct (negb args); [apply pres_ret|].
  destruct (rgdispidNamedArgs dp); [apply pres_ret|].
  apply pres_bind; [apply pres_heap_alloc|]. intros ids.
  destruct (negb ids); apply pres_ret.
Qed.

Lemma pres_disp_call_with invoke release disp id fl dp retv :
  (forall this jsthis i fl dp retv, respects b (invoke this jsthis i fl dp retv)) ->
  (forall p, respects b (release p)) ->
  respects b (CallPath.disp_call_with invoke release disp id fl dp retv).
Proof.
  intros Hinv Hrel. unfold CallPath.disp_call_with.
  apply pres_bind.
  { unfold CallPath.iface_to_jsdisp. destruct disp as [p|n]; [|apply pres_ret].
    apply pres_bind.
    - unfold CallPath.DispatchEx_QueryInterface.
      apply pres_bind; [apply pres_AddRef|]. intros _. apply pres_ret.
    - intros r. destruct (FAILED (fst r)); apply pres_ret. }
  intros [p|].
  - apply pres_bind.
    + unfold CallPath.jsdisp_call_with. apply pres_bind; [apply pres_obj|]. intros o.
      destruct (get_prop o id); [apply Hinv|apply pres_ret].
    + intros r. apply pres_bind; [apply Hrel|]. intros _. apply pres_ret.
  - destruct disp as [p|n]; [apply pres_fault|].
    destruct Hforeign as (Hex & Hrl & Hin).
    destruct (foreign_IDispatchEx n).
    + apply pres_bind; [apply pres_evolves; intros st [r v] st'; apply Hex|].
      intros r. apply pres_bind; [apply pres_evolves; intros st [] st'; apply Hrl|].
      intros _. apply pres_ret.
    + apply pres_evolves. intros st [r v] st'. apply Hin.
Qed.

Lemma pres_call_path fuel : forall this jsthis i fl dp retv,
  respects b (CallPath.invoke_prop_func fuel this jsthis i fl dp retv).
Proof.
  induction fuel as [|fuel IH]; intros this jsthis i fl dp retv;
    cbn [CallPath.invoke_prop_func]; [apply pres_timeout|].
  apply pres_bind; [apply pres_slot|]. intros prop.
  destruct (type prop).
  - destruct (u prop) as [|v| |]; try apply pres_fault.
    destruct v as [| | |d]; try apply pres_ret.
    apply pres_bind; [apply pres_set_this|]. intros r.
    destruct (FAILED (fst r)); [apply pres_ret|].
    destruct (snd r); [|apply pres_fault].
    apply pres_disp_call_with; [done|]. intros p. by apply pres_Release.
  - destruct (_ && _); [apply pres_ret|].
    destruct (u prop) as [| |d|]; try apply pres_fault.
    destruct (b_invoke d); [by apply pres_builtin_invoke|apply pres_fault].
  - apply pres_bind; [apply pres_obj|]. intros o.
    destruct (prototype o); [|apply pres_fault].
    destruct (u prop); try apply pres_fault. apply IH.
  - apply pres_ret.
Qed.

End CallPathBelow.

(** X21. The engine's own call path is a collaborator that respects the
    tables.  With built-ins, hooks and foreign objects that keep every slot
    of every table in place (a slot changes along Value, Builtin, ProtoRef
    to Deleted, or Builtin / ProtoRef to Value, and keeps its name), so
    does [invoke_prop_func] with [set_this], [disp_call] and [jsdisp_call]:
    the host whose call path is the engine's own satisfies the assumption
    made of hosts. *)
Theorem engine_host_evolves (H : Host) (F : Foreign) (fuel : nat) :
  host_evolves H -> foreign_evolves F -> host_evolves (engine_host H F fuel).
Proof.
  intros Hhost Hforeign. pose proof Hhost as (Hb & Hp & Hd & _).
  split; [exact Hb|]. split; [exact Hp|]. split; [exact Hd|].
  intros this jsthis i fl dp retv st r st'. simpl.
  apply (pres_to_evolves (CallPath.invoke_prop_func fuel this jsthis i fl dp retv)).
  intros b. by apply pres_call_path.
Qed.

Lemma engine_host_evolves_witness : host_evolves (engine_host quiet_host quiet_foreign 3).
Proof.
  apply (engine_host_evolves quiet_host quiet_foreign 3);
    [apply quiet_host_evolves|apply quiet_foreign_evolves].
Defined.

(** * The DIB driver *)

(** X22. [get_device_rect] returns a well-ordered rectangle: its left and
    right are the lesser and the greater of the two transformed abscissas,
    its top and bottom the lesser and the greater of the two transformed
    ordinates, whatever the transform of the device context does to the
    corners; with the right-to-left correction on a mirrored context, the
    rectangle is moved one unit to the left before it is transformed. *)
Theorem get_device_rect_ordered (layout : Z) (LPtoDP : Dib.RECT -> Dib.RECT)
    (left0 top0 right0 bottom0 : Z) (rtl_correction : bool) (rect : Dib.RECT) :
  Dib.get_device_rect layout LPtoDP left0 top0 right0 bottom0 rtl_correction = Ret rect ->
  let shift := if rtl_correction && negb (Z.land layout Dib.LAYOUT_RTL =? 0) then 1 else 0 in
  let dev := LPtoDP {| Dib.left := left0 - shift; Dib.top := top0;
                       Dib.right := right0 - shift; Dib.bottom := bottom0 |} in
  Dib.left rect = Z.min (Dib.left dev) (Dib.right dev) /\
  Dib.right rect = Z.max (Dib.left dev) (Dib.right dev) /\
  Dib.top rect = Z.min (Dib.top dev) (Dib.bottom dev) /\
  Dib.bottom rect = Z.max (Dib.top dev) (Dib.bottom dev) /\
  Dib.left rect <= Dib.right rect /\ Dib.top rect <= Dib.bottom rect.
Proof.
  intros Hrun. cbv zeta. unfold Dib.get_device_rect in Hrun.
  destruct (rtl_correction && negb (Z.land layout Dib.LAYOUT_RTL =? 0));
    cbn [Dib.left Dib.right Dib.top Dib.bottom] in *.
  - destruct (_ || _); [done|]. injection Hrun as <-.
    destruct (LPtoDP _) as [l t r b]; simpl.
    destruct (Z.ltb_spec r l); simpl; destruct (Z.ltb_spec b t); simpl; lia.
  - rewrite !Z.sub_0_r. injection Hrun as <-.
    destruct (LPtoDP _) as [l t r b]; simpl.
    destruct (Z.ltb_spec r l); simpl; destruct (Z.ltb_spec b t); simpl; lia.
Qed.

Lemma get_device_rect_ordered_witness :
  exists rect,
    Dib.get_device_rect Dib.LAYOUT_RTL (fun r => r) 10 20 5 2 true = Ret rect /\
    rect = {| Dib.left := 4; Dib.top := 2; Dib.right := 9; Dib.bottom := 20 |} /\
    Dib.left rect <= Dib.right rect /\ Dib.top rect <= Dib.bottom rect.
Proof.
  eexists. split; [reflexivity|]. split; [reflexivity|].
  destruct (get_device_rect_ordered Dib.LAYOUT_RTL (fun r => r) 10 20 5 2 true _ eq_refl)
    as (_ & _ & _ & _ & Hx & Hy).
  by split.
Defined.

Lemma for_all_levels (P : Z -> Z -> bool) :
  forallb (fun aa => forallb (P aa) components) levels = true ->
  forall aa t, 0 <= aa <= 16 -> 0 <= t <= 255 -> P aa t = true.
Proof.
  intros Hall aa t Haa Ht. rewrite forallb_forall in Hall.
  specialize (Hall aa). rewrite forallb_forall in Hall. apply Hall.
  - apply list_elem_of_In, elem_of_seqZ. lia.
  - apply list_elem_of_In, elem_of_seqZ. lia.
Qed.

Lemma brackets_all : forallb (fun aa => forallb (brackets aa) components) levels = true.
Proof. vm_compute. reflexivity. Qed.

Lemma narrows_all : forallb (fun aa => forallb (narrows aa) components) levels = true.
Proof. vm_compute. reflexivity. Qed.

(** X23. The range of destination intensities of a glyph level.  For every
    level from 0 to 16 and every text component from 0 to 255, [get_range]
    returns a minimum and a maximum that are bytes and bracket the text
    component; level 0 (no coverage) leaves the whole range 0..255, level 16
    (full coverage) leaves the text component alone, and from one level to
    the next the range narrows: the minimum does not fall, the maximum
    does not rise. *)
Theorem get_range_brackets (aa text_comp : Z) :
  0 <= aa <= 16 -> 0 <= text_comp <= 255 ->
  exists min_comp max_comp,
    Dib.get_range aa text_comp = Ret (min_comp, max_comp) /\
    0 <= min_comp <= text_comp /\ text_comp <= max_comp <= 255 /\
    (aa = 0 -> min_comp = 0 /\ max_comp = 255) /\
    (aa = 16 -> min_comp = text_comp /\ max_comp = text_comp) /\
    (aa < 16 ->
     exists min_next max_next,
       Dib.get_range (aa + 1) text_comp = Ret (min_next, max_next) /\
       min_comp <= min_next /\ max_next <= max_comp).
Proof.
  intros Haa Ht.
  pose proof (for_all_levels _ brackets_all aa text_comp Haa Ht) as Hb.
  pose proof (for_all_levels _ narrows_all aa text_comp Haa Ht) as Hn.
  unfold brackets, narrows in *.
  destruct (Dib.get_range aa text_comp) as [[lo hi]| |]; [|done|done].
  exists lo, hi. split; [done|].
  apply andb_prop in Hb as [Hb H16]. apply andb_prop in Hb as [Hb H0].
  apply andb_prop in Hb as [Hb Hhi]. apply andb_prop in Hb as [Hb Hmid].
  apply andb_prop in Hb as [Hlo Hle].
  apply Z.leb_le in Hhi, Hmid, Hlo, Hle.
  split; [lia|]. split; [lia|]. split; [|split].
  - intros ->. change (0 =? 0) with true in H0.
    apply andb_prop in H0 as [?%Z.eqb_eq ?%Z.eqb_eq]. done.
  - intros ->. change (16 =? 16) with true in H16.
    apply andb_prop in H16 as [?%Z.eqb_eq ?%Z.eqb_eq]. done.
  - intros Hlt. destruct (Dib.get_range (aa + 1) text_comp) as [[lo' hi']| |].
    + apply andb_prop in Hn as [?%Z.leb_le ?%Z.leb_le]. eauto.
    + apply Z.leb_le in Hn. lia.
    + apply Z.leb_le in Hn. lia.
Qed.

Lemma get_range_brackets_witness :
  exists min_comp max_comp,
    Dib.get_range 8 100 = Ret (min_comp, max_comp) /\
    0 <= min_comp <= 100 /\ 100 <= max_comp <= 255.
Proof.
  destruct (get_range_brackets 8 100 ltac:(lia) ltac:(lia))
    as (lo & hi & Hrun & Hlo & Hhi & _).
  by exists lo, hi.
Defined.

Lemma as_BYTE_range z : 0 <= Dib.as_BYTE z <= 255.
Proof. unfold Dib.as_BYTE. pose proof (Z.mod_pos_bound z (2 ^ 8)). lia. Qed.

Lemma get_range_returns aa t :
  0 <= aa <= 16 -> exists r, Dib.get_range aa t = Ret r.
Proof.
  intros Haa. unfold Dib.get_range, Dib.ramp_at.
  destruct (Z.ltb_spec aa 0); [lia|]. destruct (Z.ltb_spec (16 - aa) 0); [lia|].
  destruct (Dib.ramp !! Z.to_nat aa) eqn:E1;
    [|apply lookup_ge_None in E1; simpl in E1; lia].
  destruct (Dib.ramp !! Z.to_nat (16 - aa)) eqn:E2;
    [|apply lookup_ge_None in E2; simpl in E2; lia].
  eauto.
Qed.

(** The entries [get_aa_ranges_loop] computes are the ranges of the three
    components at the levels from [i] on. *)
Lemma get_aa_ranges_loop_spec col : forall n i,
  0 <= i -> i + Z.of_nat n <= 17 ->
  exists l, Dib.get_aa_ranges_loop n i col = Ret l /\ length l = n /\
    forall k e, l !! k = Some e ->
      Dib.get_range (i + Z.of_nat k) (Dib.GetRValue col) = Ret (Dib.r_min e, Dib.r_max e) /\
      Dib.get_range (i + Z.of_nat k) (Dib.GetGValue col) = Ret (Dib.g_min e, Dib.g_max e) /\
      Dib.get_range (i + Z.of_nat k) (Dib.GetBValue col) = Ret (Dib.b_min e, Dib.b_max e).
Proof.
  induction n as [|n IH]; intros i Hi Hn; cbn [Dib.get_aa_ranges_loop].
  - exists []. split; [done|]. split; [done|]. intros k e Hk. by rewrite lookup_nil in Hk.
  - destruct (get_range_returns i (Dib.GetRValue col)) as ([rl rh] & Hr0); [lia|].
    destruct (get_range_returns i (Dib.GetGValue col)) as ([gl gh] & Hg0); [lia|].
    destruct (get_range_returns i (Dib.GetBValue col)) as ([bl bh] & Hb0); [lia|].
    rewrite Hr0, Hg0, Hb0.
    destruct (IH (i + 1)) as (rest & -> & Hlen & Hrest); [lia..|].
    eexists. split; [done|]. split; [simpl; by rewrite Hlen|].
    intros [|k] e Hk; simpl in Hk.
    + injection Hk as <-. simpl. rewrite Z.add_0_r. done.
    + destruct (Hrest k e Hk) as (Hr & Hg & Hb).
      replace (i + Z.of_nat (S k)) with (i + 1 + Z.of_nat k) by lia. done.
Qed.

Lemma brackets_inv aa t lo hi :
  0 <= aa <= 16 -> 0 <= t <= 255 -> Dib.get_range aa t = Ret (lo, hi) ->
  0 <= lo <= t /\ t <= hi <= 255 /\
  (aa = 0 -> lo = 0 /\ hi = 255) /\ (aa = 16 -> lo = t /\ hi = t).
Proof.
  intros Haa Ht Hrun. pose proof (for_all_levels _ brackets_all aa t Haa Ht) as Hb.
  unfold brackets in Hb. rewrite Hrun in Hb.
  apply andb_prop in Hb as [Hb H16]. apply andb_prop in Hb as [Hb H0].
  apply andb_prop in Hb as [Hb Hhi]. apply andb_prop in Hb as [Hb Hmid].
  apply andb_prop in Hb as [Hlo Hle].
  apply Z.leb_le in Hhi, Hmid, Hlo, Hle.
  split; [lia|]. split; [lia|]. split.
  - intros ->. change (0 =? 0) with true in H0.
    apply andb_prop in H0 as [?%Z.eqb_eq ?%Z.eqb_eq]. done.
  - intros ->. change (16 =? 16) with true in H16.
    apply andb_prop in H16 as [?%Z.eqb_eq ?%Z.eqb_eq]. done.
Qed.

(** X24. The table [get_aa_ranges] fills.  For every text colour the table
    has 17 entries, one per glyph level; in each entry the ranges of red,
    green and blue are ranges of bytes around the component of the colour;
    the entry of level 0 is the whole range 0..255 for each component, and
    the entry of level 16 is the text colour itself. *)
Theorem get_aa_ranges_brackets (col : Z) :
  exists intensities,
    Dib.get_aa_ranges col = Ret intensities /\ length intensities = 17%nat /\
    forall i e, intensities !! i = Some e ->
      around (Dib.r_min e) (Dib.r_max e) (Dib.GetRValue col) /\
      around (Dib.g_min e) (Dib.g_max e) (Dib.GetGValue col) /\
      around (Dib.b_min e) (Dib.b_max e) (Dib.GetBValue col) /\
      (i = 0%nat ->
       e = {| Dib.r_min := 0; Dib.r_max := 255; Dib.g_min := 0; Dib.g_max := 255;
              Dib.b_min := 0; Dib.b_max := 255 |}) /\
      (i = 16%nat ->
       e = {| Dib.r_min := Dib.GetRValue col; Dib.r_max := Dib.GetRValue col;
              Dib.g_min := Dib.GetGValue col; Dib.g_max := Dib.GetGValue col;
              Dib.b_min := Dib.GetBValue col; Dib.b_max := Dib.GetBValue col |}).
Proof.
  destruct (get_aa_ranges_loop_spec col 17 0) as (l & Hrun & Hlen & Hl); [lia..|].
  exists l. split; [done|]. split; [done|]. intros i e He.
  pose proof (lookup_lt_Some _ _ _ He) as Hi. rewrite Hlen in Hi.
  destruct (Hl i e He) as (Hr & Hg & Hb). rewrite Z.add_0_l in Hr, Hg, Hb.
  assert (Hlev : 0 <= Z.of_nat i <= 16) by lia.
  destruct (brackets_inv _ _ _ _ Hlev (as_BYTE_range _) Hr) as (Hr1 & Hr2 & Hr0 & Hr16).
  destruct (brackets_inv _ _ _ _ Hlev (as_BYTE_range _) Hg) as (Hg1 & Hg2 & Hg0 & Hg16).
  destruct (brackets_inv _ _ _ _ Hlev (as_BYTE_range _) Hb) as (Hb1 & Hb2 & Hb0 & Hb16).
  split; [done|]. split; [done|]. split; [done|]. split.
  - intros ->. destruct e; simpl in *.
    destruct (Hr0 eq_refl) as [-> ->], (Hg0 eq_refl) as [-> ->], (Hb0 eq_refl) as [-> ->].
    done.
  - intros ->. destruct e; simpl in *.
    destruct (Hr16 eq_refl) as [-> ->], (Hg16 eq_refl) as [-> ->],
      (Hb16 eq_refl) as [-> ->].
    done.
Qed.

(** X25. [get_rop2_from_rop] reads the binary raster operation out of a
    ternary one whose result does not depend on the source: the result is
    one of the sixteen codes 1..16, and the truth table behind it (the code
    less one) has, for pattern bit [P] and destination bit [D], the entry
    the ternary table (bits 16 to 23 of the operation) has for pattern [P],
    source 0 and destination [D]. *)
Theorem get_rop2_from_rop_table (rop : Z) :
  1 <= Dib.get_rop2_from_rop rop <= 16 /\
  forall P D : bool,
    Z.testbit (Dib.get_rop2_from_rop rop - 1) (2 * Z.b2z P + Z.b2z D)
    = Z.testbit rop (16 + 4 * Z.b2z P + Z.b2z D).
Proof.
  unfold Dib.get_rop2_from_rop. rewrite Z.add_simpl_r.
  set (t := Z.lor (Z.land (Z.shiftr rop 18) 12) (Z.land (Z.shiftr rop 16) 3)).
  assert (Hbits : forall n, 0 <= n ->
    Z.testbit t n = (Z.testbit rop (n + 18) && Z.testbit 12 n) ||
                    (Z.testbit rop (n + 16) && Z.testbit 3 n)).
  { intros n Hn. subst t. rewrite Z.lor_spec, !Z.land_spec, !Z.shiftr_spec by lia. done. }
  split.
  - assert (Ht : 0 <= t < 16); [|lia].
    assert (Hhigh : forall n, 4 <= n -> Z.testbit t n = false).
    { intros n Hn. rewrite Hbits by lia.
      change 12 with (Z.ones 2 * 2 ^ 2). change 3 with (Z.ones 2).
      rewrite Z.mul_pow2_bits by lia.
      rewrite !Z.ones_spec_high by lia. by rewrite !andb_false_r. }
    assert (Hnn : 0 <= t).
    { apply Z.bits_iff_nonneg_ex. exists 3. intros m Hm. apply Hhigh. lia. }
    split; [done|].
    destruct (Z.lt_ge_cases t 16) as [|Hge]; [done|].
    assert (Hlog : 4 <= Z.log2 t) by (change 4 with (Z.log2 16); by apply Z.log2_le_mono).
    pose proof (Z.bit_log2 t ltac:(lia)) as Hb. rewrite Hhigh in Hb by lia. done.
  - intros P D. rewrite Hbits by (destruct P, D; simpl; lia).
    destruct P, D; simpl Z.b2z; simpl Z.add; simpl Z.mul;
      cbn [Z.testbit Z.add Z.mul]; rewrite ?andb_true_r, ?andb_false_r, ?orb_false_r,
      ?orb_false_l; done.
Qed.

(** ** The conversion of a glyph bitmap in place *)

Lemma peek_ok buf i : 0 <= i < Z.of_nat (length buf) -> exists v, Glyph.peek buf i = Ret v.
Proof.
  intros Hi. unfold Glyph.peek. destruct (Z.ltb_spec i 0); [lia|].
  destruct (buf !! Z.to_nat i) eqn:E; [eauto|]. apply lookup_ge_None in E. lia.
Qed.

Lemma poke_ok buf i v :
  0 <= i < Z.of_nat (length buf) -> Glyph.poke buf i v = Ret (<[Z.to_nat i := v]> buf).
Proof.
  intros Hi. unfold Glyph.poke. destruct (Z.ltb_spec i 0); [lia|].
  destruct (Z.leb_spec (Z.of_nat (length buf)) i); [lia|]. done.
Qed.

Lemma peek_insert_eq buf i v :
  0 <= i < Z.of_nat (length buf) -> Glyph.peek (<[Z.to_nat i := v]> buf) i = Ret v.
Proof.
  intros Hi. unfold Glyph.peek. destruct (Z.ltb_spec i 0); [lia|].
  rewrite list_lookup_insert_eq by lia. done.
Qed.

Lemma peek_insert_ne buf i j v :
  0 <= i -> i <> j -> Glyph.peek (<[Z.to_nat i := v]> buf) j = Glyph.peek buf j.
Proof.
  intros Hi Hne. unfold Glyph.peek. destruct (Z.ltb_spec j 0); [done|].
  rewrite list_lookup_insert_ne by lia. done.
Qed.

Lemma memset_zero_spec n : forall start buf,
  0 <= start -> start + Z.of_nat n <= Z.of_nat (length buf) ->
  exists buf', Glyph.memset_zero n start buf = Ret buf' /\ length buf' = length buf /\
    (forall i, start <= i < start + Z.of_nat n -> Glyph.peek buf' i = Ret 0) /\
    (forall i, ~ (start <= i < start + Z.of_nat n) -> Glyph.peek buf' i = Glyph.peek buf i).
Proof.
  induction n as [|n IH]; intros start buf Hs Hlen; cbn [Glyph.memset_zero].
  - exists buf. split; [done|]. split; [done|]. split; [lia|done].
  - rewrite poke_ok by lia.
    destruct (IH (start + 1) (<[Z.to_nat start := 0]> buf)) as (buf' & Hrun & Hl & Hz & Hk);
      [lia|rewrite length_insert; lia|].
    exists buf'. split; [done|]. rewrite length_insert in Hl. split; [done|]. split.
    + intros i Hi. destruct (decide (i = start)) as [->|Hne].
      * rewrite Hk by lia. apply peek_insert_eq. lia.
      * apply Hz. lia.
    + intros i Hi. rewrite Hk by lia. apply peek_insert_ne; lia.
Qed.

Lemma land_pow2_eqb a n : 0 <= n -> (Z.land a (2 ^ n) =? 0) = negb (Z.testbit a n).
Proof.
  intros Hn. destruct (Z.testbit a n) eqn:Hb; simpl.
  - apply Z.eqb_neq. intros E. apply (f_equal (fun z => Z.testbit z n)) in E.
    rewrite Z.land_spec, Hb, Z.pow2_bits_true, Z.bits_0 in E by done. done.
  - apply Z.eqb_eq. apply Z.bits_inj_0. intros m. rewrite Z.land_spec.
    destruct (Z.ltb_spec m 0); [by rewrite (Z.testbit_neg_r a)|].
    rewrite Z.pow2_bits_eqb by done. destruct (Z.eqb_spec n m) as [<-|];
      [by rewrite Hb|apply andb_false_r].
Qed.

Lemma mask_level byte x :
  0 <= x ->
  exists mask, Glyph.peek Glyph.masks (x mod 8) = Ret mask /\
               (if Z.land byte mask =? 0 then 0 else 0x10) = pixel_level byte x.
Proof.
  intros Hx. pose proof (Z.mod_pos_bound x 8 ltac:(lia)) as Hm. unfold pixel_level.
  assert (Hcase : x mod 8 = 0 \/ x mod 8 = 1 \/ x mod 8 = 2 \/ x mod 8 = 3 \/
                  x mod 8 = 4 \/ x mod 8 = 5 \/ x mod 8 = 6 \/ x mod 8 = 7) by lia.
  destruct Hcase as [E|[E|[E|[E|[E|[E|[E|E]]]]]]]; rewrite E;
    (eexists; split; [reflexivity|]);
    match goal with |- context [Z.land byte ?m =? 0] =>
      match goal with |- context [Z.testbit byte ?k] =>
        change m with (2 ^ k); rewrite (land_pow2_eqb byte k) by lia
      end
    end; by destruct (Z.testbit byte _).
Qed.

Lemma expand_row_spec orig src dst : forall n buf,
  0 <= src <= dst -> dst + Z.of_nat n <= Z.of_nat (length buf) ->
  (forall i, i < dst + Z.of_nat n -> Glyph.peek buf i = Glyph.peek orig i) ->
  exists buf', Glyph.expand_row n src dst buf = Ret buf' /\ length buf' = length buf /\
    (forall x byte, 0 <= x < Z.of_nat n -> Glyph.peek orig (src + x / 8) = Ret byte ->
                    Glyph.peek buf' (dst + x) = Ret (pixel_level byte x)) /\
    (forall i, ~ (dst <= i < dst + Z.of_nat n) -> Glyph.peek buf' i = Glyph.peek buf i).
Proof.
  induction n as [|n IH]; intros buf Hsd Hlen Hsame; cbn [Glyph.expand_row].
  - exists buf. split; [done|]. split; [done|]. split; [lia|done].
  - cbv zeta. set (x := Z.of_nat n).
    assert (Hdiv : 0 <= x / 8 <= x).
    { split; [apply Z.div_pos; lia|]. apply Z.div_le_upper_bound; lia. }
    destruct (peek_ok buf (src + x / 8)) as (byte & Hbyte); [lia|]. rewrite Hbyte.
    destruct (mask_level byte x) as (mask & -> & Hlev); [lia|]. rewrite Hlev.
    rewrite poke_ok by lia.
    destruct (IH (<[Z.to_nat (dst + x) := pixel_level byte x]> buf))
      as (buf' & Hrun & Hl & Hpix & Hkeep).
    { done. } { rewrite length_insert. lia. }
    { intros i Hi. rewrite peek_insert_ne by lia. apply Hsame. lia. }
    exists buf'. split; [done|]. rewrite length_insert in Hl. split; [done|]. split.
    + intros x' byte' Hx' Hb'. destruct (decide (x' = x)) as [->|Hne].
      * rewrite Hkeep by lia. rewrite peek_insert_eq by lia.
        rewrite Hsame in Hbyte by lia. congruence.
      * apply Hpix; [lia|done].
    + intros i Hi. rewrite Hkeep by lia. apply peek_insert_ne; lia.
Qed.

Section Rows.
Variable get_dib_stride : Z -> Z -> Z.
Variable width pad stride : Z.
Variable orig : list Z.
Hypothesis Hwidth : 0 <= width < 2 ^ 31.
Hypothesis Hpad : 0 <= pad.
Hypothesis Hstride : 0 <= get_dib_stride width 1 <= stride.
Hypothesis Hint : stride < 2 ^ 31.
Hypothesis Hfits : width + pad <= stride.

Lemma expand_rows_spec : forall n buf,
  Z.of_nat n * stride <= Z.of_nat (length buf) -> Z.of_nat n * stride < 2 ^ 31 ->
  (forall i, i < Z.of_nat n * stride -> Glyph.peek buf i = Glyph.peek orig i) ->
  exists buf', Glyph.expand_rows get_dib_stride n width pad stride buf = Ret buf' /\
    length buf' = length buf /\
    (forall x y byte, 0 <= y < Z.of_nat n -> 0 <= x < width ->
       Glyph.peek orig (y * get_dib_stride width 1 + x / 8) = Ret byte ->
       Glyph.peek buf' (y * stride + x) = Ret (pixel_level byte x)) /\
    (forall x y, 0 <= y < Z.of_nat n -> width <= x < width + pad ->
       Glyph.peek buf' (y * stride + x) = Ret 0) /\
    (forall i, Z.of_nat n * stride <= i -> Glyph.peek buf' i = Glyph.peek buf i).
Proof.
  induction n as [|n IH]; intros buf Hlen Hsmall Hsame; cbn [Glyph.expand_rows].
  - exists buf. split; [done|]. split; [done|]. split; [lia|]. split; [lia|done].
  - cbv zeta. set (y := Z.of_nat n). set (bits_stride := get_dib_stride width 1) in *.
    assert (Hy : 0 <= y) by lia.
    assert (Hrow : y * stride + stride <= Z.of_nat (length buf)) by lia.
    assert (Hsrc : 0 <= y * bits_stride <= y * stride) by nia.
    (* the offsets of the row fit an [int] and lie in the block *)
    rewrite (as_LONG_small bits_stride) by lia.
    assert (Hsrc_off : Glyph.int_mul y bits_stride = Ret (y * bits_stride)).
    { unfold Glyph.int_mul, INT_MAX.
      destruct (Z.ltb_spec (y * bits_stride) (- 2 ^ 31)); [lia|].
      destruct (Z.ltb_spec (2 ^ 31 - 1) (y * bits_stride)); [lia|]. done. }
    assert (Hdst_off : Glyph.int_mul y stride = Ret (y * stride)).
    { unfold Glyph.int_mul, INT_MAX.
      destruct (Z.ltb_spec (y * stride) (- 2 ^ 31)); [lia|].
      destruct (Z.ltb_spec (2 ^ 31 - 1) (y * stride)); [lia|]. done. }
    assert (Hptr : forall off, 0 <= off <= y * stride -> Glyph.ptr_add buf off = Ret off).
    { intros off Hoff. unfold Glyph.ptr_add.
      destruct (Z.ltb_spec off 0); [lia|].
      destruct (Z.ltb_spec (Z.of_nat (length buf)) off); [lia|]. done. }
    rewrite Hsrc_off. cbn [Glyph.and_then]. rewrite (Hptr (y * bits_stride)) by lia.
    cbn [Glyph.and_then]. rewrite Hdst_off. cbn [Glyph.and_then].
    rewrite (Hptr (y * stride)) by lia. cbn [Glyph.and_then].
    (* the padding of the row *)
    assert (Hset : exists buf1,
      (if pad =? 0 then Ret buf
       else Glyph.memset_zero (Z.to_nat pad) (y * stride + width) buf) = Ret buf1 /\
      length buf1 = length buf /\
      (forall i, y * stride + width <= i < y * stride + width + pad ->
                 Glyph.peek buf1 i = Ret 0) /\
      (forall i, ~ (y * stride + width <= i < y * stride + width + pad) ->
                 Glyph.peek buf1 i = Glyph.peek buf i)).
    { destruct (Z.eqb_spec pad 0) as [->|Hne].
      - exists buf. split; [done|]. split; [done|]. split; [lia|done].
      - destruct (memset_zero_spec (Z.to_nat pad) (y * stride + width) buf)
          as (buf1 & Hrun & Hl & Hz & Hk); [nia|lia|].
        exists buf1. split; [done|]. split; [done|].
        split; intros i Hi; [apply Hz|apply Hk]; lia. }
    destruct Hset as (buf1 & -> & Hl1 & Hz1 & Hk1). cbn [Glyph.and_then].
    replace (as_LONG (width - 1) + 1) with width by (rewrite as_LONG_small; lia).
    destruct (expand_row_spec orig (y * bits_stride) (y * stride) (Z.to_nat width) buf1)
      as (buf2 & -> & Hl2 & Hpix2 & Hk2).
    { done. } { lia. }
    { intros i Hi. rewrite Hk1 by lia. apply Hsame. lia. }
    cbn [Glyph.and_then].
    destruct (IH buf2) as (buf' & Hrun & Hl & Hpix & Hz & Hk).
    { lia. } { lia. }
    { intros i Hi. rewrite Hk2 by lia. rewrite Hk1 by lia. apply Hsame. lia. }
    exists buf'. split; [done|]. split; [lia|]. split; [|split].
    + intros x' y' byte Hy' Hx' Hb. destruct (decide (y' = y)) as [->|Hne].
      * rewrite Hk by lia. apply Hpix2; [lia|done].
      * apply Hpix; [lia|done|done].
    + intros x' y' Hy' Hx'. destruct (decide (y' = y)) as [->|Hne].
      * rewrite Hk by lia. rewrite Hk2 by lia. apply Hz1. lia.
      * apply Hz; [lia|done].
    + intros i Hi. rewrite Hk by lia. rewrite Hk2 by lia. apply Hk1. lia.
Qed.

End Rows.

Lemma padding_rounds width :
  0 <= width ->
  exists pad, Glyph.peek Glyph.padding (width mod 4) = Ret pad /\ 0 <= pad /\
              width + pad = (width + 3) / 4 * 4.
Proof.
  intros Hw. pose proof (Z.mod_pos_bound width 4 ltac:(lia)) as Hm.
  pose proof (Z.div_mod width 4 ltac:(lia)) as Hd.
  assert (Hcase : width mod 4 = 0 \/ width mod 4 = 1 \/ width mod 4 = 2 \/ width mod 4 = 3)
    by lia.
  destruct Hcase as [E|[E|[E|E]]]; rewrite E; (eexists; split; [reflexivity|]);
    (split; [lia|]); rewrite E in Hd.
  - replace (width + 3) with (width / 4 * 4 + 3) by lia.
    rewrite Z.div_add_l by lia. change (3 / 4) with 0. lia.
  - replace (width + 3) with ((width / 4 + 1) * 4 + 0) by lia.
    rewrite Z.div_add_l by lia. change (0 / 4) with 0. lia.
  - replace (width + 3) with ((width / 4 + 1) * 4 + 1) by lia.
    rewrite Z.div_add_l by lia. change (1 / 4) with 0. lia.
  - replace (width + 3) with ((width / 4 + 1) * 4 + 2) by lia.
    rewrite Z.div_add_l by lia. change (2 / 4) with 0. lia.
Qed.

(** X26. A monochrome glyph is converted in place.  The rasterizer knows the
    glyph, the heap grants the block, and the rasterizer fills it with the
    rows of a 1-bit bitmap, [get_dib_stride (width, 1)] bytes apart.  Then
    [get_glyph_bitmap] succeeds and hands out the same block as the rows of
    an 8-bit bitmap, [stride = get_dib_stride (width, 8)] bytes apart: the
    byte of pixel [(x, y)] is 16 when its bit was set in the bitmap of the
    rasterizer (the leftmost pixel of a byte is its most significant bit)
    and 0 when not, and the bytes from the width up to the next multiple of
    four are 0.  No access leaves the block, no offset overflows an [int]
    and no bit is read after it has been overwritten.  The two strides are
    those of one bitmap: the 1-bit rows are not further apart than the
    8-bit rows, which hold the width rounded up to a multiple of four; and
    the size of the block, height times stride, fits an [int]. *)
Theorem get_glyph_bitmap_monochrome
    (GetGlyphOutlineW : Z -> Z -> Z -> Z * Glyph.GLYPHMETRICS * list Z)
    (get_dib_stride : Z -> Z -> Z) (HeapAlloc : Z -> bool)
    (index ret0 ret : Z) (metrics : Glyph.GLYPHMETRICS) (none bits : list Z) :
  let width := Glyph.gmBlackBoxX metrics in
  let height := Glyph.gmBlackBoxY metrics in
  let stride := get_dib_stride width 8 in
  let ggo_flags := Z.lor Glyph.GGO_BITMAP Glyph.GGO_GLYPH_INDEX in
  GetGlyphOutlineW index ggo_flags 0 = (ret0, metrics, none) ->
  ret0 <> Glyph.GDI_ERROR -> ret0 <> 0 ->
  HeapAlloc (height * stride) = true ->
  GetGlyphOutlineW index ggo_flags (height * stride) = (ret, metrics, bits) ->
  ret <> Glyph.GDI_ERROR ->
  Z.of_nat (length bits) = height * stride ->
  0 <= width < 2 ^ 31 -> 0 <= height < 2 ^ 31 ->
  stride < 2 ^ 31 -> height * stride < 2 ^ 31 ->
  0 <= get_dib_stride width 1 <= stride -> (width + 3) / 4 * 4 <= stride ->
  exists out,
    Glyph.get_glyph_bitmap GetGlyphOutlineW get_dib_stride HeapAlloc index Glyph.GGO_BITMAP
    = Ret (Glyph.ERROR_SUCCESS, Some metrics, Some out) /\
    length out = length bits /\
    (forall x y byte, 0 <= y < height -> 0 <= x < width ->
       Glyph.peek bits (y * get_dib_stride width 1 + x / 8) = Ret byte ->
       Glyph.peek out (y * stride + x)
       = Ret (if Z.testbit byte (7 - x mod 8) then 0x10 else 0)) /\
    (forall x y, 0 <= y < height -> width <= x < (width + 3) / 4 * 4 ->
       Glyph.peek out (y * stride + x) = Ret 0).
Proof.
  intros width height stride ggo_flags Hq Hret0 Hne0 Hheap Hfill Hret Hlen Hw Hh Hint Hsize
    Hs Hfit.
  destruct (padding_rounds width) as (pad & Hpad & Hpad0 & Hround); [lia|].
  assert (Hsz : as_DWORD (height * stride) = height * stride).
  { unfold as_DWORD. apply Z.mod_small. nia. }
  assert (Hstr : as_LONG stride = stride) by (apply as_LONG_small; lia).
  destruct (expand_rows_spec get_dib_stride width pad stride bits Hw Hpad0 Hs Hint
              ltac:(lia) (Z.to_nat height) bits) as (out & Hrun & Hl & Hpix & Hz & _);
    [lia|lia|done|].
  exists out. split; [|split; [done|split]].
  - unfold Glyph.get_glyph_bitmap. cbn [Glyph.first_glyph].
    fold ggo_flags. rewrite Hq.
    destruct (Z.eqb_spec ret0 Glyph.GDI_ERROR) as [|_]; [done|].
    destruct (Z.eqb_spec ret0 0) as [|_]; [done|].
    fold width height. rewrite Hpad. fold stride. rewrite Hstr, Hsz, Hheap. cbn [negb].
    rewrite Hfill. destruct (Z.eqb_spec ret Glyph.GDI_ERROR) as [|_]; [done|].
    rewrite Z.eqb_refl. fold width height.
    replace (as_LONG (height - 1) + 1) with height by (rewrite as_LONG_small; lia).
    rewrite Hrun. done.
  - intros x y byte Hy Hx Hb. unfold pixel_level in Hpix. apply (Hpix x y byte); [lia|done|done].
  - intros x y Hy Hx. apply Hz; lia.
Qed.

Lemma get_glyph_bitmap_monochrome_witness :
  exists out,
    Glyph.get_glyph_bitmap sample_rasterizer sample_stride (fun _ => true) 65 Glyph.GGO_BITMAP
    = Ret (Glyph.ERROR_SUCCESS, Some sample_metrics, Some out) /\
    length out = 8%nat /\
    Glyph.peek out 0 = Ret 0x10 /\ Glyph.peek out 1 = Ret 0 /\ Glyph.peek out 2 = Ret 0x10 /\
    Glyph.peek out 3 = Ret 0 /\ Glyph.peek out 5 = Ret 0x10.
Proof.
  destruct (get_glyph_bitmap_monochrome sample_rasterizer sample_stride (fun _ => true)
              65 8 8 sample_metrics [] sample_bits)
    as (out & Hrun & Hlen & Hpix & Hpad); try reflexivity; try (by vm_compute).
  exists out. split; [exact Hrun|]. split; [exact Hlen|].
  split; [|split; [|split; [|split]]].
  - apply (Hpix 0 0 0xa0); [by vm_compute..|reflexivity].
  - apply (Hpix 1 0 0xa0); [by vm_compute..|reflexivity].
  - apply (Hpix 2 0 0xa0); [by vm_compute..|reflexivity].
  - apply (Hpad 3 0); by vm_compute.
  - apply (Hpix 1 1 0x40); [by vm_compute..|reflexivity].
Defined.
